(** * hubmap: port-identity normalisation and calibration mapping

    A shallow embedding of [src/lib/mapper.js] (class [PortMapper]) and of
    the schema validator of [src/lib/store.js], together with the parts of
    the JavaScript runtime these two files rely on: truthiness, [typeof],
    [Number.isInteger], non-global regular-expression matching with the
    [i] flag, [parseInt(_, 10)], [String(number)] and plain-object
    property access.

    The file functions of the store, [runScript] of the scanner and the
    loops of the commands of [src/index.js] follow, with the file system,
    the clock, [JSON.parse], [JSON.stringify], the executions of the
    PowerShell command and the answers of the user as explicit inputs.

    JavaScript strings are modelled as [string] (a sequence of 8-bit
    characters).  Every pattern of the sources is made of ASCII atoms only,
    so a character outside ASCII never matches an atom and is simply
    skipped by the search, whatever its encoding. *)

From Stdlib Require Import ZArith NArith QArith String Ascii List Bool Lia.
From Stdlib Require Import DecimalString DecimalN DecimalPos DecimalFacts.
From stdpp Require Import gmap strings list.

Local Set Warnings "-register-all".
Local Open Scope string_scope.
Local Open Scope list_scope.

(* ===================================================================== *)
(** * Characters and strings *)
(* ===================================================================== *)

Module Chars.

Definition code (c : ascii) : N := N_of_ascii c.

Definition between (lo hi c : ascii) : bool :=
  (code lo <=? code c)%N && (code c <=? code hi)%N.

Definition isDigit (c : ascii) : bool := between "0" "9" c.
Definition isLower (c : ascii) : bool := between "a" "z" c.
Definition isUpper (c : ascii) : bool := between "A" "Z" c.

(** ASCII letters only; any other character is left alone. *)
Definition toUpper (c : ascii) : ascii :=
  if isLower c then ascii_of_N (code c - 32) else c.

Definition toLower (c : ascii) : ascii :=
  if isUpper c then ascii_of_N (code c + 32) else c.

Definition eqb (a b : ascii) : bool := (code a =? code b)%N.

End Chars.

(** [String.prototype.toUpperCase], on the ASCII letters.  The mapper
    applies it to a capture made of digits, ['&'] and hexadecimal letters
    only. *)
Definition toUpperCase (s : string) : string :=
  string_of_list_ascii (map Chars.toUpper (list_ascii_of_string s)).

(** [String.prototype.startsWith(prefix)] (position 0). *)
Fixpoint startsWith (s prefix : string) {struct prefix} : bool :=
  match prefix with
  | EmptyString => true
  | String p prefix' =>
      match s with
      | String c s' => Chars.eqb c p && startsWith s' prefix'
      | EmptyString => false
      end
  end.

(* ===================================================================== *)
(** * Regular expressions: a backtracking matcher *)
(* ===================================================================== *)

(** The three patterns of the sources use single characters, [\d], one
    character class, the greedy [+] applied to a single-character atom, one
    capture group and the two anchors.  The matcher follows the
    continuation-passing semantics of ECMAScript: an alternative is tried
    with the rest of the pattern as its continuation, and a greedy
    quantifier first tries to consume more. *)
Module RegExp.

(** A single-character atom is a set of characters, given as ranges:
    a literal [c] is [(c, c)], [\d] is [("0", "9")]. *)
Definition charset := list (ascii * ascii).

Definition lit (c : ascii) : charset := [(c, c)].
Definition digit : charset := [("0", "9")%char].

Inductive pattern : Type :=
| Empty
| Atom (cs : charset)
| Plus (cs : charset)            (* greedy [+] of an atom *)
| Cat (p q : pattern)
| Group (p : pattern)            (* capture group 1 *)
| Start                          (* [^] *)
| End.                           (* [$] *)

Record t := { source : pattern; ignoreCase : bool }.

(** With [ignoreCase] a character matches a set when some member of the
    set has the same canonical form; for ASCII the characters sharing a
    canonical form with [c] are [c] and its two case variants. *)
Definition inRange (ic : bool) (c : ascii) (r : ascii * ascii) : bool :=
  Chars.between (fst r) (snd r) c
  || (ic && (Chars.between (fst r) (snd r) (Chars.toUpper c)
             || Chars.between (fst r) (snd r) (Chars.toLower c))).

Definition matches (ic : bool) (cs : charset) (c : ascii) : bool :=
  existsb (inRange ic c) cs.

(** Matcher state: the end index reached so far, the input that is left,
    and the text captured by group 1 ([None]: undefined). *)
Record state := { endIndex : nat; rest : list ascii; capture : option (list ascii) }.

Definition cont := state -> option state.

Fixpoint plus (ic : bool) (cs : charset) (i : nat) (s : list ascii)
         (cap : option (list ascii)) (k : cont) : option state :=
  match s with
  | [] => None
  | c :: s' =>
      if matches ic cs c then
        match plus ic cs (S i) s' cap k with
        | Some r => Some r
        | None => k {| endIndex := S i; rest := s'; capture := cap |}
        end
      else None
  end.

Fixpoint run (ic : bool) (p : pattern) (st : state) (k : cont) : option state :=
  match p with
  | Empty => k st
  | Atom cs =>
      match rest st with
      | c :: s' =>
          if matches ic cs c
          then k {| endIndex := S (endIndex st); rest := s'; capture := capture st |}
          else None
      | [] => None
      end
  | Plus cs => plus ic cs (endIndex st) (rest st) (capture st) k
  | Cat p q => run ic p st (fun st' => run ic q st' k)
  | Group p =>
      run ic p st (fun st' =>
        k {| endIndex := endIndex st'; rest := rest st';
             capture := Some (firstn (endIndex st' - endIndex st) (rest st)) |})
  | Start => if Nat.eqb (endIndex st) 0 then k st else None
  | End => match rest st with [] => k st | _ :: _ => None end
  end.

(** The match array of a successful match: [index], element 0 (the whole
    match) and element 1 (the capture). *)
Record result := { index : nat; whole : string; group1 : option string }.

Definition matchAt (re : t) (i : nat) (s : list ascii) : option result :=
  match run (ignoreCase re) (source re)
            {| endIndex := i; rest := s; capture := None |} Some with
  | Some st =>
      Some {| index := i;
              whole := string_of_list_ascii (firstn (endIndex st - i) s);
              group1 := option_map string_of_list_ascii (capture st) |}
  | None => None
  end.

(** The search of [RegExp.prototype.exec] without the [g] and [y] flags:
    start positions are tried from the left, the end of the input
    included. *)
Fixpoint search (re : t) (i : nat) (s : list ascii) : option result :=
  match matchAt re i s with
  | Some r => Some r
  | None =>
      match s with
      | [] => None
      | _ :: s' => search re (S i) s'
      end
  end.

Definition exec (re : t) (s : string) : option result :=
  search re 0 (list_ascii_of_string s).

(** [RegExp.prototype.test]. *)
Definition test (re : t) (s : string) : bool :=
  match exec re s with Some _ => true | None => false end.

End RegExp.

(** [String.prototype.match] with a non-global pattern is [exec]. *)
Definition String_match (s : string) (re : RegExp.t) : option RegExp.result :=
  RegExp.exec re s.

(* ===================================================================== *)
(** * Numbers: [parseInt(_, 10)] and [String(_)] *)
(* ===================================================================== *)

(** The Number values [parseInt] returns on an unsigned run of digits:
    [NaN], [+Infinity], or a non-negative integer that is exactly a
    double. *)
Inductive intnumber : Type :=
| IntNaN
| IntInfinity
| IntFinite (n : N).

Module Double.

(** The Number value for a non-negative mathematical integer: round to
    53 significant bits, ties to even; from [2^1024] on the result is
    [+Infinity]. *)
Definition ofInteger (n : N) : intnumber :=
  if (n <? 2 ^ 53)%N then IntFinite n
  else
    let e := (N.log2 n - 52)%N in
    let q := (n / 2 ^ e)%N in
    let r := (n mod 2 ^ e)%N in
    let half := (2 ^ (e - 1))%N in
    let q' := if (half <? r)%N || ((r =? half)%N && N.odd q) then (q + 1)%N else q in
    let v := (q' * 2 ^ e)%N in
    if (v <? 2 ^ 1024)%N then IntFinite v else IntInfinity.

Definition rounds_to (x v : N) : bool :=
  match ofInteger v with
  | IntFinite y => (y =? x)%N
  | _ => false
  end.

Definition decimal (n : N) : string := NilZero.string_of_uint (N.to_uint n).

Definition digitCount (n : N) : nat := Decimal.nb_digits (N.to_uint n).

Fixpoint zeros (j : nat) : string :=
  match j with O => EmptyString | S j' => String "0" (zeros j') end.

(** [Number::toString] picks integers [n], [k], [s] with [k >= 1],
    [10^(k-1) <= s < 10^k], such that [s * 10^(n-k)] rounds to [x], with
    [k] as small as possible and, among the candidates of that length,
    the one nearest to [x] (the even one on a tie).

    [shortest x n0 j] looks at the multiples of [10^j], for the current
    [j] and then for smaller ones; [n0] is the number of digits of [x],
    so that a multiple of [10^j] next to [x] has [k = n0 - j] digits.
    The two multiples next to [x] are the only candidates nearest to
    [x].  The result is [(s, k, n)]. *)
Fixpoint shortest (x : N) (n0 j : nat) : N * nat * nat :=
  let p := (10 ^ N.of_nat j)%N in
  let lo := (x / p)%N in
  let hi := (lo + 1)%N in
  let k := (n0 - j)%nat in
  let pack (s : N) : N * nat * nat :=
    if (s =? 10 ^ N.of_nat k)%N then (1%N, 1%nat, S n0) else (s, k, n0) in
  let okLo := rounds_to x (lo * p) in
  let okHi := rounds_to x (hi * p) in
  let dLo := (x - lo * p)%N in
  let dHi := (hi * p - x)%N in
  if okLo && okHi then
    if (dLo <? dHi)%N then pack lo
    else if (dHi <? dLo)%N then pack hi
    else if N.even lo then pack lo else pack hi
  else if okLo then pack lo
  else if okHi then pack hi
  else
    match j with
    | O => (x, n0, n0)
    | S j' => shortest x n0 j'
    end.

(** [Number::toString(x, 10)] for a positive integer [x] that is a
    double: plain digits up to [n = 21], exponent notation above. *)
Definition toString (x : N) : string :=
  if (x =? 0)%N then "0"
  else
    let n0 := digitCount x in
    let '(s, k, n) := shortest x n0 (n0 - 1) in
    if (n <=? 21)%nat then decimal s +:+ zeros (n - k)
    else
      let e := decimal (N.of_nat (n - 1)) in
      match decimal s with
      | String d ds =>
          if (k =? 1)%nat then String d ("e+" +:+ e)
          else String d ("." +:+ ds +:+ "e+" +:+ e)
      | EmptyString => EmptyString
      end.

End Double.

(** The longest prefix of decimal digits. *)
Fixpoint leadingDigits (s : string) : string :=
  match s with
  | String c s' => if Chars.isDigit c then String c (leadingDigits s') else EmptyString
  | EmptyString => EmptyString
  end.

(** The mathematical integer a string of decimal digits denotes. *)
Definition digitsValue (ds : string) : N :=
  match NilEmpty.uint_of_string ds with
  | Some d => N.of_uint d
  | None => 0%N
  end.

(** [parseInt(s, 10)] on a string that starts neither with white space nor
    with a sign (the mapper passes a capture of [\d+]): the value of the
    leading digits, rounded to a double; [NaN] when there is no digit.
    ECMAScript allows an engine to read the digits after the 20th as
    zeros; like V8, the model rounds the exact value.  The two agree on
    every run of at most 20 significant digits and on the 22-digit run
    used below. *)
Definition parseInt10 (s : string) : intnumber :=
  match leadingDigits s with
  | EmptyString => IntNaN
  | ds => Double.ofInteger (digitsValue ds)
  end.

(** [String(x)] for such a number. *)
Definition String_of (x : intnumber) : string :=
  match x with
  | IntNaN => "NaN"
  | IntInfinity => "Infinity"
  | IntFinite n => Double.toString n
  end.

(* ===================================================================== *)
(** * JavaScript values *)
(* ===================================================================== *)

Module JS.

(** A finite Number is given by its exact rational value (every double is
    a rational; the two zeros are not told apart, none of the operations
    below does). *)
Inductive number : Type :=
| NaN
| Infinity (negative : bool)
| Finite (q : Q).

(** The values a parsed JSON text is made of, with [undefined] for a
    missing property and the functions inherited from
    [Object.prototype].  An object lists its own enumerable properties in
    enumeration order. *)
Inductive value : Type :=
| Undefined
| Null
| Boolean (b : bool)
| Number (n : number)
| Str (s : string)
| Array (elements : list value)
| Object (properties : list (string * value))
| Func.

Definition ofZ (z : Z) : value := Number (Finite (inject_Z z)).

(** ToBoolean. *)
Definition truthy (v : value) : bool :=
  match v with
  | Undefined | Null => false
  | Boolean b => b
  | Number NaN => false
  | Number (Infinity _) => true
  | Number (Finite q) => negb (Qnum q =? 0)%Z
  | Str s => negb (String.eqb s EmptyString)
  | Array _ | Object _ | Func => true
  end.

Inductive type : Type :=
| TUndefined | TObject | TBoolean | TNumber | TString | TFunction.

Definition typeof (v : value) : type :=
  match v with
  | Undefined => TUndefined
  | Null => TObject
  | Boolean _ => TBoolean
  | Number _ => TNumber
  | Str _ => TString
  | Array _ | Object _ => TObject
  | Func => TFunction
  end.

Definition isObjectType (v : value) : bool :=
  match typeof v with TObject => true | _ => false end.

(** [Number.isInteger]: a Number that is finite and has no fractional
    part. *)
Definition isIntegerNumber (n : number) : bool :=
  match n with
  | Finite q => (Qnum q mod Z.pos (Qden q) =? 0)%Z
  | _ => false
  end.

Definition Number_isInteger (v : value) : bool :=
  match v with
  | Number n => isIntegerNumber n
  | _ => false
  end.

(** [n < z] and [n > z] for a Number [n] and an integer literal [z]. *)
Definition lessThan (n : number) (z : Z) : bool :=
  match n with
  | NaN => false
  | Infinity negative => negative
  | Finite q => (Qnum q <? z * Z.pos (Qden q))%Z
  end.

Definition greaterThan (n : number) (z : Z) : bool :=
  match n with
  | NaN => false
  | Infinity negative => negb negative
  | Finite q => (z * Z.pos (Qden q) <? Qnum q)%Z
  end.

(** [!Number.isInteger(v) || v < 1 || v > 7]: the comparisons are
    evaluated only when [v] passed [Number.isInteger], hence on a Number. *)
Definition notPort (v : value) : bool :=
  negb (Number_isInteger v)
  || match v with
     | Number n => lessThan n 1 || greaterThan n 7
     | _ => false
     end.

(** The property names every plain object inherits from
    [Object.prototype]. *)
Definition inherited : list string :=
  [ "constructor"; "hasOwnProperty"; "isPrototypeOf"; "propertyIsEnumerable";
    "toLocaleString"; "toString"; "valueOf"; "__proto__";
    "__defineGetter__"; "__defineSetter__"; "__lookupGetter__";
    "__lookupSetter__" ].

Definition isInherited (key : string) : bool :=
  existsb (String.eqb key) inherited.

(** A plain object used as a dictionary: its own properties.  Reading
    goes through the prototype: [o[key]], [key in o]. *)
Definition get (o : gmap string value) (key : string) : value :=
  match o !! key with
  | Some v => v
  | None =>
      if isInherited key
      then (if String.eqb key "__proto__" then Object [] else Func)
      else Undefined
  end.

Definition has (o : gmap string value) (key : string) : bool :=
  match o !! key with
  | Some _ => true
  | None => isInherited key
  end.

(** [o[key] = v] for a primitive [v] (the mapper stores Numbers):
    defines or overwrites an own property, except that an inherited
    [__proto__] is a setter, which ignores a primitive. *)
Definition set (o : gmap string value) (key : string) (v : value)
  : gmap string value :=
  match o !! key with
  | None => if String.eqb key "__proto__" then o else <[key := v]> o
  | Some _ => <[key := v]> o
  end.

(** [Object.keys(o)]. *)
Definition keys (o : gmap string value) : list string :=
  (map_to_list o).*1.

(** [a || b] on values. *)
Definition or (a b : value) : value := if truthy a then a else b.

(** The outcome of a call: a returned value or a thrown [Error]. *)
Inductive completion (E A : Type) : Type :=
| Return (a : A)
| Throw (e : E).
Arguments Return {E A} a.
Arguments Throw {E A} e.

(** A [Set] of strings, in insertion order: [add]; [Array.from] gives the
    list itself. *)
Definition Set_add (s : list string) (x : string) : list string :=
  if bool_decide (x ∈ s) then s else s ++ [x].

(** A [Map], in insertion order: [set] keeps the place of a key that the
    map already holds. *)
Fixpoint Map_set {K V : Type} `{EqDecision K} (m : list (K * V)) (k : K) (v : V)
  : list (K * V) :=
  match m with
  | [] => [(k, v)]
  | (k', v') :: m' =>
      if decide (k' = k) then (k, v) :: m' else (k', v') :: Map_set m' k v
  end.

Fixpoint Map_get {K V : Type} `{EqDecision K} (m : list (K * V)) (k : K) : option V :=
  match m with
  | [] => None
  | (k', v') :: m' => if decide (k' = k) then Some v' else Map_get m' k
  end.

Definition Map_has {K V : Type} `{EqDecision K} (m : list (K * V)) (k : K) : bool :=
  match Map_get m k with
  | Some _ => true
  | None => false
  end.

End JS.

(** [s.split(sep)[0]] for a separator of one character: what stands before
    its first occurrence, the whole of [s] where it has none. *)
Fixpoint splitHead (sep : ascii) (s : string) : string :=
  match s with
  | EmptyString => EmptyString
  | String c s' =>
      if Chars.eqb c sep then EmptyString else String c (splitHead sep s')
  end.

(* ===================================================================== *)
(** * [src/lib/mapper.js]: class [PortMapper] *)
(* ===================================================================== *)

Module PortMapper.
Import RegExp.

(** The [Error]s the class throws, by message. *)
Inductive error : Type :=
| CannotNormalize      (* 'Cannot normalize location - invalid location or parent data' *)
| PortOutOfRange.      (* 'Physical port must be integer 1-7' *)

(** The object: its only field. *)
Record t := { mappings : gmap string JS.value }.

(** [calibrationData]: what [store.load()] and [store.createEmpty()]
    hand to the constructor, reduced to the field the class reads;
    [None] is a missing or falsy [mappings]. *)
Record calibration := { calibrationMappings : option (gmap string JS.value) }.

(** [this.mappings = calibrationData?.mappings || {}] *)
Definition constructor (calibrationData : option calibration) : t :=
  match calibrationData with
  | Some {| calibrationMappings := Some m |} => {| mappings := m |}
  | _ => {| mappings := ∅ |}
  end.

(** [/\\(\d+&[A-F0-9]+)&/i] *)
Definition chipPattern : RegExp.t :=
  {| source :=
       Cat (Atom (lit "\"))
      (Cat (Group (Cat (Plus digit)
                  (Cat (Atom (lit "&"))
                       (Plus [("A", "F"); ("0", "9")]%char))))
           (Atom (lit "&")));
     ignoreCase := true |}.

(** [/Port_#(\d+)/i] *)
Definition portPattern : RegExp.t :=
  {| source :=
       Cat (Atom (lit "P")) (Cat (Atom (lit "o")) (Cat (Atom (lit "r"))
      (Cat (Atom (lit "t")) (Cat (Atom (lit "_")) (Cat (Atom (lit "#"))
           (Group (Plus digit)))))));
     ignoreCase := true |}.

(** A string argument is [None] when it is [null] or [undefined];
    [!s] also holds for the empty string. *)
Definition falsy (s : option string) : bool :=
  match s with
  | None => true
  | Some s => String.eqb s EmptyString
  end.

Definition extractChipPrefix (parent : option string) : option string :=
  match parent with
  | None => None
  | Some p =>
      if falsy parent then None
      else
        match String_match p chipPattern with
        | Some m => option_map toUpperCase (group1 m)
        | None => None
        end
  end.

Definition extractPortIndex (location : option string) : option string :=
  match location with
  | None => None
  | Some l =>
      if falsy location then None
      else
        match String_match l portPattern with
        | None => None
        | Some m =>
            match group1 m with
            | Some digits => Some (String_of (parseInt10 digits))
            | None => None
            end
        end
  end.

Definition normalizeLocation (location parent : option string) : option string :=
  let chipPrefix := extractChipPrefix parent in
  let portIndex := extractPortIndex location in
  if falsy chipPrefix || falsy portIndex then None
  else
    match chipPrefix, portIndex with
    | Some c, Some i => Some (c +:+ "|" +:+ i)
    | _, _ => None
    end.

(** [null] is [JS.Null]. *)
Definition getPhysicalPort (this : t) (location parent : option string) : JS.value :=
  let key := normalizeLocation location parent in
  if falsy key then JS.Null
  else
    match key with
    | Some key => JS.or (JS.get (mappings this) key) JS.Null
    | None => JS.Null
    end.

(** The call changes [this] only when it returns. *)
Definition addMapping (this : t) (location parent : option string)
           (physicalPort : JS.value) : JS.completion error string * t :=
  let key := normalizeLocation location parent in
  if falsy key then (JS.Throw CannotNormalize, this)
  else
    match key with
    | None => (JS.Throw CannotNormalize, this)
    | Some key =>
        if JS.notPort physicalPort then (JS.Throw PortOutOfRange, this)
        else (JS.Return key,
              {| mappings := JS.set (mappings this) key physicalPort |})
    end.

Definition hasMapping (this : t) (location parent : option string) : bool :=
  let key := normalizeLocation location parent in
  if falsy key then false
  else
    match key with
    | Some key => JS.has (mappings this) key
    | None => false
    end.

Definition getExistingPort (this : t) (location parent : option string) : JS.value :=
  let key := normalizeLocation location parent in
  if falsy key then JS.Null
  else
    match key with
    | Some key => JS.or (JS.get (mappings this) key) JS.Null
    | None => JS.Null
    end.

Definition isKnownChip (this : t) (location parent : option string) : bool :=
  let chipPrefix := extractChipPrefix parent in
  if falsy chipPrefix then false
  else
    match chipPrefix with
    | Some c => existsb (fun key => startsWith key (c +:+ "|")) (JS.keys (mappings this))
    | None => false
    end.

Definition getMappingCount (this : t) : nat :=
  length (JS.keys (mappings this)).

Definition isCalibrated (this : t) : bool :=
  (7 <=? length (JS.keys (mappings this)))%nat.

(** [{ ...this.mappings }]: a new object with the same own properties. *)
Definition getAllMappings (this : t) : gmap string JS.value := mappings this.

Definition getKnownChips (this : t) : list string :=
  foldl (fun chips key => JS.Set_add chips (splitHead "|" key)) []
        (JS.keys (mappings this)).

End PortMapper.

(* ===================================================================== *)
(** * [src/lib/store.js]: the schema validator *)
(* ===================================================================== *)

Module Store.
Import RegExp.

Definition SCHEMA_VERSION : string := "1.0".

(** The [Error]s [validate] throws, by message. *)
Inductive error : Type :=
| NotAnObject                                   (* 'Invalid calibration data: not an object' *)
| InvalidSchemaVersion (got : JS.value)         (* 'Invalid schema version: expected 1.0, got ...' *)
| MissingMappings                               (* 'Invalid calibration data: missing mappings object' *)
| InvalidKeyFormat (key : string)               (* 'Invalid mapping key format: ...' *)
| InvalidPortValue (key : string) (got : JS.value).  (* 'Invalid port value for ...' *)

(** [/^\d+&[A-F0-9]+\|\d+$/i] *)
Definition keyPattern : RegExp.t :=
  {| source :=
       Cat Start (Cat (Plus digit) (Cat (Atom (lit "&"))
      (Cat (Plus [("A", "F"); ("0", "9")]%char) (Cat (Atom (lit "|"))
      (Cat (Plus digit) End)))));
     ignoreCase := true |}.

(** [data.name] where [name] is neither an index nor [length]: the
    first own property of that name of an object, [undefined] on an
    array. *)
Fixpoint lookup (name : string) (properties : list (string * JS.value)) : JS.value :=
  match properties with
  | [] => JS.Undefined
  | (k, v) :: properties' => if String.eqb k name then v else lookup name properties'
  end.

Definition field (data : JS.value) (name : string) : JS.value :=
  match data with
  | JS.Object properties => lookup name properties
  | _ => JS.Undefined
  end.

(** [data.version !== SCHEMA_VERSION] *)
Definition differsFromVersion (v : JS.value) : bool :=
  match v with
  | JS.Str s => negb (String.eqb s SCHEMA_VERSION)
  | _ => true
  end.

Fixpoint indexed (i : N) (elements : list JS.value) : list (string * JS.value) :=
  match elements with
  | [] => []
  | v :: elements' => (Double.decimal i, v) :: indexed (i + 1) elements'
  end.

(** [Object.entries]. *)
Definition entries (v : JS.value) : list (string * JS.value) :=
  match v with
  | JS.Object properties => properties
  | JS.Array elements => indexed 0 elements
  | _ => []
  end.

(** The [for] loop: the first offending entry throws. *)
Fixpoint checkEntries (es : list (string * JS.value)) : JS.completion error bool :=
  match es with
  | [] => JS.Return true
  | (key, value) :: es' =>
      if negb (RegExp.test keyPattern key) then JS.Throw (InvalidKeyFormat key)
      else if JS.notPort value then JS.Throw (InvalidPortValue key value)
      else checkEntries es'
  end.

Definition validate (data : JS.value) : JS.completion error bool :=
  if negb (JS.truthy data) || negb (JS.isObjectType data) then JS.Throw NotAnObject
  else if differsFromVersion (field data "version")
  then JS.Throw (InvalidSchemaVersion (field data "version"))
  else if negb (JS.truthy (field data "mappings"))
          || negb (JS.isObjectType (field data "mappings"))
  then JS.Throw MissingMappings
  else checkEntries (entries (field data "mappings")).

(** ** The calibration file *)

(** The file [calibration.json] of the working directory: its content,
    when it exists. *)
Definition disk : Type := option string.

(** What the functions working on the file throw. *)
Inductive failure : Type :=
| Invalid (e : error)      (* an [Error] of [validate] *)
| Corrupted                (* 'Corrupted calibration file: invalid JSON - ...' *)
| CannotWrite              (* 'Cannot write calibration file to current directory' *)
| CannotDelete             (* 'Cannot delete calibration file' *)
| System (code : string)   (* an error of [fs], thrown again as it is *)
| TypeError.               (* a property read on [null] or [undefined] *)

(** [fs.existsSync(getPath())] *)
Definition exists_ (d : disk) : bool :=
  match d with
  | Some _ => true
  | None => false
  end.

(** [err.code === 'EACCES' || err.code === 'EPERM'] *)
Definition denied (code : string) : bool :=
  String.eqb code "EACCES" || String.eqb code "EPERM".

(** [createEmpty()]; the two dates are two readings of the clock. *)
Definition createEmpty (created updated : string) : JS.value :=
  JS.Object [ ("version", JS.Str SCHEMA_VERSION);
              ("createdAt", JS.Str created);
              ("updatedAt", JS.Str updated);
              ("hubInfo", JS.Object [("primaryChip", JS.Null); ("secondaryChip", JS.Null)]);
              ("mappings", JS.Object []) ].

(** The object [save] builds from [data] and the date [now]. *)
Definition toSave (now : string) (data : JS.value) : JS.value :=
  JS.Object [ ("version", JS.Str SCHEMA_VERSION);
              ("createdAt", JS.or (field data "createdAt") (JS.Str now));
              ("updatedAt", JS.Str now);
              ("hubInfo", JS.or (field data "hubInfo") (JS.Object []));
              ("mappings", JS.or (field data "mappings") (JS.Object [])) ].

Section File.

(** [JSON.parse], [None] being its [SyntaxError], and [JSON.stringify]
    with the indentation [save] asks for. *)
Variable JSON_parse : string -> option JS.value.
Variable JSON_stringify : JS.value -> string.

(** [load()].  [readError] is the code of the error [readFileSync] throws,
    if it throws.  [null] is [JS.Null]. *)
Definition load (readError : option string) (d : disk)
  : JS.completion failure JS.value :=
  match d with
  | None => JS.Return JS.Null
  | Some content =>
      match readError with
      | Some code => JS.Throw (System code)
      | None =>
          match JSON_parse content with
          | None => JS.Throw Corrupted
          | Some data =>
              match validate data with
              | JS.Throw e => JS.Throw (Invalid e)
              | JS.Return _ => JS.Return data
              end
          end
      end
  end.

(** [save(data)] at the date [now].  [writeError] is the code of the error
    [writeFileSync] throws, if it throws; a write that throws is taken to
    leave the file as it was. *)
Definition save (now : string) (data : JS.value) (writeError : option string)
           (d : disk) : JS.completion failure unit * disk :=
  match data with
  | JS.Undefined | JS.Null => (JS.Throw TypeError, d)
  | _ =>
      match validate (toSave now data) with
      | JS.Throw e => (JS.Throw (Invalid e), d)
      | JS.Return _ =>
          match writeError with
          | Some code =>
              (JS.Throw (if denied code then CannotWrite else System code), d)
          | None => (JS.Return tt, Some (JSON_stringify (toSave now data)))
          end
      end
  end.

(** [clear()].  [unlinkError] is the code of the error [unlinkSync]
    throws, if it throws. *)
Definition clear (unlinkError : option string) (d : disk)
  : JS.completion failure unit * disk :=
  if exists_ d then
    match unlinkError with
    | Some code =>
        (JS.Throw (if denied code then CannotDelete else System code), d)
    | None => (JS.Return tt, None)
    end
  else (JS.Return tt, d).

End File.

End Store.

(* ===================================================================== *)
(** * Vocabulary of the statements *)
(* ===================================================================== *)

Section Vocabulary.
Import Chars.

(** A physical port number: the Number value of an integer from 1 to 7. *)
Definition isPortNumber (v : JS.value) : Prop :=
  exists z : Z, (1 <= z <= 7)%Z /\
    exists q : Q, v = JS.Number (JS.Finite q) /\ Qeq q (inject_Z z).

Definition isHexDigit (c : ascii) : bool :=
  isDigit c || between "A" "F" c || between "a" "f" c.

Definition isUpperHex (c : ascii) : bool := isDigit c || between "A" "F" c.

(** The characters of a chip prefix. *)
Definition chipChar (c : ascii) : bool := isUpperHex c || Chars.eqb c "&".

Definition allDigits (s : string) : bool :=
  forallb isDigit (list_ascii_of_string s).

Definition startsWithDigit (s : string) : bool :=
  match s with
  | String c _ => isDigit c
  | EmptyString => false
  end.

Definition toLowerCase (s : string) : string :=
  string_of_list_ascii (map toLower (list_ascii_of_string s)).

Definition hasBar (s : string) : bool :=
  existsb (Chars.eqb "|") (list_ascii_of_string s).

(** The chip-prefix portion of a mapping key: what stands before its first
    ['|']; a key without ['|'] has none. *)
Fixpoint chipPortion (key : string) : option string :=
  match key with
  | EmptyString => None
  | String c key' =>
      if Chars.eqb c "|" then Some EmptyString
      else option_map (String c) (chipPortion key')
  end.

(** The identity-key format: digits, ['&'], hexadecimal digits of either
    case, ['|'], digits, and nothing else. *)
Definition isIdentityKey (key : string) : Prop :=
  exists chipDigits hex portDigits : list ascii,
    key = string_of_list_ascii (chipDigits ++ "&"%char :: hex ++ "|"%char :: portDigits) /\
    chipDigits <> [] /\ forallb isDigit chipDigits = true /\
    hex <> [] /\ forallb isHexDigit hex = true /\
    portDigits <> [] /\ forallb isDigit portDigits = true.

(** The documents [validate] accepts. *)
Definition validDocument (data : JS.value) : Prop :=
  exists properties,
    data = JS.Object properties /\
    Store.field data "version" = JS.Str "1.0" /\
    ((exists es, Store.field data "mappings" = JS.Object es /\
        Forall (fun kv => isIdentityKey kv.1 /\ isPortNumber kv.2) es)
     \/ Store.field data "mappings" = JS.Array []).

(** A run of digits without its leading zeros; a run of zeros keeps one. *)
Fixpoint stripLeadingZeros (digits : string) : string :=
  match digits with
  | String c rest =>
      if Chars.eqb c "0"
      then match rest with
           | EmptyString => digits
           | String _ _ => stripLeadingZeros rest
           end
      else digits
  | EmptyString => EmptyString
  end.

(** [location] holds, after [before], the letters of [Port_#] in some
    letter case followed by the digit [d]. *)
Definition portSegmentAt (location before segment : string) (d : ascii)
  (after : string) : Prop :=
  location = before +:+ segment +:+ String d after /\
  toLowerCase segment = "port_#" /\ isDigit d = true.

Definition portWord : list ascii := list_ascii_of_string "port_#".

End Vocabulary.

(** ** Relating a run of the matcher on a text and on its upper case *)

Section CaseRelation.
Import RegExp.

Definition upcase (s : list ascii) : list ascii := map Chars.toUpper s.

Definition related (a b : state) : Prop :=
  endIndex b = endIndex a /\ rest b = upcase (rest a) /\
  capture b = option_map upcase (capture a).

Definition orelated (x y : option state) : Prop :=
  match x, y with
  | Some a, Some b => related a b
  | None, None => True
  | _, _ => False
  end.

Definition krelated (k k' : cont) : Prop :=
  forall a b, related a b -> orelated (k a) (k' b).

Definition rrelated (x y : option result) : Prop :=
  match x, y with
  | Some a, Some b =>
      index b = index a /\
      group1 b = option_map toUpperCase (group1 a)
  | None, None => True
  | _, _ => False
  end.

End CaseRelation.

(* ===================================================================== *)
(** * The scanner module ([./lib/scanner] of [src/index.js]): running a script *)
(* ===================================================================== *)

Module Scanner.

(** What [runScript] throws. *)
Inductive error : Type :=
| PowerShellNotFound                          (* 'PowerShell not found. ...' *)
| TimedOut                                    (* 'PowerShell command timed out' *)
| Rethrown (code : JS.value) (killed : bool). (* [err] as it came *)

(** What an execution of the command settles with: its output, or an
    error with its [code] and its [killed] flag. *)
Inductive execution : Type :=
| Stdout (stdout : string)
| Rejected (code : JS.value) (killed : bool).

(** [err.code === 'ENOENT'] *)
Definition isENOENT (code : JS.value) : bool :=
  match code with
  | JS.Str s => String.eqb s "ENOENT"
  | _ => false
  end.

Section Run.

(** [String.prototype.trim] and [JSON.parse], [None] being the
    [SyntaxError] of the latter. *)
Variable trim : string -> string.
Variable JSON_parse : string -> option JS.value.

Definition parseOutput (stdout : string) : list JS.value :=
  let trimmed := trim stdout in
  if String.eqb trimmed EmptyString || String.eqb trimmed "[]" then []
  else
    match JSON_parse trimmed with
    | Some (JS.Array elements) => elements
    | Some result => [result]
    | None => []
    end.

(** [runScript(scriptName, retryOnce)].  [exec n] is what the execution
    number [n] of the command settles with and [n] the number of
    executions made before the call; the result comes with the number of
    executions made by then.  [fuel] bounds the depth of the calls. *)
Fixpoint runScript (fuel : nat) (exec : nat -> execution) (n : nat) (retryOnce : bool)
  : option (JS.completion error (list JS.value) * nat) :=
  match fuel with
  | 0 => None
  | S fuel =>
      match exec n with
      | Stdout stdout => Some (JS.Return (parseOutput stdout), S n)
      | Rejected code killed =>
          if isENOENT code then Some (JS.Throw PowerShellNotFound, S n)
          else if killed && retryOnce then runScript fuel exec (S n) false
          else if killed then Some (JS.Throw TimedOut, S n)
          else Some (JS.Throw (Rethrown code killed), S n)
      end
  end.

(** [getDrives()] and [getHubs()]: [retryOnce] takes its default. *)
Definition getDrives (fuel : nat) (exec : nat -> execution) (n : nat) :=
  runScript fuel exec n true.

Definition getHubs (fuel : nat) (exec : nat -> execution) (n : nat) :=
  runScript fuel exec n true.

End Run.

End Scanner.

(* ===================================================================== *)
(** * [src/index.js]: the commands *)
(* ===================================================================== *)

Module Cli.
Import PortMapper.

(** A drive as [get-drives.ps1] reports it, and a hub as [get-hubs.ps1]
    does: every field is a string or [null]. *)
Record drive := { name : option string; serial : option string;
                  location : option string; parent : option string }.

Record hub := { hubName : option string; instanceId : option string;
                hubLocation : option string; hubParent : option string }.

Definition isNull (v : JS.value) : bool :=
  match v with
  | JS.Null => true
  | _ => false
  end.

(** [new PortMapper(calibration)] for what [store.load()] returned:
    [null], or a document that passed [validate], whose [mappings] is then
    an object, or an empty array, which has no key either. *)
Definition mapperOf (calibration : JS.value) : t :=
  constructor
    match calibration with
    | JS.Object _ =>
        Some {| calibrationMappings :=
                  match Store.field calibration "mappings" with
                  | JS.Object es => Some (list_to_map es)
                  | _ => None
                  end |}
    | _ => None
    end.

(** ** [cmdStatus]: the loop over the drives *)

(** [placed] lists, in the order of the scan, the drives the loop writes
    into the table of ports, each with the port [getPhysicalPort] gave. *)
Record report := { placed : list (JS.value * drive);
                   unmappedDrives : list drive;
                   hasCalibrationMismatch : bool }.

Definition statusStep (mapper : option t) (r : report) (d : drive) : report :=
  match mapper with
  | None =>
      {| placed := placed r; unmappedDrives := unmappedDrives r ++ [d];
         hasCalibrationMismatch := hasCalibrationMismatch r |}
  | Some mapper =>
      let port := getPhysicalPort mapper (location d) (parent d) in
      if JS.truthy port then
        {| placed := placed r ++ [(port, d)]; unmappedDrives := unmappedDrives r;
           hasCalibrationMismatch := hasCalibrationMismatch r |}
      else if (0 <? getMappingCount mapper)%nat
              && negb (isKnownChip mapper (location d) (parent d)) then
        {| placed := placed r; unmappedDrives := unmappedDrives r ++ [d];
           hasCalibrationMismatch := true |}
      else
        {| placed := placed r; unmappedDrives := unmappedDrives r ++ [d];
           hasCalibrationMismatch := hasCalibrationMismatch r |}
  end.

Definition statusLoop (mapper : option t) (drives : list drive) : report :=
  foldl (statusStep mapper)
        {| placed := []; unmappedDrives := []; hasCalibrationMismatch := false |}
        drives.

(** ** [cmdCalibrate]: the wizard *)

(** The mapping objects of the wizard.  [heap] holds the objects made so
    far; [mapperMappings] is the one [mapper.mappings] refers to and
    [calibrationMappings] the one [calibration.mappings] refers to. *)
Record wizard := { heap : list (gmap string JS.value);
                   mapperMappings : nat;
                   calibrationMappings : nat }.

Definition object (w : wizard) (l : nat) : gmap string JS.value :=
  default ∅ (heap w !! l).

(** [store.createEmpty()] followed by [new PortMapper(calibration)]: the
    empty object of the document is truthy, so the mapper takes that very
    object. *)
Definition newCalibration : wizard :=
  {| heap := [∅]; mapperMappings := 0; calibrationMappings := 0 |}.

(** The scanning dialogue of one port: the [while] loop.  [scan i] is
    what the scan number [i] of the port finds, [None] when it throws;
    [skip i] tells whether the answer given after it, in lower case, is
    'skip'.  [remaining] is [maxAttempts - attempts] and [drives] the
    variable of that name. *)
Inductive scanned : Type :=
| Exited                                 (* [process.exit(1)] *)
| Settled (drives : list drive) (scans : nat).

Fixpoint scanPort (scan : nat -> option (list drive)) (skip : nat -> bool)
         (attempts remaining : nat) (drives : list drive) : scanned :=
  match remaining with
  | 0 => Settled drives attempts
  | S remaining =>
      match scan attempts with
      | None => Exited
      | Some [] =>
          if skip attempts then Settled [] (S attempts)
          else scanPort scan skip (S attempts) remaining []
      | Some [d] => Settled [d] (S attempts)
      | Some drives => scanPort scan skip (S attempts) remaining drives
      end
  end.

(** What the port goes on with: [drives[0]] when [drives.length === 1]. *)
Definition isolatedDrive (s : scanned) : option drive :=
  match s with
  | Settled [d] _ => Some d
  | _ => None
  end.

Inductive outcome : Type :=
| Skipped
| Mapped (key : string)
| Failed (e : PortMapper.error).

(** One port, once a single drive is isolated.  [overwrite] is the answer
    to 'Remap to port ...?', asked only when the location is already
    mapped; no character but ['N'] and ['n'] has ['n'] as its lower
    case. *)
Definition mapDrive (w : wizard) (port : Z) (d : drive) (overwrite : string)
  : wizard * outcome :=
  let mapper := {| mappings := object w (mapperMappings w) |} in
  let existingPort := getExistingPort mapper (location d) (parent d) in
  if negb (isNull existingPort) && String.eqb (toLowerCase overwrite) "n"
  then (w, Skipped)
  else
    match addMapping mapper (location d) (parent d) (JS.ofZ port) with
    | (JS.Return key, mapper') =>
        let heap' := <[mapperMappings w := mappings mapper']> (heap w) in
        ({| heap := heap' ++ [getAllMappings mapper'];
            mapperMappings := mapperMappings w;
            calibrationMappings := length heap' |}, Mapped key)
    | (JS.Throw e, _) => (w, Failed e)
    end.

(** The [for] loop.  [isolated port] is the drive the scanning dialogue of
    the port ended with, if it ended with exactly one. *)
Definition calibratePort (isolated : Z -> option drive) (overwrite : Z -> string)
           (w : wizard) (port : Z) : wizard :=
  match isolated port with
  | None => w
  | Some d => (mapDrive w port d (overwrite port)).1
  end.

Definition calibratePorts (isolated : Z -> option drive) (overwrite : Z -> string)
           (ports : list Z) (w : wizard) : wizard :=
  foldl (calibratePort isolated overwrite) w ports.

Definition calibrate (isolated : Z -> option drive) (overwrite : Z -> string) : wizard :=
  calibratePorts isolated overwrite [1; 2; 3; 4; 5; 6; 7]%Z newCalibration.


(** ** [cmdMonitor]: the table of the drives in sight *)

(** [key || drive.serial] *)
Definition trackingKey (mapper : option t) (d : drive) : option string :=
  let key := match mapper with
             | Some _ => normalizeLocation (location d) (parent d)
             | None => serial d
             end in
  if falsy key then serial d else key.

Definition snapshot (mapper : option t) (drives : list drive)
  : list (option string * drive) :=
  foldl (fun m d => JS.Map_set m (trackingKey mapper d) d) [] drives.

Inductive event : Type :=
| Inserted (port : JS.value) (d : drive)
| Removed (port : JS.value) (d : drive).

Definition portOf (mapper : option t) (d : drive) : JS.value :=
  match mapper with
  | Some mapper => getPhysicalPort mapper (location d) (parent d)
  | None => JS.Null
  end.

Definition absentFrom (m : list (option string * drive))
           (entry : option string * drive) : bool :=
  negb (JS.Map_has m entry.1).

(** One poll: the lines printed and the next [previousDrives].  A scan
    that throws ([None]) prints nothing and keeps the table. *)
Definition poll (mapper : option t) (previousDrives : list (option string * drive))
           (scan : option (list drive))
  : list event * list (option string * drive) :=
  match scan with
  | None => ([], previousDrives)
  | Some currentDrives =>
      let currentMap := snapshot mapper currentDrives in
      (map (fun e => Inserted (portOf mapper e.2) e.2)
           (List.filter (absentFrom previousDrives) currentMap)
       ++ map (fun e => Removed (portOf mapper e.2) e.2)
              (List.filter (absentFrom currentMap) previousDrives),
       currentMap)
  end.

(** ** [cmdHubs]: the hubs by chip *)

Definition groupStep (chips : list (string * list hub)) (h : hub)
  : list (string * list hub) :=
  let prefix := extractChipPrefix (instanceId h) in
  if falsy prefix then chips
  else
    match prefix with
    | None => chips
    | Some prefix =>
        let chips := if JS.Map_has chips prefix then chips
                     else JS.Map_set chips prefix [] in
        JS.Map_set chips prefix (default [] (JS.Map_get chips prefix) ++ [h])
    end.

Definition groupByChip (hubs : list hub) : list (string * list hub) :=
  foldl groupStep [] hubs.

End Cli.

(** ** Vocabulary of the statements about segments and stored mappings *)

Section Segments.
Import Chars.

Definition allHexDigits (s : string) : bool :=
  forallb isHexDigit (list_ascii_of_string s).

(** [parent] holds, after [before], a backslash, the digits [digits], an
    ['&'], the hexadecimal digits [hex] and an ['&']. *)
Definition chipSegmentAt (parent before digits hex after : string) : Prop :=
  parent = before +:+ "\" +:+ digits +:+ "&" +:+ hex +:+ "&" +:+ after /\
  digits <> EmptyString /\ allDigits digits = true /\
  hex <> EmptyString /\ allHexDigits hex = true.

End Segments.

Section StoredMappings.

(** What [data.mappings] may be for [save] to accept [data]. *)
Definition savable (mappings : JS.value) : Prop :=
  JS.truthy mappings = false \/
  (exists es, mappings = JS.Object es /\
     Forall (fun kv => isIdentityKey kv.1 /\ isPortNumber kv.2) es) \/
  mappings = JS.Array [].

(** The key under which the mapper files a drive. *)
Definition keyOf (d : Cli.drive) : option string :=
  PortMapper.normalizeLocation (Cli.location d) (Cli.parent d).

(** The two references of the wizard are in the heap and the objects they
    refer to hold the same. *)
Definition consistent (w : Cli.wizard) : Prop :=
  Cli.mapperMappings w < length (Cli.heap w) /\
  Cli.calibrationMappings w < length (Cli.heap w) /\
  Cli.object w (Cli.calibrationMappings w) = Cli.object w (Cli.mapperMappings w).

(** A drive that makes [cmdStatus] flag a calibration mismatch. *)
Definition mismatch (mapper : option PortMapper.t) (d : Cli.drive) : bool :=
  match mapper with
  | Some m =>
      negb (JS.truthy (Cli.portOf mapper d))
      && (0 <? PortMapper.getMappingCount m)%nat
      && negb (PortMapper.isKnownChip m (Cli.location d) (Cli.parent d))
  | None => false
  end.

(** An execution of the command that was killed, by the timeout. *)
Definition timedOut (e : Scanner.execution) : bool :=
  match e with
  | Scanner.Rejected code killed => negb (Scanner.isENOENT code) && killed
  | Scanner.Stdout _ => false
  end.

(** A scan of the dialogue after which the dialogue scans again. *)
Definition retried (scan : nat -> option (list Cli.drive)) (skip : nat -> bool)
           (i : nat) : Prop :=
  exists drives,
    scan i = Some drives /\ length drives <> 1 /\ (drives = [] -> skip i = false).

End StoredMappings.

(** A numeral followed by one more zero. *)
Fixpoint snoc0 (d : Decimal.uint) : Decimal.uint :=
  match d with
  | Decimal.Nil => Decimal.D0 Decimal.Nil
  | Decimal.D0 d => Decimal.D0 (snoc0 d)
  | Decimal.D1 d => Decimal.D1 (snoc0 d)
  | Decimal.D2 d => Decimal.D2 (snoc0 d)
  | Decimal.D3 d => Decimal.D3 (snoc0 d)
  | Decimal.D4 d => Decimal.D4 (snoc0 d)
  | Decimal.D5 d => Decimal.D5 (snoc0 d)
  | Decimal.D6 d => Decimal.D6 (snoc0 d)
  | Decimal.D7 d => Decimal.D7 (snoc0 d)
  | Decimal.D8 d => Decimal.D8 (snoc0 d)
  | Decimal.D9 d => Decimal.D9 (snoc0 d)
  end.

(* ===================================================================== *)
(** * Facts about characters and strings *)
(* ===================================================================== *)

(** A statement about one character is settled by running through the
    256 of them. *)
Ltac by_cases c :=
  destruct c as [[] [] [] [] [] [] [] []];
  vm_compute; try reflexivity; try discriminate; auto.

Section CharFacts.
Import Chars.

Lemma toUpper_idem c : toUpper (toUpper c) = toUpper c.
Proof. by_cases c. Qed.

Lemma toLower_toUpper c : toLower (toUpper c) = toLower c.
Proof. by_cases c. Qed.


Lemma toUpper_cases c : toUpper c = c \/ toLower c = c.
Proof. by_cases c. Qed.

Lemma Chars_eqb_eq a b : eqb a b = true <-> a = b.
Proof.
  unfold eqb, code. rewrite N.eqb_eq. split; [|congruence].
  intros H. rewrite <- (ascii_N_embedding a), <- (ascii_N_embedding b). congruence.
Qed.

Lemma Chars_eqb_refl a : eqb a a = true.
Proof. apply Chars_eqb_eq. reflexivity. Qed.

End CharFacts.

Lemma string_app_cons c (a b : string) : String c a +:+ b = String c (a +:+ b).
Proof. reflexivity. Qed.

Lemma string_app_nil_l (b : string) : EmptyString +:+ b = b.
Proof. reflexivity. Qed.

Lemma list_ascii_app (a b : string) :
  list_ascii_of_string (a +:+ b) = list_ascii_of_string a ++ list_ascii_of_string b.
Proof.
  induction a as [|c a IH]; [reflexivity|].
  simpl. rewrite ?string_app_cons. simpl. f_equal. exact IH.
Qed.

Lemma string_of_list_app (a b : list ascii) :
  string_of_list_ascii (a ++ b) = string_of_list_ascii a +:+ string_of_list_ascii b.
Proof.
  induction a as [|c a IH]; [reflexivity|].
  simpl. rewrite ?string_app_cons. simpl. f_equal. exact IH.
Qed.

Lemma string_app_assoc (a b c : string) : (a +:+ b) +:+ c = a +:+ (b +:+ c).
Proof.
  induction a as [|x a IH]; [reflexivity|].
  rewrite ?string_app_cons. f_equal. exact IH.
Qed.

Lemma string_app_nil_r (a : string) : a +:+ EmptyString = a.
Proof.
  induction a as [|x a IH]; [reflexivity|].
  rewrite ?string_app_cons. f_equal. exact IH.
Qed.


(* ===================================================================== *)
(** * Facts about the matcher *)
(* ===================================================================== *)

Section MatcherFacts.
Import RegExp.

(** What a successful [+] consumed: a non-empty run of characters of the
    set, after which the continuation succeeded. *)
Lemma plus_inv ic cs i s cap k r :
  plus ic cs i s cap k = Some r ->
  exists pre post,
    s = pre ++ post /\ pre <> [] /\ forallb (matches ic cs) pre = true /\
    k {| endIndex := i + length pre; rest := post; capture := cap |} = Some r.
Proof.
  revert i. induction s as [|c s IH]; intros i H; simpl in H; [discriminate|].
  destruct (matches ic cs c) eqn:Hc; [|discriminate].
  destruct (plus ic cs (S i) s cap k) as [r'|] eqn:Hp.
  - inversion H; subst r'. destruct (IH _ Hp) as (pre & post & -> & _ & Hall & Hk).
    exists (c :: pre), post. simpl. rewrite Hc, Hall.
    repeat split; [discriminate|]. by rewrite <- Nat.add_succ_comm.
  - exists [c], s. simpl. rewrite Hc. repeat split; [discriminate|].
    by rewrite Nat.add_1_r.
Qed.

(** A greedy [+] takes the whole run when the continuation accepts
    there. *)
Lemma plus_greedy ic cs i pre post cap k r :
  pre <> [] -> forallb (matches ic cs) pre = true ->
  k {| endIndex := i + length pre; rest := post; capture := cap |} = Some r ->
  match post with [] => True | c :: _ => matches ic cs c = false end ->
  plus ic cs i (pre ++ post) cap k = Some r.
Proof.
  intros Hne Hall Hk Hpost. revert i Hk.
  induction pre as [|c pre IH]; intros i Hk; [done|].
  simpl in *. apply andb_true_iff in Hall as [Hc Hall]. rewrite Hc.
  destruct pre as [|c' pre].
  - simpl in *. replace (i + 1) with (S i) in Hk by lia.
    destruct post as [|d post]; simpl; [by rewrite Hk|].
    by rewrite Hpost, Hk.
  - rewrite (IH ltac:(discriminate) Hall (S i)); [done|].
    by rewrite <- Hk, Nat.add_succ_comm.
Qed.

End MatcherFacts.

Lemma forallb_eq {A} (f g : A -> bool) (l : list A) :
  (forall x, f x = g x) -> forallb f l = forallb g l.
Proof. intros H. induction l as [|x l IH]; simpl; [reflexivity | by rewrite H, IH]. Qed.

Lemma firstn_exact {A} (a b : list A) n : n = length a -> firstn n (a ++ b) = a.
Proof.
  intros ->. rewrite firstn_app, firstn_all, Nat.sub_diag. simpl. apply app_nil_r.
Qed.

Section PatternFacts.
Import RegExp Chars.

Lemma matches_digit c : matches true digit c = isDigit c.
Proof. by_cases c. Qed.

Lemma matches_hex c : matches true [("A", "F"); ("0", "9")]%char c = isHexDigit c.
Proof. by_cases c. Qed.

Lemma matches_backslash c : matches true (lit "\") c = true -> c = "\"%char.
Proof. by_cases c. Qed.

Lemma matches_amp c : matches true (lit "&") c = true -> c = "&"%char.
Proof. by_cases c. Qed.

Lemma matches_bar c : matches true (lit "|") c = true -> c = "|"%char.
Proof. by_cases c. Qed.


Lemma matchAt_chip_inv i s res :
  matchAt PortMapper.chipPattern i s = Some res ->
  exists ds hx post,
    s = "\"%char :: ds ++ "&"%char :: hx ++ "&"%char :: post /\
    ds <> [] /\ forallb isDigit ds = true /\
    hx <> [] /\ forallb isHexDigit hx = true /\
    group1 res = Some (string_of_list_ascii (ds ++ "&"%char :: hx)).
Proof.
  unfold matchAt. cbn [PortMapper.chipPattern source ignoreCase run rest endIndex capture].
  destruct s as [|c s]; [discriminate|].
  destruct (matches true (lit "\") c) eqn:Hc; [|discriminate].
  apply matches_backslash in Hc as ->.
  destruct (plus _ _ _ _ _ _) as [st|] eqn:Hp; [|discriminate].
  intros [= <-]. cbn [group1].
  apply plus_inv in Hp as (ds & post1 & -> & Hds & Hdsd & Hk).
  cbn [run rest endIndex capture] in Hk.
  destruct post1 as [|a post1]; [discriminate|].
  destruct (matches true (lit "&") a) eqn:Ha; [|discriminate].
  apply matches_amp in Ha as ->.
  apply plus_inv in Hk as (hx & post2 & -> & Hhx & Hhxd & Hk).
  cbn [run rest endIndex capture] in Hk.
  destruct post2 as [|b post2]; [discriminate|].
  destruct (matches true (lit "&") b) eqn:Hb; [|discriminate].
  apply matches_amp in Hb as ->.
  injection Hk as <-. cbn [capture option_map].
  exists ds, hx, post2. repeat split; auto.
  - by rewrite <- (forallb_eq _ _ ds matches_digit).
  - by rewrite <- (forallb_eq _ _ hx matches_hex).
  - do 2 f_equal.
    change (ds ++ "&"%char :: hx ++ "&"%char :: post2)
      with (ds ++ ("&"%char :: hx) ++ "&"%char :: post2).
    rewrite app_assoc. apply firstn_exact.
    rewrite length_app. simpl. lia.
Qed.
End PatternFacts.

Section SearchFacts.
Import RegExp.

Lemma search_inv re i s res :
  search re i s = Some res ->
  exists pre post, s = pre ++ post /\ matchAt re (i + length pre) post = Some res.
Proof.
  revert i. induction s as [|c s IH]; intros i H; simpl in H.
  - destruct (matchAt re i []) eqn:Hm; [|discriminate].
    exists [], []. simpl. by rewrite Nat.add_0_r, Hm.
  - destruct (matchAt re i (c :: s)) eqn:Hm.
    + exists [], (c :: s). simpl. by rewrite Nat.add_0_r, Hm.
    + destruct (IH _ H) as (pre & post & -> & Hp).
      exists (c :: pre), post. simpl. by rewrite <- Nat.add_succ_comm.
Qed.

Lemma search_here re i s res :
  matchAt re i s = Some res -> search re i s = Some res.
Proof. intros H. destruct s; simpl; by rewrite H. Qed.

(** The search returns the match at the first position that has one. *)
Lemma search_first re i pre post res :
  (forall pre1 pre2, pre = pre1 ++ pre2 -> pre2 <> [] ->
     matchAt re (i + length pre1) (pre2 ++ post) = None) ->
  matchAt re (i + length pre) post = Some res ->
  search re i (pre ++ post) = Some res.
Proof.
  revert i. induction pre as [|c pre IH]; intros i Hnone Hm.
  - simpl in *. rewrite Nat.add_0_r in Hm. destruct post; simpl; by rewrite Hm.
  - pose proof (Hnone [] (c :: pre) eq_refl ltac:(discriminate)) as H0.
    simpl in H0. rewrite Nat.add_0_r in H0. simpl. rewrite H0.
    apply IH.
    + intros pre1 pre2 -> Hne.
      specialize (Hnone (c :: pre1) pre2 eq_refl Hne). simpl in Hnone.
      by rewrite <- Nat.add_succ_comm in Hnone.
    + simpl in Hm. by rewrite <- Nat.add_succ_comm in Hm.
Qed.

Lemma search_none re i s :
  (forall pre post, s = pre ++ post -> matchAt re (i + length pre) post = None) ->
  search re i s = None.
Proof.
  intros H. destruct (search re i s) as [res|] eqn:Hs; [|reflexivity].
  apply search_inv in Hs as (pre & post & -> & Hm).
  by rewrite H in Hm.
Qed.

End SearchFacts.

(** ** Letter case does not matter to a pattern with the [i] flag *)
Section CaseFacts.
Import RegExp Chars.

Lemma inRange_toUpper c r : inRange true (toUpper c) r = inRange true c r.
Proof.
  unfold inRange. rewrite toUpper_idem, toLower_toUpper. simpl.
  destruct (toUpper_cases c) as [-> | Hl].
  - by destruct (between _ _ c).
  - rewrite Hl. by destruct (between _ _ c), (between _ _ (toUpper c)).
Qed.

Lemma matches_toUpper cs c : matches true cs (toUpper c) = matches true cs c.
Proof.
  unfold matches. induction cs as [|r cs IH]; simpl; [reflexivity|].
  by rewrite inRange_toUpper, IH.
Qed.

Lemma plus_upcase cs i s cap k k' :
  krelated k k' ->
  orelated (plus true cs i s cap k) (plus true cs i (upcase s) (option_map upcase cap) k').
Proof.
  intros Hk. revert i. induction s as [|c s IH]; intros i; simpl; [done|].
  rewrite matches_toUpper. destruct (matches true cs c); [|done].
  specialize (IH (S i)).
  destruct (plus true cs (S i) s cap k), (plus true cs (S i) (upcase s) _ k'); try done.
  by apply Hk.
Qed.

Lemma run_upcase p : forall a b k k',
  related a b -> krelated k k' -> orelated (run true p a k) (run true p b k').
Proof.
  induction p as [|cs|cs|p IHp q IHq|p IHp| |]; intros a b k k' Hab Hk; simpl.
  - by apply Hk.
  - destruct Hab as (Hi & Hr & Hc). rewrite Hr.
    destruct (rest a) as [|c s]; simpl; [done|].
    rewrite matches_toUpper. destruct (matches true cs c); [|done].
    apply Hk. unfold related; simpl. by rewrite Hi, Hc.
  - destruct Hab as (-> & -> & ->). by apply plus_upcase.
  - apply IHp; [done|]. intros a' b' Hab'. by apply IHq.
  - apply IHp; [done|]. intros a' b' (Hi' & Hr' & Hc'). apply Hk.
    destruct Hab as (Hi & Hr & Hc). unfold related; simpl. rewrite Hi', Hr', Hi, Hr.
    repeat split. unfold upcase. by rewrite firstn_map.
  - pose proof Hab as (Hi & _). rewrite Hi.
    destruct (Nat.eqb (endIndex a) 0); [by apply Hk | done].
  - pose proof Hab as (_ & Hr & _).
    destruct (rest a) as [|c s] eqn:Ha, (rest b) as [|c' s'] eqn:Hb; try discriminate;
      [by apply Hk | done].
Qed.

Lemma toUpperCase_of_list l :
  toUpperCase (string_of_list_ascii l) = string_of_list_ascii (upcase l).
Proof. unfold toUpperCase. by rewrite list_ascii_of_string_of_list_ascii. Qed.

Lemma matchAt_upcase re i s :
  ignoreCase re = true ->
  rrelated (matchAt re i s) (matchAt re i (upcase s)).
Proof.
  intros Hic. unfold matchAt. rewrite Hic.
  pose proof (run_upcase (source re)
    {| endIndex := i; rest := s; capture := None |}
    {| endIndex := i; rest := upcase s; capture := None |} Some Some) as H.
  destruct (run true _ _ Some) as [a|], (run true _ _ Some) as [b|];
    try (by apply H; [done | intros ? ? ?; done]).
  destruct H as (Hi & Hr & Hc); [done | by intros ? ? ? |].
  simpl. split; [done|]. rewrite Hc. destruct (capture a); simpl; [|done].
  by rewrite toUpperCase_of_list.
Qed.

Lemma search_upcase re i s :
  ignoreCase re = true ->
  rrelated (search re i s) (search re i (upcase s)).
Proof.
  intros Hic. revert i. induction s as [|c s IH]; intros i; simpl.
  - pose proof (matchAt_upcase re i [] Hic) as H. simpl in H.
    by destruct (matchAt re i []).
  - pose proof (matchAt_upcase re i (c :: s) Hic) as H. simpl in H.
    destruct (matchAt re i (c :: s)), (matchAt re i (toUpper c :: upcase s));
      first [exact H | apply IH | contradiction].
Qed.

Lemma toUpperCase_idem s : toUpperCase (toUpperCase s) = toUpperCase s.
Proof.
  unfold toUpperCase. rewrite list_ascii_of_string_of_list_ascii, map_map.
  f_equal. apply map_ext. intros; apply toUpper_idem.
Qed.

Lemma toUpperCase_empty s : toUpperCase s = EmptyString <-> s = EmptyString.
Proof. destruct s; [done|]. split; discriminate. Qed.

End CaseFacts.

Lemma forallb_impl {A} (f g : A -> bool) (l : list A) :
  (forall x, f x = true -> g x = true) -> forallb f l = true -> forallb g l = true.
Proof.
  intros H. induction l as [|x l IH]; simpl; [done|].
  intros [Hx Hl]%andb_true_iff. by rewrite (H _ Hx), IH.
Qed.

Section ChipPrefixFacts.
Import RegExp Chars PortMapper.

Lemma toUpper_digit c : isDigit c = true -> toUpper c = c.
Proof. by_cases c. Qed.

Lemma toUpper_hex c : isHexDigit c = true -> isUpperHex (toUpper c) = true.
Proof. by_cases c. Qed.

Lemma upcase_digits ds : forallb isDigit ds = true -> upcase ds = ds.
Proof.
  induction ds as [|c ds IH]; simpl; [done|].
  intros [Hc Hds]%andb_true_iff. by rewrite toUpper_digit, IH.
Qed.

Lemma upcase_hex hx : forallb isHexDigit hx = true -> forallb isUpperHex (upcase hx) = true.
Proof.
  induction hx as [|c hx IH]; simpl; [done|].
  intros [Hc Hhx]%andb_true_iff. by rewrite toUpper_hex, IH.
Qed.

Lemma falsy_Some s : falsy (Some s) = false <-> s <> EmptyString.
Proof.
  simpl. destruct (String.eqb_spec s EmptyString); split; congruence.
Qed.

(** The prefix is [digits & HEX], in upper case. *)
Lemma extractChipPrefix_shape parent c :
  extractChipPrefix parent = Some c ->
  exists ds hx,
    c = string_of_list_ascii (ds ++ "&"%char :: hx) /\
    ds <> [] /\ forallb isDigit ds = true /\
    hx <> [] /\ forallb isUpperHex hx = true.
Proof.
  unfold extractChipPrefix. destruct parent as [p|]; [|discriminate].
  destruct (falsy (Some p)); [discriminate|].
  unfold String_match, exec.
  destruct (search chipPattern 0 (list_ascii_of_string p)) as [m|] eqn:Hs; [|discriminate].
  apply search_inv in Hs as (pre & post & _ & Hm).
  apply matchAt_chip_inv in Hm as (ds & hx & post' & _ & Hds & Hdsd & Hhx & Hhxd & ->).
  intros [= <-]. exists ds, (upcase hx).
  rewrite toUpperCase_of_list. unfold upcase at 1. rewrite map_app. simpl.
  fold (upcase ds) (upcase hx). rewrite (upcase_digits ds Hdsd).
  repeat split; auto using upcase_hex.
  destruct hx; [done | discriminate].
Qed.

Lemma extractChipPrefix_chars parent c :
  extractChipPrefix parent = Some c ->
  c <> EmptyString /\ forallb chipChar (list_ascii_of_string c) = true.
Proof.
  intros (ds & hx & -> & Hds & Hdsd & _ & Hhxd)%extractChipPrefix_shape. split.
  - destruct ds; [done | discriminate].
  - rewrite list_ascii_of_string_of_list_ascii, forallb_app. simpl.
    apply andb_true_iff; split.
    + revert Hdsd. apply forallb_impl. intros x Hx. unfold chipChar, isUpperHex.
      by rewrite Hx.
    + revert Hhxd. apply forallb_impl. intros x Hx. unfold chipChar. by rewrite Hx.
Qed.

(** No start position of a string of such characters has a backslash. *)
Lemma extractChipPrefix_again parent c :
  extractChipPrefix parent = Some c -> extractChipPrefix (Some c) = None.
Proof.
  intros [Hne Hall]%extractChipPrefix_chars. unfold extractChipPrefix.
  destruct (falsy (Some c)); [done|].
  unfold String_match, exec. rewrite search_none; [done|].
  intros pre post Hsplit.
  destruct (matchAt chipPattern _ post) as [m|] eqn:Hm; [|done].
  apply matchAt_chip_inv in Hm as (ds & hx & post' & -> & _).
  rewrite Hsplit, forallb_app in Hall. simpl in Hall.
  apply andb_true_iff in Hall as [_ Hall]. discriminate.
Qed.

Lemma extractChipPrefix_upcase p :
  extractChipPrefix (Some (toUpperCase p)) = extractChipPrefix (Some p).
Proof.
  unfold extractChipPrefix, falsy.
  destruct (String.eqb_spec p EmptyString) as [-> | Hp]; [reflexivity|].
  destruct (String.eqb_spec (toUpperCase p) EmptyString) as [He | _].
  { apply (proj1 (toUpperCase_empty p)) in He. contradiction. }
  unfold String_match, exec, toUpperCase at 1.
  rewrite list_ascii_of_string_of_list_ascii.
  pose proof (search_upcase chipPattern 0 (list_ascii_of_string p) eq_refl) as H.
  fold (upcase (list_ascii_of_string p)).
  destruct (search chipPattern 0 (list_ascii_of_string p)) as [a|],
           (search chipPattern 0 (upcase (list_ascii_of_string p))) as [b|]; try done.
  destruct H as [_ ->]. destruct (group1 a); simpl; [|done].
  by rewrite toUpperCase_idem.
Qed.

Lemma extractChipPrefix_fixed parent c :
  extractChipPrefix parent = Some c -> toUpperCase c = c.
Proof.
  unfold extractChipPrefix. destruct parent as [p|]; [|discriminate].
  destruct (falsy (Some p)); [discriminate|].
  destruct (String_match p chipPattern) as [m|]; [|discriminate].
  destruct (group1 m); simpl; [|discriminate].
  intros [= <-]. apply toUpperCase_idem.
Qed.

End ChipPrefixFacts.

Section ValueFacts.
Import JS.

Lemma notPort_spec v : notPort v = false <-> isPortNumber v.
Proof.
  unfold isPortNumber. split.
  - destruct v as [| | |[| |q]| | | |]; simpl; try discriminate.
    intros H. apply orb_false_iff in H as [H1 H]. apply orb_false_iff in H as [H2 H3].
    apply negb_false_iff, Z.eqb_eq in H1. apply Z.ltb_ge in H2, H3.
    destruct q as [n d]; simpl in *.
    apply Z.mod_divide in H1; [|lia]. destruct H1 as [z ->].
    exists z. split; [nia|]. eexists; split; [reflexivity|].
    unfold Qeq; simpl. lia.
  - intros (z & Hz & q & -> & Hq).
    destruct q as [n d]; unfold Qeq in Hq; simpl in Hq.
    assert (n = z * Z.pos d)%Z as -> by lia.
    unfold notPort, Number_isInteger, isIntegerNumber, lessThan, greaterThan.
    cbn [Qnum Qden]. rewrite Z.mod_mul by lia. cbn [Z.eqb negb orb].
    apply orb_false_iff; split; apply Z.ltb_ge; nia.
Qed.

Lemma notPort_ofZ z : notPort (ofZ z) = negb ((1 <=? z)%Z && (z <=? 7)%Z).
Proof.
  unfold ofZ, notPort, Number_isInteger, isIntegerNumber, lessThan, greaterThan, inject_Z.
  simpl. rewrite Z.mod_1_r. simpl.
  destruct (Z.ltb_spec z 1), (Z.ltb_spec 7 (z * 1)), (Z.leb_spec 1 z), (Z.leb_spec z 7);
    simpl; try reflexivity; lia.
Qed.

Lemma notPort_truthy v : notPort v = false -> truthy v = true.
Proof.
  destruct v as [| | |[| |q]| | | |]; simpl; try discriminate.
  intros H. apply orb_false_iff in H as [H1 H]. apply orb_false_iff in H as [H2 H3].
  apply Z.ltb_ge in H2. apply negb_true_iff, Z.eqb_neq. lia.
Qed.

Lemma isInherited_bar key : hasBar key = true -> isInherited key = false.
Proof.
  intros Hbar. destruct (isInherited key) eqn:Hi; [|reflexivity].
  apply existsb_exists in Hi as (x & Hin & Hx). apply String.eqb_eq in Hx as <-.
  simpl in Hin.
  repeat (destruct Hin as [<- | Hin]; [discriminate|]). destruct Hin.
Qed.

Lemma hasBar_app a b : hasBar (a +:+ "|" +:+ b) = true.
Proof.
  unfold hasBar. rewrite list_ascii_app, existsb_app. simpl.
  by rewrite orb_true_r.
Qed.

Lemma get_own o key : hasBar key = true -> get o key = default Undefined (o !! key).
Proof. intros H. unfold get. destruct (o !! key); [done|]. by rewrite isInherited_bar. Qed.

Lemma has_own o key : hasBar key = true -> has o key = bool_decide (is_Some (o !! key)).
Proof.
  intros H. unfold has. destruct (o !! key) eqn:E.
  - symmetry. apply bool_decide_eq_true. eauto.
  - rewrite isInherited_bar by done. symmetry. apply bool_decide_eq_false.
    by intros [? ?].
Qed.

Lemma set_insert o key v : hasBar key = true -> set o key v = <[key := v]> o.
Proof.
  intros H. unfold set. destruct (o !! key); [done|].
  destruct (String.eqb_spec key "__proto__") as [-> | _]; [discriminate | done].
Qed.

Lemma length_keys o : length (keys o) = size o.
Proof. unfold keys. by rewrite length_fmap, length_map_to_list. Qed.

Lemma elem_of_keys o key : key ∈ keys o <-> is_Some (o !! key).
Proof.
  unfold keys. rewrite list_elem_of_fmap. split.
  - intros ([k v] & -> & H%elem_of_map_to_list). eauto.
  - intros [v H]. exists (key, v). split; [done|]. by apply elem_of_map_to_list.
Qed.

Lemma NoDup_keys o : NoDup (keys o).
Proof. apply NoDup_fst_map_to_list. Qed.

End ValueFacts.

Section NormalizeFacts.
Import PortMapper.

Lemma normalizeLocation_shape location parent key :
  normalizeLocation location parent = Some key ->
  exists c i,
    extractChipPrefix parent = Some c /\ extractPortIndex location = Some i /\
    key = c +:+ "|" +:+ i.
Proof.
  unfold normalizeLocation.
  destruct (extractChipPrefix parent) as [c|], (extractPortIndex location) as [i|];
    try (destruct (_ || _); discriminate).
  destruct (_ || _); [discriminate|]. intros [= <-]. eauto.
Qed.

Lemma normalizeLocation_bar location parent key :
  normalizeLocation location parent = Some key -> hasBar key = true.
Proof. intros (c & i & _ & _ & ->)%normalizeLocation_shape. apply hasBar_app. Qed.

Lemma normalizeLocation_truthy location parent key :
  normalizeLocation location parent = Some key -> falsy (Some key) = false.
Proof.
  intros H%normalizeLocation_bar. destruct key; [discriminate | reflexivity].
Qed.

(** Only the extractions decide. *)
Lemma normalizeLocation_None location parent :
  normalizeLocation location parent = None <->
  falsy (extractChipPrefix parent) = true \/ falsy (extractPortIndex location) = true.
Proof.
  unfold normalizeLocation.
  destruct (extractChipPrefix parent) as [c|], (extractPortIndex location) as [i|]; simpl;
    rewrite ?orb_true_r; try tauto.
  destruct (String.eqb c EmptyString), (String.eqb i EmptyString); simpl;
    split; (tauto || discriminate || intros [?|?]; discriminate).
Qed.

End NormalizeFacts.

Section MapperTheorems.
Import PortMapper.

(** C1.  End-to-end scenario: for location ["Port_#0002.Hub_#0008"] and parent
    ["USB\VID_2109&PID_0822\9&238498F1&0&3"], [normalizeLocation] returns the
    key ["9&238498F1|2"]; [addMapping] with port 5 on a fresh mapper returns
    that key and leaves the mapping exactly [{"9&238498F1|2": 5}]; a later
    [getPhysicalPort] with the same location and parent returns 5 (and
    does so whatever the mapper held before the [addMapping]). *)
Theorem end_to_end_scenario :
  let location := Some "Port_#0002.Hub_#0008" in
  let parent := Some "USB\VID_2109&PID_0822\9&238498F1&0&3" in
  let key := "9&238498F1|2" in
  normalizeLocation location parent = Some key /\
  addMapping (constructor None) location parent (JS.ofZ 5)
    = (JS.Return key, {| mappings := {[ key := JS.ofZ 5 ]} |}) /\
  getPhysicalPort {| mappings := {[ key := JS.ofZ 5 ]} |} location parent = JS.ofZ 5 /\
  forall this : t,
    getPhysicalPort (addMapping this location parent (JS.ofZ 5)).2 location parent
      = JS.ofZ 5.
Proof.
  intros location parent key.
  assert (Hn : normalizeLocation location parent = Some key) by (vm_compute; reflexivity).
  assert (Hb : hasBar key = true) by reflexivity.
  assert (Hadd : forall this, addMapping this location parent (JS.ofZ 5)
              = (JS.Return key, {| mappings := <[key := JS.ofZ 5]> (mappings this) |})).
  { intros this. unfold addMapping. rewrite Hn. cbn [falsy]. 
    change (String.eqb key EmptyString) with false. cbv iota.
    rewrite notPort_ofZ. simpl negb. cbv iota. by rewrite set_insert. }
  assert (Hget : forall m, getPhysicalPort {| mappings := <[key := JS.ofZ 5]> m |} location parent
              = JS.ofZ 5).
  { intros m. unfold getPhysicalPort. rewrite Hn. cbn [falsy].
    change (String.eqb key EmptyString) with false. cbv iota.
    rewrite get_own by done. cbn [mappings]. by rewrite lookup_insert_eq. }
  split; [exact Hn|]. split; [|split].
  - rewrite Hadd. cbn [constructor mappings]. by rewrite insert_empty.
  - rewrite <- insert_empty. apply Hget.
  - intros this. rewrite Hadd. apply Hget.
Qed.

(** C2.  [addMapping] throws the normalisation error exactly when
    [normalizeLocation] is absent; otherwise it throws the port error
    exactly when [portNumber] is not an integer from 1 to 7 (0, 8, 1.5 and
    the string "5" are rejected, 1 and 7 are accepted); either error leaves
    the mapper as it was; otherwise it returns the derived key and the
    mapping is the old one with [portNumber] written under that key,
    replacing any value the key had. *)
Theorem addMapping_outcomes (this : t) (location parent : option string)
        (portNumber : JS.value) :
  let r := addMapping this location parent portNumber in
  (r.1 = JS.Throw CannotNormalize <-> normalizeLocation location parent = None) /\
  (r.1 = JS.Throw PortOutOfRange <->
     normalizeLocation location parent <> None /\ ~ isPortNumber portNumber) /\
  (forall key, r.1 = JS.Return key <->
     normalizeLocation location parent = Some key /\ isPortNumber portNumber) /\
  (forall e, r.1 = JS.Throw e -> r.2 = this) /\
  (forall key, r.1 = JS.Return key ->
     mappings r.2 = <[key := portNumber]> (mappings this)) /\
  (forall key, normalizeLocation location parent = Some key ->
     (addMapping this location parent (JS.ofZ 0)).1 = JS.Throw PortOutOfRange /\
     (addMapping this location parent (JS.ofZ 8)).1 = JS.Throw PortOutOfRange /\
     (addMapping this location parent (JS.Number (JS.Finite (3 # 2)))).1
       = JS.Throw PortOutOfRange /\
     (addMapping this location parent (JS.Str "5")).1 = JS.Throw PortOutOfRange /\
     (addMapping this location parent (JS.ofZ 1)).1 = JS.Return key /\
     (addMapping this location parent (JS.ofZ 7)).1 = JS.Return key).
Proof.
  unfold addMapping.
  destruct (normalizeLocation location parent) as [key|] eqn:Hn.
  - rewrite (normalizeLocation_truthy _ _ _ Hn).
    pose proof (normalizeLocation_bar _ _ _ Hn) as Hbar.
    pose proof (notPort_spec portNumber) as Hp.
    destruct (JS.notPort portNumber) eqn:Hnp; simpl.
    + assert (~ isPortNumber portNumber) as Hno by (intros H%Hp; discriminate).
      repeat split; try done; try (intros; intuition congruence).
    + assert (isPortNumber portNumber) as Hyes by (by apply Hp).
      repeat split; try done; try (intros; intuition congruence).
      intros k [= <-]. by rewrite set_insert.
  - simpl. repeat split; try done; try (intros; intuition congruence).
Qed.

(** C4.  [isCalibrated] is true exactly when the mapping holds at least
    7 entries, whatever their values: false with 6 entries, true with 7 and
    with 8 or more.  [getMappingCount] is the number of entries. *)
Theorem isCalibrated_threshold (this : t) :
  (isCalibrated this = true <-> 7 <= size (mappings this)) /\
  getMappingCount this = size (mappings this) /\
  (size (mappings this) = 6 -> isCalibrated this = false) /\
  (size (mappings this) = 7 -> isCalibrated this = true) /\
  (8 <= size (mappings this) -> isCalibrated this = true).
Proof.
  unfold isCalibrated, getMappingCount. rewrite length_keys.
  repeat split.
  - by intros H%Nat.leb_le.
  - by intros H%Nat.leb_le.
  - intros ->. reflexivity.
  - intros ->. reflexivity.
  - intros H. apply Nat.leb_le. lia.
Qed.

(** C5.  When location and parent normalise to a key the mapping already
    holds, [addMapping] with a valid port replaces the value of that key,
    leaves every other key alone and leaves [getMappingCount] unchanged;
    the keys of the mapping stay free of duplicates. *)
Theorem addMapping_overwrites (this : t) (location parent : option string)
        (key : string) (old portNumber : JS.value) :
  normalizeLocation location parent = Some key ->
  mappings this !! key = Some old ->
  isPortNumber portNumber ->
  let r := addMapping this location parent portNumber in
  r.1 = JS.Return key /\
  mappings r.2 !! key = Some portNumber /\
  getMappingCount r.2 = getMappingCount this /\
  NoDup (JS.keys (mappings r.2)) /\
  (forall k, k <> key -> mappings r.2 !! k = mappings this !! k).
Proof.
  intros Hn Hold Hp%notPort_spec. unfold addMapping.
  rewrite Hn, (normalizeLocation_truthy _ _ _ Hn), Hp. simpl.
  rewrite set_insert by (by eapply normalizeLocation_bar).
  split; [done|]. split; [apply lookup_insert_eq|]. split; [|split].
  - unfold getMappingCount. rewrite !length_keys. simpl.
    apply map_size_insert_Some. eauto.
  - apply NoDup_keys.
  - intros k Hk. by apply lookup_insert_ne.
Qed.

(** C10.  On a mapper whose values are all integers from 1 to 7:
    [getPhysicalPort] is not [null] exactly when [hasMapping] is true;
    [getExistingPort] returns what [getPhysicalPort] returns; the
    [|| null] of the lookup loses nothing: the result is the stored value
    of the key, [null] when the key is not stored; and when normalisation
    fails the three queries return [null], [null] and [false]. *)
Theorem lookups_agree (this : t) (location parent : option string) :
  map_Forall (fun _ v => isPortNumber v) (mappings this) ->
  (getPhysicalPort this location parent <> JS.Null <->
     hasMapping this location parent = true) /\
  getExistingPort this location parent = getPhysicalPort this location parent /\
  getPhysicalPort this location parent =
    match normalizeLocation location parent with
    | Some key => default JS.Null (mappings this !! key)
    | None => JS.Null
    end /\
  (normalizeLocation location parent = None ->
     getPhysicalPort this location parent = JS.Null /\
     getExistingPort this location parent = JS.Null /\
     hasMapping this location parent = false).
Proof.
  intros Hall. unfold getPhysicalPort, getExistingPort, hasMapping.
  destruct (normalizeLocation location parent) as [key|] eqn:Hn; [|done].
  rewrite (normalizeLocation_truthy _ _ _ Hn).
  pose proof (normalizeLocation_bar _ _ _ Hn) as Hbar.
  rewrite get_own, has_own by done.
  destruct (mappings this !! key) as [v|] eqn:Hv; simpl.
  - pose proof (Hall _ _ Hv) as Hp. pose proof Hp as Ht%notPort_spec%notPort_truthy.
    simpl in Hp. unfold JS.or. rewrite Ht.
    assert (v <> JS.Null) as Hnull.
    { intros ->. destruct Hp as (z & _ & q & [=] & _). }
    split; [|by repeat split].
    split; [done | by intros _].
  - split; [|by repeat split].
    split; [by intros H | discriminate].
Qed.

End MapperTheorems.

Section ChipTheorems.
Import PortMapper Chars.

Lemma chipChar_not_bar c : chipChar c = true -> Chars.eqb c "|" = false.
Proof. by_cases c. Qed.

(** A key starts with [chip + '|'] exactly when [chip] is what the key
    holds before its first ['|']. *)
Lemma startsWith_chipPortion chip : forall key,
  forallb chipChar (list_ascii_of_string chip) = true ->
  startsWith key (chip +:+ "|") = true <-> chipPortion key = Some chip.
Proof.
  induction chip as [|a chip IH]; intros key Hall.
  - rewrite string_app_nil_l. destruct key as [|x key]; simpl; [split; discriminate|].
    rewrite andb_true_r. destruct (Chars.eqb x "|") eqn:Hx; [done|].
    split; [discriminate|]. destruct (chipPortion key); discriminate.
  - simpl in Hall. apply andb_true_iff in Hall as [Ha Hall].
    rewrite string_app_cons. destruct key as [|x key]; simpl; [split; discriminate|].
    destruct (Chars.eqb x a) eqn:Hxa; simpl.
    + apply Chars_eqb_eq in Hxa as ->. rewrite (chipChar_not_bar _ Ha), (IH key Hall).
      destruct (chipPortion key); simpl; split; congruence.
    + split; [discriminate|].
      destruct (Chars.eqb x "|"); [discriminate|].
      destruct (chipPortion key); simpl; [|discriminate].
      intros [= -> _]. by rewrite Chars_eqb_refl in Hxa.
Qed.

(** C9.  [isKnownChip] is true exactly when a chip prefix can be extracted
    from [parent] and equals the chip-prefix portion (the part before the
    ['|']) of at least one key of the mapping; the location, hence the port
    index, plays no role; it is false when no prefix can be extracted and
    when no key has that portion. *)
Theorem isKnownChip_spec (this : t) (location parent : option string) :
  (isKnownChip this location parent = true <->
     exists chip key,
       extractChipPrefix parent = Some chip /\
       is_Some (mappings this !! key) /\
       chipPortion key = Some chip) /\
  (forall location', isKnownChip this location' parent = isKnownChip this location parent) /\
  (extractChipPrefix parent = None -> isKnownChip this location parent = false) /\
  ((forall key, is_Some (mappings this !! key) -> chipPortion key <> extractChipPrefix parent) ->
     isKnownChip this location parent = false).
Proof.
  assert (Hspec : isKnownChip this location parent = true <->
     exists chip key,
       extractChipPrefix parent = Some chip /\
       is_Some (mappings this !! key) /\
       chipPortion key = Some chip).
  { unfold isKnownChip.
    destruct (extractChipPrefix parent) as [chip|] eqn:He.
    - destruct (extractChipPrefix_chars _ _ He) as [Hne Hall].
      rewrite (proj2 (falsy_Some chip) Hne), existsb_exists. split.
      + intros (key & Hin & Hk). exists chip, key. split; [done|].
        split; [by apply elem_of_keys, list_elem_of_In|].
        by apply startsWith_chipPortion.
      + intros (chip' & key & [= <-] & Hin & Hk). exists key.
        split; [by apply list_elem_of_In, elem_of_keys|].
        by apply startsWith_chipPortion.
    - simpl. split; [discriminate|]. by intros (? & ? & [=] & _). }
  split; [exact Hspec|]. split; [done|]. split.
  - intros He. apply not_true_is_false. intros Hk.
    apply Hspec in Hk as (? & ? & Hc & _). congruence.
  - intros Hno. apply not_true_is_false. intros Hk.
    apply Hspec in Hk as (chip & key & Hc & Hin & Hp).
    apply (Hno key Hin). congruence.
Qed.

(** C8, as amended.  [extractChipPrefix] is case-normalising: two parent
    strings that differ only in letter case yield the same result, and a
    prefix it returns is its own upper case.  It is not idempotent: a
    returned prefix holds no backslash, so that applying
    [extractChipPrefix] to it yields absent. *)
Theorem extractChipPrefix_case_normalizing :
  (forall p1 p2 : string,
     toUpperCase p1 = toUpperCase p2 ->
     extractChipPrefix (Some p1) = extractChipPrefix (Some p2)) /\
  (forall parent chip,
     extractChipPrefix parent = Some chip ->
     toUpperCase chip = chip /\ extractChipPrefix (Some chip) = None).
Proof.
  split.
  - intros p1 p2 H.
    by rewrite <- (extractChipPrefix_upcase p1), H, extractChipPrefix_upcase.
  - intros parent chip H. split.
    + by eapply extractChipPrefix_fixed.
    + by eapply extractChipPrefix_again.
Qed.

(** Against C8 as stated: on the parent of the end-to-end scenario a second
    application does not return what the first returned. *)
Lemma extractChipPrefix_not_idempotent :
  let parent := Some "USB\VID_2109&PID_0822\9&238498F1&0&3" in
  extractChipPrefix parent = Some "9&238498F1" /\
  extractChipPrefix (extractChipPrefix parent) <> extractChipPrefix parent.
Proof. split; [vm_compute; reflexivity | vm_compute; discriminate]. Qed.

End ChipTheorems.

Lemma plus_greedy_Some ic cs i pre post cap k :
  pre <> [] -> forallb (RegExp.matches ic cs) pre = true ->
  is_Some (k {| RegExp.endIndex := i + length pre; RegExp.rest := post; RegExp.capture := cap |}) ->
  match post with [] => True | c :: _ => RegExp.matches ic cs c = false end ->
  is_Some (RegExp.plus ic cs i (pre ++ post) cap k).
Proof. intros Hne Hall [r Hk] Hpost. exists r. by apply plus_greedy. Qed.

Section StoreFacts.
Import RegExp Chars Store.

Lemma keyPattern_test key : test keyPattern key = true <-> isIdentityKey key.
Proof.
  unfold test, exec, isIdentityKey. split.
  - destruct (search keyPattern 0 (list_ascii_of_string key)) as [res|] eqn:Hs; [|discriminate].
    intros _. apply search_inv in Hs as (pre & post & Hkey & Hm).
    unfold matchAt in Hm.
    cbn [keyPattern source ignoreCase run rest endIndex capture] in Hm.
    destruct pre as [|x pre]; [|simpl in Hm; discriminate].
    cbn [length Nat.add Nat.eqb app] in Hkey, Hm.
    destruct (plus _ _ _ _ _ _) as [st|] eqn:Hp; [|discriminate]. clear Hm.
    apply plus_inv in Hp as (a & post1 & -> & Ha & Had & Hk).
    cbn [run rest endIndex capture] in Hk.
    destruct post1 as [|y post1]; [discriminate|].
    destruct (matches true (lit "&") y) eqn:Hy; [|discriminate].
    apply matches_amp in Hy as ->.
    apply plus_inv in Hk as (b & post2 & -> & Hb & Hbd & Hk).
    cbn [run rest endIndex capture] in Hk.
    destruct post2 as [|z post2]; [discriminate|].
    destruct (matches true (lit "|") z) eqn:Hz; [|discriminate].
    apply matches_bar in Hz as ->.
    apply plus_inv in Hk as (c & post3 & -> & Hc & Hcd & Hk).
    cbn [run rest endIndex capture] in Hk.
    destruct post3; [|discriminate].
    exists a, b, c. rewrite app_nil_r in Hkey.
    rewrite <- Hkey, string_of_list_ascii_of_string.
    rewrite <- (forallb_eq _ _ a matches_digit), <- (forallb_eq _ _ b matches_hex),
      <- (forallb_eq _ _ c matches_digit). done.
  - intros (a & b & c & -> & Ha & Had & Hb & Hbd & Hc & Hcd).
    rewrite list_ascii_of_string_of_list_ascii.
    rewrite <- (forallb_eq _ _ a matches_digit) in Had.
    rewrite <- (forallb_eq _ _ b matches_hex) in Hbd.
    rewrite <- (forallb_eq _ _ c matches_digit) in Hcd.
    assert (is_Some (matchAt keyPattern 0 (a ++ "&"%char :: b ++ "|"%char :: c ++ [])))
      as [res Hres].
    { unfold matchAt.
      cbn [keyPattern source ignoreCase run rest endIndex capture Nat.eqb].
      match goal with |- is_Some (match ?x with _ => _ end) =>
        assert (is_Some x) as [st ->]; [|by eexists] end.
      apply plus_greedy_Some; [done | done | | reflexivity].
      cbn [run rest endIndex capture]. change (matches true (lit "&") "&") with true. cbv iota.
      apply plus_greedy_Some; [done | done | | reflexivity].
      cbn [run rest endIndex capture]. change (matches true (lit "|") "|") with true. cbv iota.
      apply plus_greedy_Some; [done | done | | done].
      by eexists. }
    rewrite app_nil_r in Hres.
    by rewrite (search_here _ _ _ _ Hres).
Qed.
End StoreFacts.

Section StoreTheorems.
Import Store.

Lemma checkEntries_true es b : checkEntries es = JS.Return b -> b = true.
Proof.
  induction es as [|[k v] es IH]; simpl; [by intros [= <-]|].
  destruct (RegExp.test keyPattern k); simpl; [|discriminate].
  destruct (JS.notPort v); [discriminate | exact IH].
Qed.

Lemma checkEntries_spec es :
  checkEntries es = JS.Return true <->
  Forall (fun kv => isIdentityKey kv.1 /\ isPortNumber kv.2) es.
Proof.
  induction es as [|[k v] es IH]; simpl.
  - split; [constructor | done].
  - rewrite Forall_cons, <- IH, <- keyPattern_test, <- notPort_spec. simpl.
    destruct (RegExp.test keyPattern k); simpl; [|split; [discriminate | intros [[[=] _] _]]].
    destruct (JS.notPort v); [split; [discriminate | intros [[_ [=]] _]] | tauto].
Qed.

(** The first entry of an array has key ["0"]. *)
Lemma checkEntries_array v vs :
  checkEntries (entries (JS.Array (v :: vs))) = JS.Throw (InvalidKeyFormat "0").
Proof. reflexivity. Qed.

(** The documents [validate] returns [true] on. *)
Lemma validate_valid (data : JS.value) :
  validate data = JS.Return true <-> validDocument data.
Proof.
  unfold validate, validDocument. split.
  - destruct data as [| |b|n|s|vs|properties|]; try discriminate.
    { by destruct b. }
    { cbn [JS.isObjectType JS.typeof negb]. rewrite orb_true_r. discriminate. }
    { cbn [JS.isObjectType JS.typeof negb]. rewrite orb_true_r. discriminate. }
    simpl. destruct (lookup "version" properties) as [| |b|n|s|vs|ps|] eqn:Hv; try discriminate.
    simpl. destruct (String.eqb_spec s SCHEMA_VERSION) as [-> | _]; [|discriminate].
    simpl. destruct (lookup "mappings" properties) as [| |b|n|s|vs|es|] eqn:Hm;
      try discriminate.
    + destruct b; discriminate.
    + cbn [JS.isObjectType JS.typeof negb]. rewrite orb_true_r. discriminate.
    + cbn [JS.isObjectType JS.typeof negb]. rewrite orb_true_r. discriminate.
    + destruct vs as [|v vs]; [|by rewrite checkEntries_array].
      intros _. exists properties. split; [done|]. split; [done|]. by right.
    + simpl. intros H%checkEntries_spec. exists properties.
      split; [done|]. split; [done|]. left. eauto.
  - intros (properties & -> & Hv & Hm). simpl in *. rewrite Hv. simpl.
    destruct Hm as [(es & -> & H) | ->]; simpl; [by apply checkEntries_spec | done].
Qed.

(** C6, as amended.  [validate] returns [true] exactly on an object whose
    [version] is the string "1.0" and whose [mappings] is either an object
    all of whose keys have the identity-key format and all of whose values
    are integers from 1 to 7, or an empty array; on every other document
    it throws (it never returns [false]): a wrong version, missing
    mappings, the key "abc|3", the values 0 and 8 are rejected. *)
Theorem validate_spec (data : JS.value) :
  (validate data = JS.Return true <-> validDocument data) /\
  (forall b, validate data = JS.Return b -> b = true) /\
  (forall version mappings,
     data = JS.Object [("version", version); ("mappings", mappings)] ->
     (version <> JS.Str "1.0" -> validate data = JS.Throw (InvalidSchemaVersion version)) /\
     (version = JS.Str "1.0" ->
        (mappings = JS.Undefined -> validate data = JS.Throw MissingMappings) /\
        (mappings = JS.Object [("abc|3", JS.ofZ 3)] ->
           validate data = JS.Throw (InvalidKeyFormat "abc|3")) /\
        (mappings = JS.Object [("9&238498F1|2", JS.ofZ 0)] ->
           validate data = JS.Throw (InvalidPortValue "9&238498F1|2" (JS.ofZ 0))) /\
        (mappings = JS.Object [("9&238498F1|2", JS.ofZ 8)] ->
           validate data = JS.Throw (InvalidPortValue "9&238498F1|2" (JS.ofZ 8))) /\
        (mappings = JS.Object [("9&238498F1|2", JS.ofZ 5)] ->
           validate data = JS.Return true))).
Proof.
  split; [|split].
  - apply validate_valid.
  - unfold validate. intros b.
    destruct (_ || _); [discriminate|].
    destruct (differsFromVersion _); [discriminate|].
    destruct (_ || _); [discriminate|]. apply checkEntries_true.
  - intros version mappings ->. split.
    + intros Hv. unfold validate. simpl.
      destruct version as [| |b|n|s|vs|ps|]; try reflexivity.
      simpl. destruct (String.eqb_spec s SCHEMA_VERSION) as [-> | _]; [done | reflexivity].
    + intros ->. repeat split; intros ->; reflexivity.
Qed.

(** Against C6 as stated: an empty array in place of the mapping passes. *)
Lemma validate_accepts_array :
  let data := JS.Object [("version", JS.Str "1.0"); ("mappings", JS.Array [])] in
  (forall properties, field data "mappings" <> JS.Object properties) /\
  validate data = JS.Return true.
Proof. split; [discriminate | reflexivity]. Qed.

End StoreTheorems.

(** ** Decimal numerals *)
Section DecimalFacts.
Import Decimal.
Local Open Scope N_scope.

Abbreviation usize := DecimalPos.Unsigned.usize.
Abbreviation hd := DecimalPos.Unsigned.hd.
Abbreviation tl := DecimalPos.Unsigned.tl.



(** The value of a numeral, from its leading digit. *)
Lemma of_uint_cons d :
  N.of_uint d = hd d * 10 ^ usize (tl d) + N.of_uint (tl d).
Proof.
  unfold N.of_uint. rewrite !DecimalPos.Unsigned.of_uint_alt.
  destruct d; [reflexivity | ..];
    unfold rev; simpl revapp; rewrite DecimalPos.Unsigned.of_lu_revapp;
    simpl; fold (rev d); lia.
Qed.

Lemma of_uint_lt d : N.of_uint d < 10 ^ usize d.
Proof.
  induction d; [simpl; lia | ..];
    rewrite of_uint_cons; simpl hd; simpl tl; simpl usize;
    rewrite N.pow_succ_r'; lia.
Qed.

Lemma of_uint_ge d : hd d <> 0 -> 10 ^ usize (tl d) <= N.of_uint d.
Proof. intros H. rewrite of_uint_cons. nia. Qed.

Lemma usize_nb_digits d : usize d = N.of_nat (nb_digits d).
Proof. induction d; simpl; [reflexivity | ..]; rewrite IHd; lia. Qed.

Lemma usize_snoc0 d : usize (snoc0 d) = N.succ (usize d).
Proof. induction d; simpl; [reflexivity | ..]; by rewrite IHd. Qed.

Lemma of_uint_snoc0 d : N.of_uint (snoc0 d) = 10 * N.of_uint d.
Proof.
  induction d; [reflexivity | ..];
    rewrite (of_uint_cons (snoc0 _)), (of_uint_cons (_ d));
    simpl snoc0; simpl hd; simpl tl; rewrite usize_snoc0, N.pow_succ_r', IHd; lia.
Qed.

Lemma string_of_snoc0 d :
  NilEmpty.string_of_uint (snoc0 d) = NilEmpty.string_of_uint d +:+ "0".
Proof. induction d; simpl; [reflexivity | ..]; by rewrite IHd. Qed.

Lemma to_uint_normal y : unorm (N.to_uint y) = N.to_uint y.
Proof.
  rewrite <- (DecimalN.Unsigned.of_to y) at 2.
  by rewrite DecimalN.Unsigned.to_of.
Qed.

Lemma to_uint_hd y : 0 < y -> hd (N.to_uint y) <> 0.
Proof.
  intros Hy Hhd. pose proof (to_uint_normal y) as Hn.
  pose proof (DecimalN.Unsigned.of_to y) as Hy'.
  destruct (N.to_uint y) as [|d| | | | | | | | |] eqn:E; try discriminate.
  rewrite unorm_D0 in Hn. unfold unorm in Hn.
    pose proof (nzhead_nonzero d) as Hnz.
  destruct (nzhead d) eqn:E'; try (by exfalso; eapply Hnz).
  injection Hn as <-. simpl in Hy'. lia.
Qed.

Lemma unorm_hd d : hd d <> 0 -> unorm d = d.
Proof. destruct d; simpl; intros H; try reflexivity; by destruct H. Qed.

Lemma hd_snoc0 d : hd d <> 0 -> hd (snoc0 d) = hd d.
Proof. destruct d; simpl; intros H; try reflexivity; by destruct H. Qed.

Lemma to_uint_tenfold y : 0 < y -> N.to_uint (10 * y) = snoc0 (N.to_uint y).
Proof.
  intros Hy. rewrite <- (DecimalN.Unsigned.of_to y) at 1.
  rewrite <- of_uint_snoc0, DecimalN.Unsigned.to_of.
  apply unorm_hd. rewrite hd_snoc0; by apply to_uint_hd.
Qed.

End DecimalFacts.

Section DoubleFacts.
Import Double.
Local Open Scope N_scope.

Lemma decimal_tenfold y : 0 < y -> decimal (10 * y) = decimal y +:+ "0".
Proof.
  intros Hy. unfold decimal. rewrite (to_uint_tenfold y Hy).
  pose proof (to_uint_hd y Hy) as Hhd.
  destruct (N.to_uint y) eqn:E; [done | ..]; simpl snoc0;
    unfold NilZero.string_of_uint; rewrite <- ?string_of_snoc0; reflexivity.
Qed.

Lemma zeros_snoc m : zeros m +:+ "0" = zeros (S m).
Proof.
  induction m as [|m IH]; [reflexivity|].
  change (zeros (S m)) with (String "0" (zeros m)).
  rewrite string_app_cons, IH. reflexivity.
Qed.

Lemma decimal_shift s m : 0 < s -> decimal (s * 10 ^ N.of_nat m) = decimal s +:+ zeros m.
Proof.
  intros Hs. induction m as [|m IH].
  - simpl. by rewrite N.mul_1_r, string_app_nil_r.
  - rewrite Nat2N.inj_succ, N.pow_succ_r', <- zeros_snoc, <- string_app_assoc, <- IH.
    rewrite <- decimal_tenfold by nia. f_equal. lia.
Qed.

Lemma digitCount_bounds x :
  0 < x -> 10 ^ N.of_nat (digitCount x - 1) <= x < 10 ^ N.of_nat (digitCount x).
Proof.
  intros Hx. unfold digitCount.
  pose proof (to_uint_hd x Hx) as Hhd.
  pose proof (of_uint_lt (N.to_uint x)) as Hlt.
  pose proof (of_uint_ge (N.to_uint x) Hhd) as Hge.
  rewrite DecimalN.Unsigned.of_to in Hlt, Hge.
  rewrite usize_nb_digits in Hlt, Hge. split; [|done].
  destruct (N.to_uint x); simpl in *; [done | ..]; by rewrite Nat.sub_0_r.
Qed.

End DoubleFacts.

Section SafeIntegers.
Import Double.
Local Open Scope N_scope.

Lemma ofInteger_small n : n < 2 ^ 53 -> ofInteger n = IntFinite n.
Proof. intros H. unfold ofInteger. by rewrite (proj2 (N.ltb_lt _ _) H). Qed.

(** Rounding never takes a value from [2^53] on below [2^53]. *)
Lemma ofInteger_large n v : 2 ^ 53 <= n -> ofInteger n = IntFinite v -> 2 ^ 53 <= v.
Proof.
  intros H. unfold ofInteger. rewrite (proj2 (N.ltb_ge _ _) H).
  set (e := N.log2 n - 52). set (q := n / 2 ^ e).
  assert (53 <= N.log2 n) as Hlog by (apply N.log2_le_pow2; lia).
  assert (2 ^ 52 <= q) as Hq.
  { unfold q. apply N.div_le_lower_bound; [apply N.pow_nonzero; lia|].
    rewrite N.mul_comm, <- N.pow_add_r. replace (52 + e) with (N.log2 n) by lia.
    apply N.log2_spec. lia. }
  assert (2 <= 2 ^ e) as He.
  { change 2 with (2 ^ 1) at 1. apply N.pow_le_mono_r; lia. }
  destruct (_ || _); (destruct (_ <? 2 ^ 1024); [|discriminate]); intros [= <-].
  - change (2 ^ 53) with (2 ^ 52 * 2). apply N.mul_le_mono; lia.
  - change (2 ^ 53) with (2 ^ 52 * 2). apply N.mul_le_mono; lia.
Qed.

Lemma rounds_to_safe x v : x < 2 ^ 53 -> rounds_to x v = (v =? x).
Proof.
  intros Hx. unfold rounds_to. destruct (N.lt_ge_cases v (2 ^ 53)) as [Hv | Hv].
  - by rewrite ofInteger_small.
  - destruct (ofInteger v) as [| |y] eqn:E.
    + symmetry. apply N.eqb_neq. lia.
    + symmetry. apply N.eqb_neq. lia.
    + apply ofInteger_large in E; [|done].
      rewrite (proj2 (N.eqb_neq y x)), (proj2 (N.eqb_neq v x)); [done | lia | lia].
Qed.

Lemma shortest_safe x n0 j :
  0 < x < 2 ^ 53 -> x < 10 ^ N.of_nat n0 -> (j < n0)%nat ->
  exists s m, shortest x n0 j = (s, (n0 - m)%nat, n0) /\ (m <= j)%nat /\
              s * 10 ^ N.of_nat m = x.
Proof.
  intros [Hx0 Hx] Hn0. induction j as [|j IH]; intros Hj.
  - exists x, 0%nat. cbn [shortest]. rewrite !rounds_to_safe by done.
    change (10 ^ N.of_nat 0) with 1. rewrite N.div_1_r, !N.mul_1_r, N.eqb_refl.
    rewrite (proj2 (N.eqb_neq (x + 1) x)) by lia. cbn [andb].
    rewrite (proj2 (N.eqb_neq x (10 ^ N.of_nat (n0 - 0)))); [|rewrite Nat.sub_0_r; lia].
    split; [done|]. split; lia.
  - cbn [shortest]. rewrite !rounds_to_safe by done.
    set (p := 10 ^ N.of_nat (S j)).
    assert (p <> 0) as Hp by (apply N.pow_nonzero; lia).
    assert (x < (x / p + 1) * p) as Hhi.
    { rewrite N.mul_comm, N.add_1_r. apply N.mul_succ_div_gt. done. }
    rewrite (proj2 (N.eqb_neq ((x / p + 1) * p) x)) by lia.
    rewrite andb_false_r.
    destruct (N.eqb_spec (x / p * p) x) as [Heq | Hne].
    + exists (x / p), (S j). split; [|split; [lia | done]].
      rewrite (proj2 (N.eqb_neq (x / p) _)); [done|].
      intros E. rewrite E in Heq. fold p in Heq. unfold p in Heq.
      rewrite <- N.pow_add_r in Heq.
      replace (N.of_nat (n0 - S j) + N.of_nat (S j)) with (N.of_nat n0) in Heq by lia.
      lia.
    + destruct (IH ltac:(lia)) as (s & m & Hs & Hm & Hsm).
      exists s, m. split; [done|]. split; [lia | done].
Qed.

(** Up to [2^53] a number prints as its decimal numeral. *)
Lemma toString_safe x : x < 2 ^ 53 -> toString x = decimal x.
Proof.
  intros Hx. unfold toString. destruct (N.eqb_spec x 0) as [-> | Hx0]; [reflexivity|].
  pose proof (digitCount_bounds x ltac:(lia)) as [Hlo Hhi].
  assert (1 <= digitCount x <= 16)%nat as Hn.
  { split.
    - destruct (digitCount x); [simpl in Hhi; lia | lia].
    - destruct (Nat.le_gt_cases (digitCount x) 16) as [H | H]; [done|].
      assert (10 ^ 16 <= 10 ^ N.of_nat (digitCount x - 1)).
      { apply N.pow_le_mono_r; lia. }
      assert (2 ^ 53 < 10 ^ 16) by (vm_compute; reflexivity). lia. }
  destruct (shortest_safe x (digitCount x) (digitCount x - 1)) as (s & m & -> & Hm & Hs);
    [lia | done | lia |].
  rewrite (proj2 (Nat.leb_le _ 21)) by lia.
  replace (digitCount x - (digitCount x - m))%nat with m by lia.
  rewrite <- decimal_shift, Hs; [done|].
  destruct (N.eq_0_gt_0_cases s) as [-> | H]; [simpl in Hs; lia | done].
Qed.

End SafeIntegers.

Section ParseFacts.
Import Chars.
Local Open Scope N_scope.

Lemma leadingDigits_all ds : allDigits ds = true -> leadingDigits ds = ds.
Proof.
  unfold allDigits. induction ds as [|c ds IH]; simpl; [done|].
  intros [Hc Hds]%andb_true_iff. by rewrite Hc, IH.
Qed.

Lemma uint_of_digit c d :
  isDigit c = true ->
  exists d', DecimalString.uint_of_char c (Some d) = Some d' /\
             Decimal.unorm d' = (if Chars.eqb c "0" then Decimal.unorm d else d') /\
             NilEmpty.string_of_uint d' = String c (NilEmpty.string_of_uint d).
Proof.
  destruct c as [[] [] [] [] [] [] [] []]; try discriminate; intros _;
    eexists; (split; [reflexivity|]); split; reflexivity.
Qed.

Lemma string_of_uint_nonnil d :
  d <> Decimal.Nil -> NilZero.string_of_uint d = NilEmpty.string_of_uint d.
Proof. destruct d; [done | reflexivity..]. Qed.

Lemma uint_of_digits ds :
  allDigits ds = true ->
  exists d, NilEmpty.uint_of_string ds = Some d /\
            NilEmpty.string_of_uint d = ds /\
            (ds <> EmptyString ->
             NilZero.string_of_uint (Decimal.unorm d) = stripLeadingZeros ds).
Proof.
  unfold allDigits. induction ds as [|c ds IH]; simpl forallb.
  - intros _. exists Decimal.Nil. by repeat split.
  - intros [Hc Hds]%andb_true_iff. destruct (IH Hds) as (d & Hd & Hs & Hn).
    destruct (uint_of_digit c d Hc) as (d' & Hd' & Hn' & Hs').
    exists d'. cbn [NilEmpty.uint_of_string]. rewrite Hd, Hd', Hs', Hs.
    split; [done|]. split; [done|]. intros _. rewrite Hn'. cbn [stripLeadingZeros].
    destruct (Chars.eqb c "0") eqn:E.
    + destruct ds as [|c' ds']; [|by apply Hn].
      apply Chars_eqb_eq in E as ->. injection Hd as <-. reflexivity.
    + rewrite string_of_uint_nonnil, Hs', Hs; [done|]. intros ->. discriminate.
Qed.

(** Parsing then printing a run of digits strips its leading zeros. *)
Lemma decimal_digitsValue ds :
  ds <> EmptyString -> allDigits ds = true ->
  Double.decimal (digitsValue ds) = stripLeadingZeros ds.
Proof.
  intros Hne (d & Hd & _ & Hn)%uint_of_digits. unfold Double.decimal, digitsValue.
  rewrite Hd, DecimalN.Unsigned.to_of. by apply Hn.
Qed.

(** C7's parse-and-restringify, on the integers a double holds exactly. *)
Lemma String_of_parseInt10 ds :
  ds <> EmptyString -> allDigits ds = true -> digitsValue ds < 2 ^ 53 ->
  String_of (parseInt10 ds) = stripLeadingZeros ds.
Proof.
  intros Hne Hall Hv. unfold parseInt10. rewrite leadingDigits_all by done.
  destruct ds as [|c ds]; [done|].
  rewrite ofInteger_small by done.
  cbn [String_of]. rewrite toString_safe by done. by apply decimal_digitsValue.
Qed.
End ParseFacts.

Section PortPatternFacts.
Import RegExp Chars PortMapper.

Lemma matches_P c : matches true (lit "P") c = Chars.eqb (toLower c) "p".
Proof. by_cases c. Qed.
Lemma matches_o c : matches true (lit "o") c = Chars.eqb (toLower c) "o".
Proof. by_cases c. Qed.
Lemma matches_r c : matches true (lit "r") c = Chars.eqb (toLower c) "r".
Proof. by_cases c. Qed.
Lemma matches_t c : matches true (lit "t") c = Chars.eqb (toLower c) "t".
Proof. by_cases c. Qed.
Lemma matches_underscore c : matches true (lit "_") c = Chars.eqb (toLower c) "_".
Proof. by_cases c. Qed.
Lemma matches_hash c : matches true (lit "#") c = Chars.eqb (toLower c) "#".
Proof. by_cases c. Qed.

Lemma matchAt_port_inv i s res :
  matchAt portPattern i s = Some res ->
  exists seg d rest',
    s = seg ++ d :: rest' /\ map toLower seg = portWord /\ isDigit d = true.
Proof.
  unfold matchAt. cbn [portPattern source ignoreCase run rest endIndex capture].
  destruct s as [|c1 s]; [discriminate|].
  rewrite matches_P. destruct (Chars.eqb _ _) eqn:H1; [|discriminate].
  destruct s as [|c2 s]; [discriminate|].
  rewrite matches_o. destruct (Chars.eqb (toLower c2) _) eqn:H2; [|discriminate].
  destruct s as [|c3 s]; [discriminate|].
  rewrite matches_r. destruct (Chars.eqb (toLower c3) _) eqn:H3; [|discriminate].
  destruct s as [|c4 s]; [discriminate|].
  rewrite matches_t. destruct (Chars.eqb (toLower c4) _) eqn:H4; [|discriminate].
  destruct s as [|c5 s]; [discriminate|].
  rewrite matches_underscore. destruct (Chars.eqb (toLower c5) _) eqn:H5; [|discriminate].
  destruct s as [|c6 s]; [discriminate|].
  rewrite matches_hash. destruct (Chars.eqb (toLower c6) _) eqn:H6; [|discriminate].
  destruct (plus _ _ _ _ _ _) as [st|] eqn:Hp; [|discriminate]. intros _.
  apply plus_inv in Hp as (ds & post & -> & Hne & Hall & _).
  destruct ds as [|d ds]; [done|]. cbn [forallb] in Hall.
  apply andb_true_iff in Hall as [Hd _]. rewrite matches_digit in Hd.
  exists [c1; c2; c3; c4; c5; c6], d, (ds ++ post). split; [done|]. split; [|done].
  apply Chars_eqb_eq in H1, H2, H3, H4, H5, H6. simpl.
  by rewrite H1, H2, H3, H4, H5, H6.
Qed.

Lemma matchAt_port_intro i seg ds post :
  map toLower seg = portWord -> ds <> [] -> forallb isDigit ds = true ->
  match post with [] => True | c :: _ => isDigit c = false end ->
  exists res,
    matchAt portPattern i (seg ++ ds ++ post) = Some res /\
    group1 res = Some (string_of_list_ascii ds).
Proof.
  intros Hseg Hne Hall Hpost.
  destruct seg as [|c1 [|c2 [|c3 [|c4 [|c5 [|c6 [|c7 seg]]]]]]]; try discriminate.
  injection Hseg as H1 H2 H3 H4 H5 H6.
  unfold matchAt. cbn [portPattern source ignoreCase run rest endIndex capture app].
  rewrite matches_P, matches_o, matches_r, matches_t, matches_underscore, matches_hash.
  rewrite H1, H2, H3, H4, H5, H6. rewrite !Chars_eqb_refl. cbv iota.
  erewrite plus_greedy; [| done | | reflexivity |].
  - eexists. split; [reflexivity|]. cbn [group1 capture option_map]. do 2 f_equal.
    apply firstn_exact. cbn [endIndex]. lia.
  - by rewrite (forallb_eq _ _ ds matches_digit).
  - destruct post; [done|]. by rewrite matches_digit.
Qed.

End PortPatternFacts.

Section PortIndexTheorems.
Import RegExp Chars PortMapper.

Lemma length_list_ascii s : length (list_ascii_of_string s) = String.length s.
Proof. induction s as [|c s IH]; simpl; [done | by rewrite IH]. Qed.

Lemma toLowerCase_portWord segment :
  toLowerCase segment = "port_#" <->
  map toLower (list_ascii_of_string segment) = portWord.
Proof.
  unfold toLowerCase, portWord. split.
  - intros H. by rewrite <- H, list_ascii_of_string_of_list_ascii.
  - intros ->. reflexivity.
Qed.

Lemma matchAt_port_segment i s res location before :
  matchAt portPattern i s = Some res ->
  list_ascii_of_string location = list_ascii_of_string before ++ s ->
  exists segment d after, portSegmentAt location before segment d after.
Proof.
  intros (seg & d & rest' & -> & Hseg & Hd)%matchAt_port_inv Hloc.
  exists (string_of_list_ascii seg), d, (string_of_list_ascii rest').
  split; [|split; [|done]].
  - rewrite <- (string_of_list_ascii_of_string location), Hloc.
    rewrite string_of_list_app, string_of_list_ascii_of_string.
    by rewrite string_of_list_app.
  - apply toLowerCase_portWord. by rewrite list_ascii_of_string_of_list_ascii.
Qed.

Lemma extractPortIndex_leftmost before segment digits after :
  toLowerCase segment = "port_#" ->
  digits <> EmptyString -> allDigits digits = true ->
  startsWithDigit after = false ->
  (forall before' segment' d after',
     portSegmentAt (before +:+ segment +:+ digits +:+ after) before' segment' d after' ->
     String.length before <= String.length before') ->
  extractPortIndex (Some (before +:+ segment +:+ digits +:+ after))
    = Some (String_of (parseInt10 digits)).
Proof.
  intros Hseg%toLowerCase_portWord Hne Hall Hafter Hleft.
  set (location := before +:+ segment +:+ digits +:+ after) in *.
  assert (Hlist : list_ascii_of_string location =
            list_ascii_of_string before ++
            (list_ascii_of_string segment ++ list_ascii_of_string digits
               ++ list_ascii_of_string after)).
  { unfold location. by rewrite !list_ascii_app. }
  destruct (matchAt_port_intro (0 + length (list_ascii_of_string before))
              (list_ascii_of_string segment) (list_ascii_of_string digits)
              (list_ascii_of_string after)) as (res & Hres & Hg); try done.
  { destruct digits; [done | discriminate]. }
  { destruct after as [|c after]; [done | exact Hafter]. }
  unfold extractPortIndex.
  assert (falsy (Some location) = false) as ->.
  { apply falsy_Some. intros E. rewrite E in Hlist.
    destruct (list_ascii_of_string before); [|discriminate].
    destruct (list_ascii_of_string segment); discriminate. }
  unfold String_match, exec. rewrite Hlist.
  erewrite search_first; [| | exact Hres].
  - rewrite Hg. by rewrite string_of_list_ascii_of_string.
  - intros pre1 pre2 Hsplit Hpre2.
    match goal with |- ?m = None => destruct m as [res'|] eqn:Hm; [|done] end.
    exfalso.
    destruct (matchAt_port_segment _ _ _ location (string_of_list_ascii pre1) Hm)
      as (segment' & d & after' & Hat).
    { rewrite Hlist, Hsplit, list_ascii_of_string_of_list_ascii.
      by rewrite <- app_assoc. }
    apply Hleft in Hat. rewrite <- !length_list_ascii in Hat.
    rewrite Hsplit, list_ascii_of_string_of_list_ascii, length_app in Hat.
    destruct pre2; [done | simpl in Hat; lia].
Qed.

Lemma extractPortIndex_none location :
  (forall before segment d after, ~ portSegmentAt location before segment d after) ->
  extractPortIndex (Some location) = None.
Proof.
  intros Hno. unfold extractPortIndex. destruct (falsy (Some location)); [done|].
  unfold String_match, exec. rewrite search_none; [done|].
  intros pre post Hsplit.
  destruct (matchAt portPattern _ post) as [res|] eqn:Hm; [|done]. exfalso.
  destruct (matchAt_port_segment _ _ _ location (string_of_list_ascii pre) Hm)
    as (segment & d & after & Hat); [|by eapply Hno].
  by rewrite list_ascii_of_string_of_list_ascii.
Qed.

(** C7, as amended.  [extractPortIndex] is absent on an absent location
    and on a location that nowhere holds the letters of [Port_#], in any
    letter case, followed by a digit.  On a location whose leftmost such
    segment is followed by the run of digits [digits] (taken to its end),
    with a value below [2^53], it returns [digits] without its leading
    zeros: "Port_#0003" gives "3", "Port_#0000" gives "0", "Port_#42"
    gives "42". *)
Theorem extractPortIndex_spec :
  extractPortIndex None = None /\
  (forall location,
     (forall before segment d after, ~ portSegmentAt location before segment d after) ->
     extractPortIndex (Some location) = None) /\
  (forall before segment digits after,
     toLowerCase segment = "port_#" ->
     digits <> EmptyString -> allDigits digits = true ->
     startsWithDigit after = false ->
     (forall before' segment' d after',
        portSegmentAt (before +:+ segment +:+ digits +:+ after) before' segment' d after' ->
        String.length before <= String.length before') ->
     (digitsValue digits < 2 ^ 53)%N ->
     extractPortIndex (Some (before +:+ segment +:+ digits +:+ after))
       = Some (stripLeadingZeros digits)) /\
  extractPortIndex (Some "Port_#0003") = Some "3" /\
  extractPortIndex (Some "Port_#0000") = Some "0" /\
  extractPortIndex (Some "Port_#42") = Some "42".
Proof.
  split; [reflexivity|]. split; [exact extractPortIndex_none|]. split.
  - intros before segment digits after Hseg Hne Hall Hafter Hleft Hv.
    rewrite extractPortIndex_leftmost by done.
    by rewrite String_of_parseInt10.
  - repeat split; vm_compute; reflexivity.
Qed.

(** Against C7 as stated: ["port_#7"] nowhere holds [Port_#], and still
    has a port index. *)
Lemma extractPortIndex_case_insensitive :
  (forall before after, "port_#7" <> before +:+ "Port_#" +:+ after) /\
  extractPortIndex (Some "port_#7") = Some "7".
Proof.
  split; [|vm_compute; reflexivity].
  intros before after E. apply (f_equal list_ascii_of_string) in E.
  rewrite !list_ascii_app in E.
  assert (In "P"%char (list_ascii_of_string "port_#7")) as Hin.
  { rewrite E. apply in_or_app. right. left. reflexivity. }
  simpl in Hin. repeat (destruct Hin as [Hin | Hin]; [discriminate|]). done.
Qed.

(** C3.  The key produced for a location whose port index has 22 digits
    does not match the key pattern of the store: [extractPortIndex] returns
    "1e+21", [normalizeLocation] returns "9&238498F1|1e+21", which
    [addMapping] accepts and stores, and which [validate] then rejects as a
    malformed key. *)
Theorem long_port_index_key_rejected :
  let location := Some "Port_#1000000000000000000000" in
  let parent := Some "USB\VID_2109&PID_0822\9&238498F1&0&3" in
  let key := "9&238498F1|1e+21" in
  extractPortIndex location = Some "1e+21" /\
  normalizeLocation location parent = Some key /\
  RegExp.test Store.keyPattern key = false /\
  (addMapping (constructor None) location parent (JS.ofZ 1)).1 = JS.Return key /\
  Store.validate (JS.Object [("version", JS.Str "1.0");
                             ("mappings", JS.Object [(key, JS.ofZ 1)])])
    = JS.Throw (Store.InvalidKeyFormat key).
Proof. repeat split; vm_compute; reflexivity. Qed.

End PortIndexTheorems.

Section KeyFacts.
Import RegExp Chars PortMapper.

Lemma isUpperHex_isHexDigit c : isUpperHex c = true -> isHexDigit c = true.
Proof. unfold isUpperHex, isHexDigit. intros H. by rewrite H. Qed.

(** A key whose port index printed as plain digits passes the store's
    pattern. *)
Lemma normalizeLocation_key_valid location parent key i :
  normalizeLocation location parent = Some key ->
  extractPortIndex location = Some i -> allDigits i = true ->
  RegExp.test Store.keyPattern key = true.
Proof.
  intros Hn Hi Hall. pose proof Hn as (c & i' & Hc & Hi' & ->)%normalizeLocation_shape.
  rewrite Hi in Hi'. injection Hi' as <-.
  destruct (extractChipPrefix_shape _ _ Hc) as (ds & hx & -> & Hds & Hdsd & Hhx & Hhxd).
  apply keyPattern_test. exists ds, hx, (list_ascii_of_string i).
  split; [|repeat split; try done].
  - rewrite <- (string_of_list_ascii_of_string i) at 1.
    change "|" with (string_of_list_ascii ["|"%char]).
    rewrite <- !string_of_list_app. f_equal. rewrite <- app_assoc. reflexivity.
  - revert Hhxd. apply forallb_impl, isUpperHex_isHexDigit.
  - intros E. unfold normalizeLocation in Hn. rewrite Hc, Hi in Hn.
    destruct i; [|discriminate]. simpl in Hn. rewrite orb_true_r in Hn. discriminate.
Qed.

Lemma stripLeadingZeros_digits ds :
  allDigits ds = true -> allDigits (stripLeadingZeros ds) = true.
Proof.
  unfold allDigits. induction ds as [|c ds IH]; [done|].
  intros H. pose proof H as [Hc Hds]%andb_true_iff. cbn [stripLeadingZeros].
  destruct (Chars.eqb c "0"); [|done]. destruct ds; [done | by apply IH].
Qed.

(** On the port indexes a double holds exactly, the key that
    [normalizeLocation] produces does pass the store's pattern. *)
Lemma normalizeLocation_safe_key_valid before segment digits after parent key :
  toLowerCase segment = "port_#" ->
  digits <> EmptyString -> allDigits digits = true ->
  startsWithDigit after = false ->
  (forall before' segment' d after',
     portSegmentAt (before +:+ segment +:+ digits +:+ after) before' segment' d after' ->
     String.length before <= String.length before') ->
  (digitsValue digits < 2 ^ 53)%N ->
  normalizeLocation (Some (before +:+ segment +:+ digits +:+ after)) parent = Some key ->
  RegExp.test Store.keyPattern key = true.
Proof.
  intros Hseg Hne Hall Hafter Hleft Hv Hn.
  eapply normalizeLocation_key_valid; [exact Hn | |].
  - rewrite extractPortIndex_leftmost by done. by rewrite String_of_parseInt10.
  - by apply stripLeadingZeros_digits.
Qed.

(** What a validated document holds makes a mapper whose values are all
    port numbers. *)
Lemma validated_mappings_are_ports data es :
  Store.validate data = JS.Return true ->
  Store.field data "mappings" = JS.Object es ->
  map_Forall (fun _ v => isPortNumber v) (list_to_map es : gmap string JS.value).
Proof.
  intros (ps & -> & _ & [(es' & He & Hall) | He])%validate_valid Hes;
    rewrite He in Hes; [|discriminate].
  injection Hes as ->. intros k v Hkv%elem_of_list_to_map_2.
  rewrite Forall_forall in Hall. by destruct (Hall _ Hkv).
Qed.
End KeyFacts.

Section Witnesses.
Import PortMapper.

Lemma isPortNumber_ofZ z : (1 <= z <= 7)%Z -> isPortNumber (JS.ofZ z).
Proof. intros H. exists z. split; [done|]. eexists. split; reflexivity. Qed.

(** C5 at work: port 5 remapped to port 3 under the key of the end-to-end
    scenario. *)
Lemma addMapping_overwrites_witness :
  let this := {| mappings := {[ "9&238498F1|2" := JS.ofZ 5 ]} |} in
  let location := Some "Port_#0002.Hub_#0008" in
  let parent := Some "USB\VID_2109&PID_0822\9&238498F1&0&3" in
  let r := addMapping this location parent (JS.ofZ 3) in
  r.1 = JS.Return "9&238498F1|2" /\
  mappings r.2 !! "9&238498F1|2" = Some (JS.ofZ 3) /\
  getMappingCount r.2 = getMappingCount this.
Proof.
  intros this location parent r.
  destruct (addMapping_overwrites this location parent "9&238498F1|2" (JS.ofZ 5) (JS.ofZ 3))
    as (H1 & H2 & H3 & _).
  - vm_compute. reflexivity.
  - apply lookup_singleton_eq.
  - apply isPortNumber_ofZ. lia.
  - exact (conj H1 (conj H2 H3)).
Defined.

(** C10 at work on the mapping of the end-to-end scenario. *)
Lemma lookups_agree_witness :
  let this := {| mappings := {[ "9&238498F1|2" := JS.ofZ 5 ]} |} in
  let location := Some "Port_#0002.Hub_#0008" in
  let parent := Some "USB\VID_2109&PID_0822\9&238498F1&0&3" in
  map_Forall (fun _ v => isPortNumber v) (mappings this) /\
  (getPhysicalPort this location parent <> JS.Null <->
     hasMapping this location parent = true) /\
  getExistingPort this location parent = getPhysicalPort this location parent.
Proof.
  intros this location parent.
  assert (map_Forall (fun _ v => isPortNumber v) (mappings this)) as Hall.
  { apply map_Forall_singleton, isPortNumber_ofZ. lia. }
  split; [exact Hall|].
  destruct (lookups_agree this location parent Hall) as (H1 & H2 & _).
  exact (conj H1 H2).
Defined.

(** C7 at work on the location of a drive report. *)
Lemma extractPortIndex_spec_witness :
  extractPortIndex (Some ("" +:+ "Port_#" +:+ "0003" +:+ ".Hub_#0008")) = Some "3".
Proof.
  apply (proj1 (proj2 (proj2 extractPortIndex_spec)) EmptyString "Port_#" "0003" ".Hub_#0008").
  - reflexivity.
  - discriminate.
  - reflexivity.
  - reflexivity.
  - intros. simpl. lia.
  - vm_compute. reflexivity.
Defined.

(** C8 at work: the same chain with the hexadecimal part in lower and in
    upper case. *)
Lemma extractChipPrefix_case_normalizing_witness :
  extractChipPrefix (Some "USB\VID_2109&PID_0822\9&238498f1&0&3")
    = extractChipPrefix (Some "USB\VID_2109&PID_0822\9&238498F1&0&3") /\
  toUpperCase "9&238498F1" = "9&238498F1" /\
  extractChipPrefix (Some "9&238498F1") = None.
Proof.
  split.
  - apply (proj1 extractChipPrefix_case_normalizing). reflexivity.
  - apply (proj2 extractChipPrefix_case_normalizing
             (Some "USB\VID_2109&PID_0822\9&238498F1&0&3")).
    vm_compute. reflexivity.
Defined.
End Witnesses.

(* ===================================================================== *)
(** * Further properties of the mapper, the store, the scanner and the
      commands *)
(* ===================================================================== *)

Section KeyStructure.
Import RegExp Chars PortMapper.

Lemma decimal_nonempty n : Double.decimal n <> EmptyString.
Proof.
  unfold Double.decimal.
  assert (N.to_uint n <> Decimal.Nil) as H.
  { destruct n; [discriminate|]. apply DecimalPos.Unsigned.to_uint_nonnil. }
  rewrite string_of_uint_nonnil by done.
  destruct (N.to_uint n); [done | discriminate..].
Qed.

Lemma toString_nonempty x : Double.toString x <> EmptyString.
Proof.
  unfold Double.toString. destruct (x =? 0)%N; [discriminate|].
  destruct (Double.shortest _ _ _) as [[s k] n].
  pose proof (decimal_nonempty s) as Hs.
  destruct (Double.decimal s) as [|d ds]; [done|].
  destruct (n <=? 21)%nat; [discriminate|]. destruct (k =? 1)%nat; discriminate.
Qed.

Lemma extractPortIndex_nonempty location i :
  extractPortIndex location = Some i -> i <> EmptyString.
Proof.
  unfold extractPortIndex. destruct location as [l|]; [|discriminate].
  destruct (falsy (Some l)); [discriminate|].
  destruct (String_match l portPattern) as [m|]; [|discriminate].
  destruct (group1 m) as [ds|]; [|discriminate]. intros [= <-].
  destruct (parseInt10 ds); [discriminate | discriminate | apply toString_nonempty].
Qed.

(** X1.  [normalizeLocation] is absent exactly when one of the two
    extractions is absent; otherwise it is the chip prefix, ['|'] and the
    port index.  The truthiness tests of the source reject nothing else:
    neither extraction ever returns the empty string, and the port index
    ["0"] is kept. *)
Theorem normalizeLocation_both (location parent : option string) :
  (normalizeLocation location parent = None <->
     extractChipPrefix parent = None \/ extractPortIndex location = None) /\
  (forall chip index,
     extractChipPrefix parent = Some chip -> extractPortIndex location = Some index ->
     normalizeLocation location parent = Some (chip +:+ "|" +:+ index)) /\
  normalizeLocation (Some "Port_#0000") (Some "\0&0&") = Some "0&0|0".
Proof.
  assert (forall chip index,
     extractChipPrefix parent = Some chip -> extractPortIndex location = Some index ->
     normalizeLocation location parent = Some (chip +:+ "|" +:+ index)) as Hboth.
  { intros chip index Hc Hi. unfold normalizeLocation. rewrite Hc, Hi.
    pose proof (extractChipPrefix_chars _ _ Hc) as [Hne _].
    pose proof (extractPortIndex_nonempty _ _ Hi) as Hni.
    by rewrite (proj2 (falsy_Some chip) Hne), (proj2 (falsy_Some index) Hni). }
  split; [|split; [exact Hboth | vm_compute; reflexivity]].
  split.
  - intros Hn. destruct (extractChipPrefix parent) as [c|] eqn:Hc; [|by left].
    destruct (extractPortIndex location) as [i|] eqn:Hi; [|by right].
    rewrite (Hboth c i eq_refl eq_refl) in Hn. discriminate.
  - intros H. apply normalizeLocation_None. destruct H as [-> | ->]; [by left | by right].
Qed.

(** A text without ['|'] before a ['|'] is recovered from the whole. *)
Lemma bar_split_unique (a a' b b' : string) :
  hasBar a = false -> hasBar a' = false ->
  a +:+ "|" +:+ b = a' +:+ "|" +:+ b' -> a = a' /\ b = b'.
Proof.
  revert a'. induction a as [|x a IH]; intros a' Ha Ha' E.
  - destruct a' as [|y a']; [by injection E|].
    rewrite string_app_nil_l, !string_app_cons in E. injection E as <- _.
    unfold hasBar in Ha'. simpl in Ha'. discriminate.
  - destruct a' as [|y a'].
    + rewrite string_app_nil_l, !string_app_cons in E. injection E as -> _.
      unfold hasBar in Ha. simpl in Ha. discriminate.
    + rewrite !string_app_cons in E. injection E as -> E.
      unfold hasBar in Ha, Ha'. simpl in Ha, Ha'.
      apply orb_false_iff in Ha as [_ Ha]. apply orb_false_iff in Ha' as [_ Ha'].
      destruct (IH a' Ha Ha' E) as [-> ->]. done.
Qed.

Lemma chip_hasBar parent chip : extractChipPrefix parent = Some chip -> hasBar chip = false.
Proof.
  intros [_ Hall]%extractChipPrefix_chars. unfold hasBar.
  induction (list_ascii_of_string chip) as [|c l IH]; [done|].
  simpl in *. apply andb_true_iff in Hall as [Hc Hl].
  rewrite (IH Hl), orb_false_r. apply chipChar_not_bar in Hc.
  unfold Chars.eqb in *. by rewrite N.eqb_sym.
Qed.

(** X2.  A key tells its two parts apart: two reports that are
    given the same key have the same chip prefix and the same port
    index. *)
Theorem key_determines_parts (location location' parent parent' : option string)
        (key : string) :
  normalizeLocation location parent = Some key ->
  normalizeLocation location' parent' = Some key ->
  extractChipPrefix parent = extractChipPrefix parent' /\
  extractPortIndex location = extractPortIndex location'.
Proof.
  intros (c & i & Hc & Hi & ->)%normalizeLocation_shape
         (c' & i' & Hc' & Hi' & E)%normalizeLocation_shape.
  rewrite Hc, Hc', Hi, Hi'.
  destruct (bar_split_unique c c' i i') as [-> ->]; eauto using chip_hasBar.
Qed.

End KeyStructure.

Section CaseStability.
Import RegExp Chars PortMapper.

Lemma isDigit_toUpper c : isDigit (toUpper c) = isDigit c.
Proof. by_cases c. Qed.

Lemma leadingDigits_upcase s : leadingDigits (toUpperCase s) = leadingDigits s.
Proof.
  unfold toUpperCase. induction s as [|c s IH]; [reflexivity|].
  simpl. rewrite isDigit_toUpper. destruct (isDigit c) eqn:Hc; [|reflexivity].
  by rewrite (toUpper_digit c Hc), IH.
Qed.

Lemma parseInt10_upcase s : parseInt10 (toUpperCase s) = parseInt10 s.
Proof. unfold parseInt10. by rewrite leadingDigits_upcase. Qed.

Lemma extractPortIndex_upcase l :
  extractPortIndex (Some (toUpperCase l)) = extractPortIndex (Some l).
Proof.
  unfold extractPortIndex, falsy.
  destruct (String.eqb_spec l EmptyString) as [-> | Hl]; [reflexivity|].
  destruct (String.eqb_spec (toUpperCase l) EmptyString) as [He | _].
  { apply (proj1 (toUpperCase_empty l)) in He. contradiction. }
  unfold String_match, exec, toUpperCase at 1.
  rewrite list_ascii_of_string_of_list_ascii.
  pose proof (search_upcase portPattern 0 (list_ascii_of_string l) eq_refl) as H.
  fold (upcase (list_ascii_of_string l)).
  destruct (search portPattern 0 (list_ascii_of_string l)) as [a|],
           (search portPattern 0 (upcase (list_ascii_of_string l))) as [b|]; try done.
  destruct H as [_ ->]. destruct (group1 a); simpl; [|done].
  by rewrite parseInt10_upcase.
Qed.

(** X3.  Letter case never changes the key: two reports whose
    locations and whose parents are equal up to letter case are given the
    same key, or both none. *)
Theorem normalizeLocation_ignores_case (l1 l2 p1 p2 : string) :
  toUpperCase l1 = toUpperCase l2 -> toUpperCase p1 = toUpperCase p2 ->
  normalizeLocation (Some l1) (Some p1) = normalizeLocation (Some l2) (Some p2).
Proof.
  intros Hl Hp. unfold normalizeLocation.
  rewrite <- (extractChipPrefix_upcase p1), <- (extractPortIndex_upcase l1), Hl, Hp.
  by rewrite extractChipPrefix_upcase, extractPortIndex_upcase.
Qed.

End CaseStability.

Section InsertLookup.
Import PortMapper.

(** The shape of a result of [addMapping]. *)
Lemma addMapping_cases (this : t) (location parent : option string) (port : JS.value) :
  (exists key,
     normalizeLocation location parent = Some key /\ JS.notPort port = false /\
     addMapping this location parent port
       = (JS.Return key, {| mappings := <[key := port]> (mappings this) |})) \/
  (exists e, addMapping this location parent port = (JS.Throw e, this)).
Proof.
  unfold addMapping. destruct (normalizeLocation location parent) as [key|] eqn:Hn.
  - rewrite (normalizeLocation_truthy _ _ _ Hn).
    destruct (JS.notPort port) eqn:Hp; [right; eauto|].
    left. exists key. rewrite set_insert by (by eapply normalizeLocation_bar). done.
  - right. simpl. eauto.
Qed.

(** X4.  What [addMapping] stored is what the lookups find under
    the same location and parent, and the lookups of every location that
    has another key answer as before. *)
Theorem addMapping_then_lookup (this : t) (location parent : option string)
        (port : JS.value) (key : string) :
  (addMapping this location parent port).1 = JS.Return key ->
  let this' := (addMapping this location parent port).2 in
  getPhysicalPort this' location parent = port /\
  getExistingPort this' location parent = port /\
  hasMapping this' location parent = true /\
  (forall location' parent',
     normalizeLocation location' parent' <> Some key ->
     getPhysicalPort this' location' parent' = getPhysicalPort this location' parent' /\
     getExistingPort this' location' parent' = getExistingPort this location' parent' /\
     hasMapping this' location' parent' = hasMapping this location' parent').
Proof.
  destruct (addMapping_cases this location parent port)
    as [(key' & Hn & Hp & ->) | (e & ->)]; [|discriminate].
  intros [= ->]. cbn [snd].
  pose proof (normalizeLocation_bar _ _ _ Hn) as Hbar.
  pose proof (normalizeLocation_truthy _ _ _ Hn) as Htr.
  pose proof Hp as Ht%notPort_truthy.
  unfold getPhysicalPort, getExistingPort, hasMapping. cbn [mappings].
  rewrite Hn, Htr, get_own, has_own, lookup_insert_eq by done. simpl.
  unfold JS.or. rewrite Ht.
  split; [done|]. split; [done|]. split; [done|].
  intros location' parent' Hne.
  destruct (normalizeLocation location' parent') as [k'|] eqn:Hn'; [|done].
  rewrite (normalizeLocation_truthy _ _ _ Hn').
  pose proof (normalizeLocation_bar _ _ _ Hn') as Hbar'.
  rewrite !get_own, !has_own by done.
  rewrite lookup_insert_ne by congruence. done.
Qed.

(** X5.  [addMapping] adds at most one entry and removes none: the
    count grows by one for a new key and stays otherwise, a calibrated
    mapper stays calibrated, and a key that was stored stays stored. *)
Theorem addMapping_count (this : t) (location parent : option string)
        (port : JS.value) :
  let r := addMapping this location parent port in
  getMappingCount this <= getMappingCount r.2 <= S (getMappingCount this) /\
  (isCalibrated this = true -> isCalibrated r.2 = true) /\
  (forall key, r.1 = JS.Return key -> mappings this !! key = None ->
     getMappingCount r.2 = S (getMappingCount this)) /\
  (forall k v, mappings this !! k = Some v -> is_Some (mappings r.2 !! k)).
Proof.
  intros r. subst r. unfold getMappingCount, isCalibrated. rewrite !length_keys.
  destruct (addMapping_cases this location parent port)
    as [(key & Hn & Hp & ->) | (e & ->)]; cbn [fst snd mappings].
  - rewrite map_size_insert.
    destruct (mappings this !! key) as [old|] eqn:Hk; unfold id.
    + split; [lia|]. split; [done|]. split; [intros k0 [= <-] H0; congruence|].
      intros k v Hkv. destruct (decide (key = k)) as [-> | Hne].
      * rewrite lookup_insert_eq. eauto.
      * rewrite lookup_insert_ne by done. eauto.
    + split; [lia|]. split.
      { intros H%Nat.leb_le. apply Nat.leb_le. lia. }
      split; [intros ? [= <-] _; done|].
      intros k v Hkv. destruct (decide (key = k)) as [-> | Hne].
      * rewrite lookup_insert_eq. eauto.
      * rewrite lookup_insert_ne by done. eauto.
  - split; [lia|]. split; [done|]. split; [discriminate|]. eauto.
Qed.

End InsertLookup.

Section ChipOccurrence.
Import RegExp Chars PortMapper.

Lemma search_inv_first re i s res :
  search re i s = Some res ->
  exists pre post,
    s = pre ++ post /\ matchAt re (i + length pre) post = Some res /\
    forall pre1 pre2, pre = pre1 ++ pre2 -> pre2 <> [] ->
      matchAt re (i + length pre1) (pre2 ++ post) = None.
Proof.
  revert i. induction s as [|c s IH]; intros i H; simpl in H.
  - destruct (matchAt re i []) eqn:Hm; [|discriminate].
    exists [], []. simpl. rewrite Nat.add_0_r, Hm. split; [done|]. split; [done|].
    intros pre1 pre2 E. by destruct pre1, pre2.
  - destruct (matchAt re i (c :: s)) eqn:Hm.
    + exists [], (c :: s). simpl. rewrite Nat.add_0_r, Hm. split; [done|]. split; [done|].
      intros pre1 pre2 E. by destruct pre1, pre2.
    + destruct (IH _ H) as (pre & post & -> & Hp & Hnone).
      exists (c :: pre), post. simpl. rewrite <- Nat.add_succ_comm.
      split; [done|]. split; [done|].
      intros pre1 pre2 E Hne. destruct pre1 as [|x pre1].
      * simpl in *. subst pre2. by rewrite Nat.add_0_r.
      * injection E as -> ->. simpl. rewrite <- Nat.add_succ_comm. by apply Hnone.
Qed.

Lemma search_some re i pre post res :
  matchAt re (i + length pre) post = Some res -> is_Some (search re i (pre ++ post)).
Proof.
  revert i. induction pre as [|c pre IH]; intros i H.
  - simpl in *. rewrite Nat.add_0_r in H. rewrite (search_here _ _ _ _ H). eauto.
  - simpl. destruct (matchAt re i (c :: pre ++ post)); [eauto|].
    apply IH. simpl in H. by rewrite <- Nat.add_succ_comm in H.
Qed.

Lemma matches_hex_amp : matches true [("A", "F"); ("0", "9")]%char "&" = false.
Proof. reflexivity. Qed.

Lemma matchAt_chip_intro i ds hx post :
  ds <> [] -> forallb isDigit ds = true -> hx <> [] -> forallb isHexDigit hx = true ->
  exists res,
    matchAt chipPattern i ("\"%char :: ds ++ "&"%char :: hx ++ "&"%char :: post) = Some res /\
    group1 res = Some (string_of_list_ascii (ds ++ "&"%char :: hx)).
Proof.
  intros Hds Hdsd Hhx Hhxd.
  rewrite <- (forallb_eq _ _ ds matches_digit) in Hdsd.
  rewrite <- (forallb_eq _ _ hx matches_hex) in Hhxd.
  unfold matchAt. cbn [chipPattern source ignoreCase run rest endIndex capture].
  change (matches true (lit "\") "\") with true. cbv iota.
  rewrite (plus_greedy true digit (S i) ds ("&"%char :: hx ++ "&"%char :: post) None _
             {| endIndex := S (S (S i + length ds) + length hx); rest := post;
                capture := Some (ds ++ "&"%char :: hx) |}); [| done | done | | reflexivity].
  - eexists. split; reflexivity.
  - cbn [run rest endIndex capture]. change (matches true (lit "&") "&") with true. cbv iota.
    rewrite (plus_greedy true _ (S (S i + length ds)) hx ("&"%char :: post) None _
               {| endIndex := S (S (S i + length ds) + length hx); rest := post;
                  capture := Some (ds ++ "&"%char :: hx) |}); [done | done | done | | reflexivity].
    cbn [run rest endIndex capture].
    change (matches true (lit "&") "&") with true. cbv iota.
    do 3 f_equal.
    change (ds ++ "&"%char :: hx ++ "&"%char :: post)
      with (ds ++ ("&"%char :: hx) ++ "&"%char :: post).
    rewrite app_assoc. apply firstn_exact.
    rewrite length_app. simpl. lia.
Qed.

End ChipOccurrence.

Section ChipLeftmost.
Import RegExp Chars PortMapper.

Lemma string_nonempty_list s : s <> EmptyString <-> list_ascii_of_string s <> [].
Proof. destruct s; simpl; split; congruence. Qed.

Lemma chipSegmentAt_list parent before digits hex after :
  parent = before +:+ "\" +:+ digits +:+ "&" +:+ hex +:+ "&" +:+ after <->
  list_ascii_of_string parent =
    list_ascii_of_string before ++ "\"%char :: list_ascii_of_string digits
      ++ "&"%char :: list_ascii_of_string hex ++ "&"%char :: list_ascii_of_string after.
Proof.
  split.
  - intros ->. by rewrite !list_ascii_app.
  - intros H. rewrite <- (string_of_list_ascii_of_string parent), H.
    change ("\"%char :: list_ascii_of_string digits ++ "&"%char :: list_ascii_of_string hex
              ++ "&"%char :: list_ascii_of_string after)
      with (list_ascii_of_string "\" ++ list_ascii_of_string digits
              ++ list_ascii_of_string "&" ++ list_ascii_of_string hex
              ++ list_ascii_of_string "&" ++ list_ascii_of_string after).
    by rewrite !string_of_list_app, !string_of_list_ascii_of_string.
Qed.

(** A segment at [before] makes the pattern match there. *)
Lemma chipSegmentAt_matchAt parent before digits hex after i :
  chipSegmentAt parent before digits hex after ->
  exists post res,
    list_ascii_of_string parent = list_ascii_of_string before ++ post /\
    matchAt chipPattern i post = Some res.
Proof.
  intros (Hp%chipSegmentAt_list & Hd%string_nonempty_list & Hdd
          & Hh%string_nonempty_list & Hhd).
  destruct (matchAt_chip_intro i _ _ (list_ascii_of_string after) Hd Hdd Hh Hhd)
    as (res & Hres & _).
  eauto.
Qed.

(** X6.  The prefix [extractChipPrefix] returns is the upper case
    of the digits, ['&'] and hexadecimal digits of the leftmost segment of
    the parent made of a backslash, digits, ['&'], hexadecimal digits and
    ['&']; it returns nothing exactly when the parent holds no such
    segment. *)
Theorem extractChipPrefix_leftmost (parent : string) :
  (forall chip,
     extractChipPrefix (Some parent) = Some chip ->
     exists before digits hex after,
       chipSegmentAt parent before digits hex after /\
       chip = toUpperCase (digits +:+ "&" +:+ hex) /\
       forall before' digits' hex' after',
         chipSegmentAt parent before' digits' hex' after' ->
         String.length before <= String.length before') /\
  (extractChipPrefix (Some parent) = None <->
     forall before digits hex after, ~ chipSegmentAt parent before digits hex after).
Proof.
  split.
  - intros chip. unfold extractChipPrefix.
    destruct (falsy (Some parent)); [discriminate|].
    unfold String_match, exec.
    destruct (search chipPattern 0 (list_ascii_of_string parent)) as [m|] eqn:Hs;
      [|discriminate].
    apply search_inv_first in Hs as (pre & post & Hsplit & Hm & Hnone).
    pose proof Hm as (ds & hx & post' & -> & Hds & Hdsd & Hhx & Hhxd & Hg)%matchAt_chip_inv.
    rewrite Hg. intros [= <-].
    exists (string_of_list_ascii pre), (string_of_list_ascii ds),
           (string_of_list_ascii hx), (string_of_list_ascii post').
    split; [|split].
    + split; [|unfold allDigits, allHexDigits;
               rewrite !list_ascii_of_string_of_list_ascii;
               repeat split; try done; by apply string_nonempty_list;
               rewrite list_ascii_of_string_of_list_ascii].
      apply chipSegmentAt_list. by rewrite !list_ascii_of_string_of_list_ascii.
    + f_equal. change "&" with (string_of_list_ascii ["&"%char]).
      by rewrite <- !string_of_list_app.
    + intros before' digits' hex' after' Hseg.
      rewrite <- !length_list_ascii, list_ascii_of_string_of_list_ascii.
      destruct (Nat.le_gt_cases (length pre) (length (list_ascii_of_string before')))
        as [Hle | Hgt]; [done|]. exfalso.
      destruct (chipSegmentAt_matchAt _ _ _ _ _
                  (0 + length (list_ascii_of_string before')) Hseg)
        as (post2 & res & Hp2 & Hm2).
      rewrite Hsplit in Hp2.
      apply app_eq_inv in Hp2 as [(k & Hk & ->) | (k & Hk & Hk')].
      * rewrite (Hnone (list_ascii_of_string before') k Hk) in Hm2; [discriminate|].
        intros ->. rewrite app_nil_r in Hk. rewrite Hk in Hgt. lia.
      * rewrite Hk, length_app in Hgt. lia.
  - split.
    + intros Hnone before digits hex after Hseg.
      destruct (chipSegmentAt_matchAt _ _ _ _ _
                  (0 + length (list_ascii_of_string before)) Hseg)
        as (post & res & Hp & Hm).
      destruct (search_some _ _ _ _ _ Hm) as [m Hsm].
      pose proof Hm as (ds & hx & post' & _ & _ & _ & _ & _ & Hg)%matchAt_chip_inv.
      unfold extractChipPrefix in Hnone.
      assert (falsy (Some parent) = false) as Hf.
      { apply falsy_Some. intros ->. simpl in Hp.
        destruct (list_ascii_of_string before); [|discriminate].
        simpl in Hp. subst post. simpl in Hm. discriminate. }
      rewrite Hf in Hnone. unfold String_match, exec in Hnone. rewrite Hp, Hsm in Hnone.
      apply search_inv in Hsm as (pre3 & post3 & _ & Hm3).
      apply matchAt_chip_inv in Hm3 as (? & ? & ? & _ & _ & _ & _ & _ & Hg3).
      rewrite Hg3 in Hnone. discriminate.
    + intros Hno. destruct (extractChipPrefix (Some parent)) as [chip|] eqn:He; [|done].
      exfalso. unfold extractChipPrefix in He.
      destruct (falsy (Some parent)); [discriminate|].
      unfold String_match, exec in He.
      destruct (search chipPattern 0 (list_ascii_of_string parent)) as [m|] eqn:Hs;
        [|discriminate].
      apply search_inv in Hs as (pre & post & Hsplit & Hm).
      apply matchAt_chip_inv in Hm as (ds & hx & post' & -> & Hds & Hdsd & Hhx & Hhxd & Hg).
      apply (Hno (string_of_list_ascii pre) (string_of_list_ascii ds)
                 (string_of_list_ascii hx) (string_of_list_ascii post')).
      split; [|unfold allDigits, allHexDigits;
               rewrite !list_ascii_of_string_of_list_ascii;
               repeat split; try done; by apply string_nonempty_list;
               rewrite list_ascii_of_string_of_list_ascii].
      apply chipSegmentAt_list. by rewrite !list_ascii_of_string_of_list_ascii.
Qed.

End ChipLeftmost.

Section ExponentNotation.
Import Double.
Local Open Scope N_scope.

(** Rounding keeps a value from [10^21] on at or above [10^21], which is
    itself a double. *)
Lemma ofInteger_ge_1e21 v x : 10 ^ 21 <= v -> ofInteger v = IntFinite x -> 10 ^ 21 <= x.
Proof.
  intros Hv. unfold ofInteger.
  assert (2 ^ 53 <= v) as H53.
  { etransitivity; [|exact Hv]. vm_compute. discriminate. }
  rewrite (proj2 (N.ltb_ge _ _) H53).
  set (e := N.log2 v - 52). set (q := v / 2 ^ e).
  assert (69 <= N.log2 v) as Hlog.
  { change 69 with (N.log2 (10 ^ 21)). by apply N.log2_le_mono. }
  assert (10 ^ 21 <= q * 2 ^ e) as Hq.
  { destruct (N.eq_dec (N.log2 v) 69) as [E | E].
    - assert (e = 17) as -> by (unfold e; lia).
      assert (7629394531250000 <= q).
      { unfold q. change 7629394531250000 with (10 ^ 21 / 2 ^ 17).
        apply N.Div0.div_le_mono. done. }
      change (10 ^ 21) with (7629394531250000 * 2 ^ 17).
      apply N.mul_le_mono_r. done.
    - assert (2 ^ 52 <= q).
      { unfold q. apply N.div_le_lower_bound; [apply N.pow_nonzero; lia|].
        rewrite N.mul_comm, <- N.pow_add_r. replace (52 + e) with (N.log2 v) by lia.
        apply N.log2_spec. lia. }
      assert (2 ^ 70 <= 2 ^ 52 * 2 ^ e).
      { rewrite <- N.pow_add_r. apply N.pow_le_mono_r; lia. }
      assert (10 ^ 21 <= 2 ^ 70) by (vm_compute; discriminate).
      assert (2 ^ 52 * 2 ^ e <= q * 2 ^ e) by (apply N.mul_le_mono_r; done).
      lia. }
  destruct (_ || _); (destruct (_ <? 2 ^ 1024); [|discriminate]); intros [= <-]; [|done].
  etransitivity; [exact Hq|]. apply N.mul_le_mono_r. lia.
Qed.

Lemma shortest_n x n0 j :
  let '(s, k, n) := shortest x n0 j in n = n0 \/ n = S n0.
Proof.
  induction j as [|j IH]; cbn [shortest];
    repeat match goal with
           | |- context [if ?b then _ else _] => destruct b
           end; auto.
Qed.

(** From [10^21] on a number prints with an exponent. *)
Lemma toString_exponent x : 10 ^ 21 <= x -> allDigits (toString x) = false.
Proof.
  intros Hx. unfold toString.
  assert (0 < x) as Hpos.
  { assert (0 < 10 ^ 21) by (vm_compute; reflexivity). lia. }
  rewrite (proj2 (N.eqb_neq x 0)) by lia.
  pose proof (digitCount_bounds x Hpos) as [_ Hhi].
  assert (21 < digitCount x)%nat as Hn0.
  { destruct (Nat.le_gt_cases (digitCount x) 21) as [H | H]; [|done].
    assert (10 ^ N.of_nat (digitCount x) <= 10 ^ 21) by (apply N.pow_le_mono_r; lia).
    lia. }
  pose proof (shortest_n x (digitCount x) (digitCount x - 1)) as Hn.
  destruct (shortest _ _ _) as [[s k] n].
  rewrite (proj2 (Nat.leb_gt n 21)) by lia.
  pose proof (decimal_nonempty s) as Hs.
  destruct (decimal s) as [|d ds]; [done|].
  destruct (k =? 1)%nat; unfold allDigits; simpl; apply andb_false_r.
Qed.

End ExponentNotation.

Section KeyValidity.
Import RegExp Chars PortMapper.

Lemma isDigit_not_bar c : isDigit c = true -> Chars.eqb "|" c = false.
Proof. by_cases c. Qed.

Lemma isHexDigit_not_bar c : isHexDigit c = true -> Chars.eqb "|" c = false.
Proof. by_cases c. Qed.

Lemma existsb_bar_false (P : ascii -> bool) l :
  (forall c, P c = true -> Chars.eqb "|" c = false) ->
  forallb P l = true -> existsb (Chars.eqb "|") l = false.
Proof.
  intros HP. induction l as [|c l IH]; [done|]. simpl.
  intros [Hc Hl]%andb_true_iff. by rewrite (HP c Hc), IH.
Qed.

Lemma keyPattern_index_digits location parent key index :
  normalizeLocation location parent = Some key ->
  extractPortIndex location = Some index ->
  RegExp.test Store.keyPattern key = true <-> allDigits index = true.
Proof.
  intros Hn Hi. split; [|by eapply normalizeLocation_key_valid].
  intros (a & b & c & Hkey & _ & Ha & _ & Hb & _ & Hc)%keyPattern_test.
  pose proof Hn as (chip & i' & Hchip & Hi' & ->)%normalizeLocation_shape.
  rewrite Hi in Hi'. injection Hi' as <-.
  assert (Hsplit : string_of_list_ascii (a ++ "&"%char :: b ++ "|"%char :: c)
            = string_of_list_ascii (a ++ "&"%char :: b) +:+ "|" +:+ string_of_list_ascii c).
  { change (a ++ "&"%char :: b ++ "|"%char :: c)
      with (a ++ ("&"%char :: b) ++ ("|"%char :: c)).
    rewrite (app_assoc a), string_of_list_app. reflexivity. }
  rewrite Hsplit in Hkey.
  apply bar_split_unique in Hkey as [_ ->].
  - unfold allDigits. by rewrite list_ascii_of_string_of_list_ascii.
  - by eapply chip_hasBar.
  - unfold hasBar. rewrite list_ascii_of_string_of_list_ascii, existsb_app. simpl.
    rewrite (existsb_bar_false isDigit a isDigit_not_bar Ha).
    by rewrite (existsb_bar_false isHexDigit b isHexDigit_not_bar Hb).
Qed.

(** X7.  A key of the mapper passes the pattern of the store
    exactly when its port index is made of digits. *)
Theorem key_valid_iff_index_digits (location parent : option string) (key index : string) :
  normalizeLocation location parent = Some key ->
  extractPortIndex location = Some index ->
  RegExp.test Store.keyPattern key = true <-> allDigits index = true.
Proof. apply keyPattern_index_digits. Qed.

Lemma String_of_parseInt10_exponent ds :
  ds <> EmptyString -> allDigits ds = true -> (10 ^ 21 <= digitsValue ds)%N ->
  allDigits (String_of (parseInt10 ds)) = false.
Proof.
  intros Hne Hall Hv. unfold parseInt10. rewrite leadingDigits_all by done.
  destruct ds as [|c ds]; [done|].
  destruct (Double.ofInteger _) as [| |x] eqn:E; [reflexivity | reflexivity |].
  apply toString_exponent. by eapply ofInteger_ge_1e21.
Qed.

(** X8.  From [10^21] on, the port index of a location is printed
    in exponent notation, or as [Infinity]: the key made from it never
    passes the pattern of the store. *)
Theorem long_port_index_never_valid (before segment digits after : string)
        (parent : option string) (key : string) :
  toLowerCase segment = "port_#" ->
  digits <> EmptyString -> allDigits digits = true ->
  startsWithDigit after = false ->
  (forall before' segment' d after',
     portSegmentAt (before +:+ segment +:+ digits +:+ after) before' segment' d after' ->
     String.length before <= String.length before') ->
  (10 ^ 21 <= digitsValue digits)%N ->
  normalizeLocation (Some (before +:+ segment +:+ digits +:+ after)) parent = Some key ->
  RegExp.test Store.keyPattern key = false.
Proof.
  intros Hseg Hne Hall Hafter Hleft Hv Hn.
  apply not_true_is_false. intros Ht.
  eapply keyPattern_index_digits in Ht; [| exact Hn |].
  2: { by apply extractPortIndex_leftmost. }
  by rewrite String_of_parseInt10_exponent in Ht.
Qed.

End KeyValidity.

Section KnownChips.
Import Chars PortMapper.








Lemma startsWith_app a b : startsWith (a +:+ b) a = true.
Proof.
  induction a as [|c a IH]; [by destruct b|].
  rewrite string_app_cons. simpl. by rewrite Chars_eqb_refl, IH.
Qed.

(** The keys that make a chip known. *)
Lemma isKnownChip_keys (this : t) (location parent : option string) :
  isKnownChip this location parent = true <->
  exists chip key,
    extractChipPrefix parent = Some chip /\
    key ∈ JS.keys (mappings this) /\ chipPortion key = Some chip.
Proof.
  unfold isKnownChip.
  destruct (extractChipPrefix parent) as [chip|] eqn:He.
  - destruct (extractChipPrefix_chars _ _ He) as [Hne Hall].
    rewrite (proj2 (falsy_Some chip) Hne), existsb_exists. split.
    + intros (key & Hin & Hk). exists chip, key. split; [done|].
      split; [by apply list_elem_of_In|]. by apply startsWith_chipPortion.
    + intros (chip' & key & [= <-] & Hin & Hk). exists key.
      split; [by apply list_elem_of_In|]. by apply startsWith_chipPortion.
  - simpl. split; [discriminate|]. by intros (? & ? & [=] & _).
Qed.




(** Without a ['|'] in the key the two differ. *)
Lemma getKnownChips_without_bar :
  let this := {| mappings := {[ "9&AB" := JS.ofZ 1 ]} |} in
  getKnownChips this = ["9&AB"] /\
  extractChipPrefix (Some "\9&AB&") = Some "9&AB" /\
  isKnownChip this None (Some "\9&AB&") = false.
Proof. vm_compute. done. Qed.

(** X11.  A location that has a mapping, or a port, is on a known
    chip, and a known chip means a mapper that is not empty. *)
Theorem hasMapping_isKnownChip (this : t) (location parent : option string) :
  (hasMapping this location parent = true -> isKnownChip this location parent = true) /\
  (JS.truthy (getPhysicalPort this location parent) = true ->
     isKnownChip this location parent = true) /\
  (isKnownChip this location parent = true -> 0 < getMappingCount this).
Proof.
  assert (hasMapping this location parent = true -> isKnownChip this location parent = true)
    as Hhas.
  { unfold hasMapping. destruct (normalizeLocation location parent) as [key|] eqn:Hn;
      [|discriminate].
    rewrite (normalizeLocation_truthy _ _ _ Hn).
    rewrite has_own by (by eapply normalizeLocation_bar).
    destruct (mappings this !! key) as [v|] eqn:Hk; [intros _ | discriminate].
    apply normalizeLocation_shape in Hn as (chip & i & Hc & Hi & ->).
    apply isKnownChip_keys. exists chip, (chip +:+ "|" +:+ i).
    split; [done|]. split; [apply elem_of_keys; eauto|].
    apply startsWith_chipPortion; [by eapply extractChipPrefix_chars|].
    rewrite <- string_app_assoc. apply startsWith_app. }
  split; [exact Hhas|]. split.
  - intros Ht. apply Hhas. revert Ht. unfold getPhysicalPort, hasMapping.
    destruct (normalizeLocation location parent) as [key|] eqn:Hn; [|discriminate].
    rewrite (normalizeLocation_truthy _ _ _ Hn).
    rewrite get_own, has_own by (by eapply normalizeLocation_bar).
    destruct (mappings this !! key); [done|]. discriminate.
  - intros (chip & key & _ & Hk & _)%isKnownChip_keys. unfold getMappingCount.
    destruct (JS.keys (mappings this)); [by apply elem_of_nil in Hk | simpl; lia].
Qed.

End KnownChips.

Section FileTheorems.
Import Store.

Variable JSON_parse : string -> option JS.value.
Variable JSON_stringify : JS.value -> string.

Lemma validate_true data b : validate data = JS.Return b -> validDocument data.
Proof.
  intros H. apply validate_valid. rewrite H. f_equal.
  revert H. unfold validate.
  destruct (_ || _); [discriminate|].
  destruct (differsFromVersion _); [discriminate|].
  destruct (_ || _); [discriminate|]. apply checkEntries_true.
Qed.

Lemma validDocument_not_null data : validDocument data -> data <> JS.Null.
Proof. intros (ps & -> & _). discriminate. Qed.

(** X12.  [load] returns [null] for a missing file and for nothing
    else; what it returns otherwise is the parsed content, which passed
    [validate]; 'Corrupted' is thrown exactly for a file that was read and
    is no JSON text. *)
Theorem load_outcomes (readError : option string) (d : disk) :
  (load JSON_parse readError d = JS.Return JS.Null <-> d = None) /\
  (forall data,
     load JSON_parse readError d = JS.Return data -> data <> JS.Null ->
     validDocument data /\ readError = None /\
     exists content, d = Some content /\ JSON_parse content = Some data) /\
  (load JSON_parse readError d = JS.Throw Corrupted <->
     readError = None /\ exists content, d = Some content /\ JSON_parse content = None) /\
  (forall data, validDocument data -> forall content,
     JSON_parse content = Some data ->
     load JSON_parse None (Some content) = JS.Return data).
Proof.
  unfold load. split; [|split; [|split]].
  - destruct d as [content|]; [|done]. split; [|discriminate].
    destruct readError; [discriminate|].
    destruct (JSON_parse content) as [data|]; [|discriminate].
    destruct (validate data) eqn:Hv; [|discriminate].
    intros [= ->]. by apply validate_true, validDocument_not_null in Hv.
  - intros data. destruct d as [content|]; [|by intros [= <-]].
    destruct readError; [discriminate|].
    destruct (JSON_parse content) as [data'|] eqn:Hp; [|discriminate].
    destruct (validate data') eqn:Hv; [|discriminate].
    intros [= ->] _. split; [by eapply validate_true|]. split; [done|]. eauto.
  - destruct d as [content|]; [|split; [discriminate | by intros (_ & ? & [=] & _)]].
    destruct readError; [split; [discriminate | by intros [[=] _]]|].
    destruct (JSON_parse content) as [data|] eqn:Hp.
    + destruct (validate data); split; try discriminate;
        intros (_ & ? & [= <-] & Hn); congruence.
    + split; [eauto|done].
  - intros data Hd%validate_valid content ->. by rewrite Hd.
Qed.

Lemma toSave_mappings now data :
  field (toSave now data) "mappings" = JS.or (field data "mappings") (JS.Object []).
Proof. reflexivity. Qed.

Lemma toSave_valid now data :
  validDocument (toSave now data) <-> savable (field data "mappings").
Proof.
  unfold validDocument, savable. rewrite toSave_mappings. unfold JS.or. split.
  - intros (ps & _ & _ & H).
    destruct (JS.truthy (field data "mappings")); [by right | by left].
  - intros H. exists (match toSave now data with JS.Object ps => ps | _ => [] end).
    split; [done|]. split; [done|].
    destruct (JS.truthy (field data "mappings")) eqn:Ht.
    + destruct H as [H | H]; [done | exact H].
    + left. exists []. split; [done | constructor].
Qed.

Lemma checkEntries_errors es e :
  checkEntries es = JS.Throw e ->
  e <> NotAnObject /\ e <> MissingMappings /\ forall got, e <> InvalidSchemaVersion got.
Proof.
  induction es as [|[k v] es IH]; simpl; [discriminate|].
  destruct (RegExp.test keyPattern k); simpl; [|by intros [= <-]].
  destruct (JS.notPort v); [by intros [= <-] | exact IH].
Qed.

Lemma toSave_errors now data e :
  validate (toSave now data) = JS.Throw e ->
  e <> NotAnObject /\ forall got, e <> InvalidSchemaVersion got.
Proof.
  unfold validate.
  replace (negb (JS.truthy (toSave now data)) || negb (JS.isObjectType (toSave now data)))
    with false by reflexivity.
  replace (differsFromVersion (field (toSave now data) "version")) with false
    by reflexivity.
  destruct (_ || _); [by intros [= <-]|].
  intros (H1 & _ & H2)%checkEntries_errors. done.
Qed.

Lemma save_defined now data writeError d :
  data <> JS.Null -> data <> JS.Undefined ->
  save JSON_stringify now data writeError d =
  match validate (toSave now data) with
  | JS.Throw e => (JS.Throw (Invalid e), d)
  | JS.Return _ =>
      match writeError with
      | Some code => (JS.Throw (if denied code then CannotWrite else System code), d)
      | None => (JS.Return tt, Some (JSON_stringify (toSave now data)))
      end
  end.
Proof. by destruct data. Qed.

Lemma save_undefined now data writeError d :
  data = JS.Null \/ data = JS.Undefined ->
  save JSON_stringify now data writeError d = (JS.Throw TypeError, d).
Proof. by intros [-> | ->]. Qed.

Lemma denied_codes code : denied code = true -> code = "EACCES" \/ code = "EPERM".
Proof. intros [H | H]%orb_true_iff; apply String.eqb_eq in H; auto. Qed.

Lemma save_returns now data writeError d :
  (save JSON_stringify now data writeError d).1 = JS.Return tt ->
  validDocument (toSave now data) /\
  (save JSON_stringify now data writeError d).2 = Some (JSON_stringify (toSave now data)) /\
  writeError = None.
Proof.
  assert (data = JS.Null \/ data = JS.Undefined \/ (data <> JS.Null /\ data <> JS.Undefined))
    as [H | [H | [H1 H2]]] by (destruct data; auto).
  - rewrite save_undefined by auto. discriminate.
  - rewrite save_undefined by auto. discriminate.
  - rewrite save_defined by done.
    destruct (validate (toSave now data)) as [b|e] eqn:Hv; [|discriminate].
    destruct writeError as [code|]; [by destruct (denied code)|].
    intros _. split; [by eapply validate_true | done].
Qed.

Lemma save_savable now data d :
  data <> JS.Null -> data <> JS.Undefined ->
  (save JSON_stringify now data None d).1 = JS.Return tt <->
  savable (field data "mappings").
Proof.
  intros H1 H2. rewrite save_defined by done.
  destruct (validate (toSave now data)) as [b|e] eqn:Hv; cbn [fst].
  - split; [|done]. intros _. by eapply (proj1 (toSave_valid now data)), validate_true.
  - split; [discriminate|]. intros Hs. apply (proj2 (toSave_valid now data)) in Hs.
    apply validate_valid in Hs. congruence.
Qed.

(** X13.  [save] writes nothing but a document that passes
    [validate], and leaves the file alone when it throws; whether the
    document passes depends on [data.mappings] alone: [save] never fails
    on the version, which it sets itself. *)
Theorem save_outcomes (now : string) (data : JS.value) (writeError : option string)
        (d : disk) :
  let r := save JSON_stringify now data writeError d in
  (r.1 = JS.Return tt ->
     validDocument (toSave now data) /\
     r.2 = Some (JSON_stringify (toSave now data)) /\ writeError = None) /\
  (forall e, r.1 = JS.Throw e -> r.2 = d) /\
  (data <> JS.Null -> data <> JS.Undefined -> writeError = None ->
     (r.1 = JS.Return tt <-> savable (field data "mappings"))) /\
  r.1 <> JS.Throw (Invalid NotAnObject) /\
  (forall got, r.1 <> JS.Throw (Invalid (InvalidSchemaVersion got))) /\
  (r.1 = JS.Throw CannotWrite ->
     writeError = Some "EACCES" \/ writeError = Some "EPERM").
Proof.
  intros r. subst r. split; [apply save_returns|].
  assert (data = JS.Null \/ data = JS.Undefined \/ (data <> JS.Null /\ data <> JS.Undefined))
    as [H | [H | [H1 H2]]] by (destruct data; auto).
  1, 2: rewrite save_undefined by auto; cbn [fst snd];
    (split; [done|]); (split; [by destruct H; subst|]); (split; [discriminate|]);
    (split; discriminate).
  rewrite save_defined by done.
  destruct (validate (toSave now data)) as [b|e] eqn:Hv.
  - pose proof (validate_true _ _ Hv) as Hd.
    destruct writeError as [code|]; cbn [fst snd].
    + split; [done|]. split; [discriminate|].
      split; [by destruct (denied code)|]. split; [by destruct (denied code)|].
      destruct (denied code) eqn:Hc; [|discriminate]. intros _.
      destruct (denied_codes code Hc) as [-> | ->]; auto.
    + split; [done|]. split; [intros _ _ _; split; [|done]; intros _; by apply (proj1 (toSave_valid now data))|].
      split; [discriminate|]. split; discriminate.
  - destruct (toSave_errors _ _ _ Hv) as [Hn1 Hn2]. cbn [fst snd].
    split; [done|]. split.
    { intros _ _ _. split; [discriminate|]. intros Hs. apply (proj2 (toSave_valid now data)) in Hs.
      apply validate_valid in Hs. congruence. }
    split; [congruence|]. split; [|discriminate].
    intros got [= ->]. by eapply Hn2.
Qed.

(** X14.  Once [clear] has returned there is no file, and [load]
    returns [null]; without a file [clear] does nothing, whatever the file
    system would answer; it throws only for a file it could not
    delete. *)
Theorem clear_outcomes (unlinkError readError : option string) (d : disk) :
  let r := clear unlinkError d in
  (r.1 = JS.Return tt ->
     r.2 = None /\ exists_ r.2 = false /\
     load JSON_parse readError r.2 = JS.Return JS.Null) /\
  (d = None -> r = (JS.Return tt, None)) /\
  (forall e, r.1 = JS.Throw e -> r.2 = d /\ exists_ d = true /\ unlinkError <> None) /\
  (r.1 = JS.Throw CannotDelete ->
     unlinkError = Some "EACCES" \/ unlinkError = Some "EPERM").
Proof.
  intros r. subst r. unfold clear.
  destruct d as [content|]; cbn [exists_].
  - destruct unlinkError as [code|]; cbn [fst snd].
    + split; [by destruct (denied code)|]. split; [done|].
      split; [done|]. unfold denied.
      destruct (String.eqb_spec code "EACCES") as [-> | _]; [auto|].
      destruct (String.eqb_spec code "EPERM") as [-> | _]; [auto | discriminate].
    + split; [done|]. split; [done|]. split; discriminate.
  - cbn [fst snd]. split; [done|]. split; [done|]. split; discriminate.
Qed.

(** X15.  The document [createEmpty] makes passes [validate], and
    [save] writes it as it is but for the date of the update. *)
Theorem createEmpty_saved (created updated now : string) (d : disk) :
  validate (createEmpty created updated) = JS.Return true /\
  (created <> EmptyString ->
     toSave now (createEmpty created updated) = createEmpty created now /\
     save JSON_stringify now (createEmpty created updated) None d
       = (JS.Return tt, Some (JSON_stringify (createEmpty created now)))).
Proof.
  split; [reflexivity|]. intros Hc.
  assert (toSave now (createEmpty created updated) = createEmpty created now) as E.
  { unfold toSave, createEmpty. cbn [field lookup String.eqb Ascii.eqb Bool.eqb].
    unfold JS.or. cbn [JS.truthy]. destruct created; [done | reflexivity]. }
  split; [exact E|]. unfold save. rewrite E. reflexivity.
Qed.

(** X16.  What [save] wrote is what [load] returns, as far as
    [JSON.parse] gives back the document [JSON.stringify] was given: the
    validation of [load] never rejects what [save] let through. *)
Theorem save_then_load (now : string) (data : JS.value) (d : disk) :
  JSON_parse (JSON_stringify (toSave now data)) = Some (toSave now data) ->
  (save JSON_stringify now data None d).1 = JS.Return tt ->
  load JSON_parse None (save JSON_stringify now data None d).2
    = JS.Return (toSave now data).
Proof.
  intros Hjson Hs.
  destruct (save_returns now data None d Hs) as (Hv & -> & _).
  unfold load. rewrite Hjson. apply validate_valid in Hv. by rewrite Hv.
Qed.

End FileTheorems.

Section WizardFacts.
Import PortMapper.

Lemma object_lookup w l m : Cli.heap w !! l = Some m -> Cli.object w l = m.
Proof. unfold Cli.object. by intros ->. Qed.

(** The mapper of the wizard. *)
Lemma mapDrive_unfold w port d answer :
  let mapper := {| mappings := Cli.object w (Cli.mapperMappings w) |} in
  Cli.mapDrive w port d answer =
  if negb (Cli.isNull (getExistingPort mapper (Cli.location d) (Cli.parent d)))
     && String.eqb (toLowerCase answer) "n"
  then (w, Cli.Skipped)
  else
    match addMapping mapper (Cli.location d) (Cli.parent d) (JS.ofZ port) with
    | (JS.Return key, mapper') =>
        ({| Cli.heap := <[Cli.mapperMappings w := mappings mapper']> (Cli.heap w)
                        ++ [mappings mapper'];
            Cli.mapperMappings := Cli.mapperMappings w;
            Cli.calibrationMappings := length (Cli.heap w) |}, Cli.Mapped key)
    | (JS.Throw e, _) => (w, Cli.Failed e)
    end.
Proof.
  intros mapper. unfold Cli.mapDrive. fold mapper.
  destruct (_ && _); [done|].
  destruct (addMapping mapper _ _ _) as [[key|e] mapper']; [|done].
  by rewrite length_insert.
Qed.

Lemma existing_hasMapping (this : t) location parent :
  Cli.isNull (getExistingPort this location parent) = false ->
  hasMapping this location parent = true.
Proof.
  unfold getExistingPort, hasMapping.
  destruct (normalizeLocation location parent) as [key|] eqn:Hn; [|done].
  rewrite (normalizeLocation_truthy _ _ _ Hn).
  rewrite get_own, has_own by (by eapply normalizeLocation_bar).
  destruct (mappings this !! key) as [v|]; [done|]. done.
Qed.

Lemma hasMapping_lookup (this : t) location parent :
  hasMapping this location parent = true <->
  exists key, normalizeLocation location parent = Some key /\
              is_Some (mappings this !! key).
Proof.
  unfold hasMapping.
  destruct (normalizeLocation location parent) as [key|] eqn:Hn.
  - rewrite (normalizeLocation_truthy _ _ _ Hn).
    rewrite has_own by (by eapply normalizeLocation_bar).
    rewrite bool_decide_eq_true. split; [eauto|]. by intros (? & [= <-] & ?).
  - simpl. split; [discriminate|]. by intros (? & [=] & _).
Qed.

Lemma existing_fresh (this : t) location parent key :
  normalizeLocation location parent = Some key -> mappings this !! key = None ->
  getExistingPort this location parent = JS.Null.
Proof.
  intros Hn Hk. unfold getExistingPort.
  rewrite Hn, (normalizeLocation_truthy _ _ _ Hn).
  rewrite get_own by (by eapply normalizeLocation_bar). by rewrite Hk.
Qed.

(** One port of the wizard. *)
Lemma mapDrive_step w port d answer :
  consistent w -> (1 <= port <= 7)%Z ->
  let r := Cli.mapDrive w port d answer in
  consistent r.1 /\ Cli.mapperMappings r.1 = Cli.mapperMappings w /\
  match r.2 with
  | Cli.Skipped =>
      r.1 = w /\ toLowerCase answer = "n" /\
      hasMapping {| mappings := Cli.object w (Cli.mapperMappings w) |}
                 (Cli.location d) (Cli.parent d) = true
  | Cli.Failed e => r.1 = w /\ e = CannotNormalize /\ keyOf d = None
  | Cli.Mapped key =>
      keyOf d = Some key /\
      Cli.object r.1 (Cli.mapperMappings r.1)
        = <[key := JS.ofZ port]> (Cli.object w (Cli.mapperMappings w))
  end.
Proof.
  intros (Hm & Hc & Heq) Hport r. subst r. rewrite mapDrive_unfold.
  destruct (negb _ && _) eqn:Hask; cbn [fst snd].
  { apply andb_true_iff in Hask as [Hex%negb_true_iff Hans%String.eqb_eq].
    split; [done|]. split; [done|]. split; [done|]. split; [done|].
    by apply existing_hasMapping. }
  set (mapper := {| mappings := Cli.object w (Cli.mapperMappings w) |}).
  destruct (addMapping_cases mapper (Cli.location d) (Cli.parent d) (JS.ofZ port))
    as [(key & Hn & Hp & ->) | (e & He)]; cbn [fst snd].
  - cbn [mappings]. unfold mapper. cbn [mappings].
    set (m' := <[key := JS.ofZ port]> (Cli.object w (Cli.mapperMappings w))).
    assert (Hl : length (<[Cli.mapperMappings w := m']> (Cli.heap w)) = length (Cli.heap w))
      by apply length_insert.
    split; [|split; [done|split; [done|]]].
    + unfold consistent. cbn [Cli.heap Cli.mapperMappings Cli.calibrationMappings].
      rewrite length_app, Hl. simpl. split; [lia|]. split; [lia|].
      rewrite (object_lookup _ (length (Cli.heap w)) m').
      2: { cbn [Cli.heap]. rewrite lookup_app_r by lia. by rewrite Hl, Nat.sub_diag. }
      symmetry. apply object_lookup. cbn [Cli.heap].
      rewrite lookup_app_l by lia. by apply list_lookup_insert_eq.
    + apply object_lookup. cbn [Cli.heap Cli.mapperMappings].
      rewrite lookup_app_l by lia. by apply list_lookup_insert_eq.
  - rewrite He. cbn [fst snd]. split; [done|]. split; [done|]. split; [done|].
    revert He. unfold addMapping. unfold keyOf.
    destruct (normalizeLocation _ _) as [key|] eqn:Hn.
    + rewrite (normalizeLocation_truthy _ _ _ Hn), notPort_ofZ.
      destruct ((1 <=? port)%Z && (port <=? 7)%Z) eqn:Hb; [discriminate|].
      apply andb_false_iff in Hb as [Hb | Hb]; [apply Z.leb_gt in Hb | apply Z.leb_gt in Hb]; lia.
    + simpl. by intros [= <-].
Qed.

(** X17.  One port of the wizard.  The answer 'n' for a location
    that is already mapped leaves everything as it is; a drive without a
    key is refused, and a drive is refused for nothing else; any other
    drive is mapped to the port, whatever was stored for its key.  After
    it the document holds what the mapper holds. *)
Theorem mapDrive_outcomes (w : Cli.wizard) (port : Z) (d : Cli.drive) (answer : string) :
  consistent w -> (1 <= port <= 7)%Z ->
  let r := Cli.mapDrive w port d answer in
  consistent r.1 /\ Cli.mapperMappings r.1 = Cli.mapperMappings w /\
  match r.2 with
  | Cli.Skipped =>
      r.1 = w /\ toLowerCase answer = "n" /\
      hasMapping {| mappings := Cli.object w (Cli.mapperMappings w) |}
                 (Cli.location d) (Cli.parent d) = true
  | Cli.Failed e => r.1 = w /\ e = CannotNormalize /\ keyOf d = None
  | Cli.Mapped key =>
      keyOf d = Some key /\
      Cli.object r.1 (Cli.mapperMappings r.1)
        = <[key := JS.ofZ port]> (Cli.object w (Cli.mapperMappings w))
  end.
Proof. apply mapDrive_step. Qed.

End WizardFacts.

Section WizardTheorems.
Import PortMapper.

Variable isolated : Z -> option Cli.drive.
Variable overwrite : Z -> string.

Lemma calibratePort_step w port :
  consistent w -> (1 <= port <= 7)%Z ->
  let w' := Cli.calibratePort isolated overwrite w port in
  consistent w' /\ Cli.mapperMappings w' = Cli.mapperMappings w /\
  (w' = w \/
   exists d key,
     isolated port = Some d /\ keyOf d = Some key /\
     Cli.object w' (Cli.mapperMappings w')
       = <[key := JS.ofZ port]> (Cli.object w (Cli.mapperMappings w))).
Proof.
  intros Hw Hp. unfold Cli.calibratePort.
  destruct (isolated port) as [d|] eqn:Hi; [|simpl; auto].
  pose proof (mapDrive_step w port d (overwrite port) Hw Hp) as Hs; cbn zeta in Hs.
  destruct Hs as (Hc & Hm & Hr). split; [done|]. split; [done|].
  destruct (Cli.mapDrive w port d (overwrite port)).2 as [|key|e].
  - left. by destruct Hr.
  - right. exists d, key. by destruct Hr.
  - left. by destruct Hr.
Qed.

Lemma calibratePort_fresh w port d key :
  consistent w -> (1 <= port <= 7)%Z ->
  isolated port = Some d -> keyOf d = Some key ->
  Cli.object w (Cli.mapperMappings w) !! key = None ->
  Cli.object (Cli.calibratePort isolated overwrite w port)
             (Cli.mapperMappings (Cli.calibratePort isolated overwrite w port))
    = <[key := JS.ofZ port]> (Cli.object w (Cli.mapperMappings w)).
Proof.
  intros Hw Hp Hi Hk Hfresh. unfold Cli.calibratePort. rewrite Hi.
  pose proof (mapDrive_step w port d (overwrite port) Hw Hp) as Hs; cbn zeta in Hs.
  destruct Hs as (_ & _ & Hr).
  destruct (Cli.mapDrive w port d (overwrite port)).2 as [|key'|e].
  - destruct Hr as (_ & _ & (k & Hn & [v Hv])%hasMapping_lookup).
    unfold keyOf in Hk. rewrite Hk in Hn. injection Hn as <-.
    cbn [mappings] in Hv. congruence.
  - destruct Hr as [Hk' Ho]. rewrite Hk in Hk'. by injection Hk' as <-.
  - destruct Hr as (_ & _ & Hnone). congruence.
Qed.

Lemma calibratePorts_cons w port ports :
  Cli.calibratePorts isolated overwrite (port :: ports) w
  = Cli.calibratePorts isolated overwrite ports
      (Cli.calibratePort isolated overwrite w port).
Proof. reflexivity. Qed.

Lemma calibratePorts_entries ports : forall w,
  consistent w -> Forall (fun port => (1 <= port <= 7)%Z) ports ->
  let w' := Cli.calibratePorts isolated overwrite ports w in
  consistent w' /\ Cli.mapperMappings w' = Cli.mapperMappings w /\
  forall key v,
    Cli.object w' (Cli.mapperMappings w') !! key = Some v ->
    Cli.object w (Cli.mapperMappings w) !! key = Some v \/
    exists port d,
      port ∈ ports /\ isolated port = Some d /\ keyOf d = Some key /\ v = JS.ofZ port.
Proof.
  induction ports as [|p ports IH]; intros w Hw Hall; [simpl; auto|].
  apply Forall_cons in Hall as [Hp Hall]. rewrite calibratePorts_cons. cbn zeta.
  pose proof (calibratePort_step w p Hw Hp) as Hs; cbn zeta in Hs;
    destruct Hs as (Hw1 & Hm1 & Hstep).
  pose proof (IH _ Hw1 Hall) as Hs; cbn zeta in Hs;
  destruct Hs as (Hw' & Hm' & Hent).
  split; [done|]. split; [congruence|].
  intros key v Hkv. destruct (Hent key v Hkv) as [H1 | (port & d & Hin & Hi & Hk & ->)].
  - destruct Hstep as [E | (d & key' & Hi & Hk & Ho)]; [rewrite E in H1; by left|].
    rewrite Ho in H1. destruct (decide (key' = key)) as [-> | Hne].
    + rewrite lookup_insert_eq in H1. injection H1 as <-.
      right. exists p, d. split; [apply list_elem_of_here | done].
    + rewrite lookup_insert_ne in H1 by done. by left.
  - right. exists port, d. split; [by apply list_elem_of_further | done].
Qed.

Lemma newCalibration_consistent : consistent Cli.newCalibration.
Proof. unfold consistent. simpl. split; [lia|]. split; [lia | done]. Qed.

Lemma ports_in_range :
  Forall (fun port => (1 <= port <= 7)%Z) [1; 2; 3; 4; 5; 6; 7]%Z.
Proof. repeat constructor; lia. Qed.


(** X18.  The wizard hands to [save] what the mapper holds,
    although the mapper keeps writing into the object the document was
    made with and the document is given a copy after every port. *)
Theorem calibrate_document_current (ports : list Z) :
  Forall (fun port => (1 <= port <= 7)%Z) ports ->
  let w := Cli.calibratePorts isolated overwrite ports Cli.newCalibration in
  Cli.object w (Cli.calibrationMappings w) = Cli.object w (Cli.mapperMappings w) /\
  Cli.mapperMappings w = 0 /\
  (Cli.calibrationMappings w = 0 <-> Cli.heap w = [∅]).
Proof.
  intros Hall.
  assert (forall ports w,
    Forall (fun port => (1 <= port <= 7)%Z) ports -> consistent w ->
    (Cli.calibrationMappings w = 0 <-> Cli.heap w = [∅]) ->
    Cli.mapperMappings w = 0 ->
    let w' := Cli.calibratePorts isolated overwrite ports w in
    Cli.calibrationMappings w' = 0 <-> Cli.heap w' = [∅]) as Hheap.
  { clear. induction ports as [|p ports IH]; intros w Hall Hw H0 Hm0; [done|].
    apply Forall_cons in Hall as [Hp Hall]. rewrite calibratePorts_cons.
    pose proof (calibratePort_step w p Hw Hp) as Hs; cbn zeta in Hs;
    destruct Hs as (Hw1 & Hm1 & _).
    apply IH; [done | done | | congruence].
    unfold Cli.calibratePort. destruct (isolated p) as [d|]; [|done].
    rewrite mapDrive_unfold. destruct (_ && _); [done|].
    destruct (addMapping _ _ _ _) as [[key|e] mapper']; [|done].
    cbn [fst Cli.heap Cli.calibrationMappings].
    destruct Hw as (Hlt & _). split.
    - intros E. rewrite E in Hlt. lia.
    - intros E. apply (f_equal length) in E.
      rewrite length_app, length_insert in E. simpl in E. lia. }
  pose proof (calibratePorts_entries ports _ newCalibration_consistent Hall)
    as Hs; cbn zeta in Hs. destruct Hs as ((_ & _ & Heq) & Hm & _).
  cbn zeta. split; [done|]. split; [done|].
  apply Hheap; [done | apply newCalibration_consistent | done | done].
Qed.

End WizardTheorems.

Section WizardSave.
Import PortMapper.

Variable isolated : Z -> option Cli.drive.
Variable overwrite : Z -> string.
Variable JSON_stringify : JS.value -> string.




End WizardSave.

Section WizardComplete.
Import PortMapper.

Variable isolated : Z -> option Cli.drive.
Variable overwrite : Z -> string.
Variable key : Z -> string.

Lemma insertAll_spec ports : forall m : gmap string JS.value,
  NoDup ports ->
  (forall p q, p ∈ ports -> q ∈ ports -> key p = key q -> p = q) ->
  (forall p, p ∈ ports -> m !! key p = None) ->
  let m' := foldl (fun m p => <[key p := JS.ofZ p]> m) m ports in
  size m' = size m + length ports /\
  (forall p, p ∈ ports -> m' !! key p = Some (JS.ofZ p)) /\
  (forall k v, m !! k = Some v -> m' !! k = Some v).
Proof.
  induction ports as [|p ports IH]; intros m Hnd Hinj Hfresh; simpl.
  - split; [lia|]. split; [|done]. by intros p Hp%elem_of_nil.
  - apply NoDup_cons in Hnd as [Hp Hnd].
    assert (Hfresh' : forall q, q ∈ ports -> <[key p := JS.ofZ p]> m !! key q = None).
    { intros q Hq. rewrite lookup_insert_ne; [apply Hfresh; by apply list_elem_of_further|].
      intros E. apply Hinj in E; [congruence | apply list_elem_of_here
                                  | by apply list_elem_of_further]. }
    assert (Hinj' : forall a b, a ∈ ports -> b ∈ ports -> key a = key b -> a = b).
    { intros a b Ha Hb. apply Hinj; by apply list_elem_of_further. }
    pose proof (IH (<[key p := JS.ofZ p]> m) Hnd Hinj' Hfresh') as Hs; cbn zeta in Hs.
    destruct Hs as (Hsize & Hlook & Hkeep).
    split; [|split].
    + rewrite Hsize, map_size_insert_None; [lia|]. apply Hfresh, list_elem_of_here.
    + intros q [-> | Hq]%elem_of_cons; [|by apply Hlook].
      apply Hkeep, lookup_insert_eq.
    + intros k v Hkv. apply Hkeep. rewrite lookup_insert_ne; [done|].
      intros <-. rewrite Hfresh in Hkv; [done | apply list_elem_of_here].
Qed.

Lemma calibratePorts_fresh ports : forall w,
  consistent w -> Forall (fun port => (1 <= port <= 7)%Z) ports -> NoDup ports ->
  (forall p, p ∈ ports -> exists d, isolated p = Some d /\ keyOf d = Some (key p)) ->
  (forall p q, p ∈ ports -> q ∈ ports -> key p = key q -> p = q) ->
  (forall p, p ∈ ports -> Cli.object w (Cli.mapperMappings w) !! key p = None) ->
  let w' := Cli.calibratePorts isolated overwrite ports w in
  Cli.object w' (Cli.mapperMappings w')
  = foldl (fun m p => <[key p := JS.ofZ p]> m) (Cli.object w (Cli.mapperMappings w)) ports.
Proof.
  induction ports as [|p ports IH]; intros w Hw Hall Hnd Hd Hinj Hfresh; [done|].
  apply Forall_cons in Hall as [Hp Hall]. apply NoDup_cons in Hnd as [Hnp Hnd].
  rewrite calibratePorts_cons. cbn zeta.
  destruct (Hd p (list_elem_of_here _ _)) as (d & Hi & Hk).
  pose proof (calibratePort_fresh isolated overwrite w p d (key p) Hw Hp Hi Hk
                (Hfresh p (list_elem_of_here _ _))) as Hstep.
  pose proof (calibratePort_step isolated overwrite w p Hw Hp) as Hs; cbn zeta in Hs.
  destruct Hs as (Hw1 & _ & _).
  rewrite IH; [by rewrite Hstep | done | done | done | | |].
  - intros q Hq. apply Hd. by apply list_elem_of_further.
  - intros a b Ha Hb. apply Hinj; by apply list_elem_of_further.
  - intros q Hq. rewrite Hstep, lookup_insert_ne; [apply Hfresh; by apply list_elem_of_further|].
    intros E. apply Hinj in E; [congruence | apply list_elem_of_here
                                | by apply list_elem_of_further].
Qed.

Lemma getPhysicalPort_lookup (this : t) location parent k v :
  normalizeLocation location parent = Some k -> mappings this !! k = Some v ->
  JS.truthy v = true -> getPhysicalPort this location parent = v.
Proof.
  intros Hn Hk Hv. unfold getPhysicalPort.
  rewrite Hn, (normalizeLocation_truthy _ _ _ Hn).
  rewrite get_own by (by eapply normalizeLocation_bar).
  rewrite Hk. simpl. unfold JS.or. by rewrite Hv.
Qed.

(** X20.  Seven drives with seven different keys make a complete
    calibration, whatever is answered: every drive is then found at the
    port it was inserted at. *)
Theorem calibrate_complete :
  (forall port, (1 <= port <= 7)%Z ->
     exists drive, isolated port = Some drive /\ keyOf drive = Some (key port)) ->
  (forall p q, (1 <= p <= 7)%Z -> (1 <= q <= 7)%Z -> key p = key q -> p = q) ->
  let w := Cli.calibrate isolated overwrite in
  let mapper := {| mappings := Cli.object w (Cli.mapperMappings w) |} in
  isCalibrated mapper = true /\ getMappingCount mapper = 7 /\
  forall port drive,
    (1 <= port <= 7)%Z -> isolated port = Some drive ->
    getPhysicalPort mapper (Cli.location drive) (Cli.parent drive) = JS.ofZ port.
Proof.
  intros Hd Hinj w mapper.
  pose proof ports_in_range as Hr. pose proof Hr as Hr'. rewrite Forall_forall in Hr'.
  assert (Hnd : NoDup [1; 2; 3; 4; 5; 6; 7]%Z).
  { apply NoDup_ListNoDup. repeat constructor; simpl; intuition lia. }
  assert (Hmap : mappings mapper
                 = foldl (fun m p => <[key p := JS.ofZ p]> m) ∅ [1; 2; 3; 4; 5; 6; 7]%Z).
  { unfold mapper, w, Cli.calibrate. cbn [mappings].
    rewrite (calibratePorts_fresh [1; 2; 3; 4; 5; 6; 7]%Z Cli.newCalibration
               newCalibration_consistent Hr Hnd); [done | | |].
    - intros p Hp. by apply Hd, Hr'.
    - intros p q Hp Hq. apply Hinj; by apply Hr'.
    - intros p _. done. }
  pose proof (insertAll_spec [1; 2; 3; 4; 5; 6; 7]%Z ∅ Hnd) as Hs; cbn zeta in Hs.
  destruct Hs as (Hsize & Hlook & _).
  { intros p q Hp Hq. apply Hinj; by apply Hr'. }
  { done. }
  rewrite <- Hmap in Hsize, Hlook.
  assert (Hcount : getMappingCount mapper = 7).
  { unfold getMappingCount. rewrite length_keys, Hsize, map_size_empty. reflexivity. }
  split; [|split; [exact Hcount|]].
  - unfold isCalibrated. fold (getMappingCount mapper). by rewrite Hcount.
  - intros port drive Hp Hi. destruct (Hd port Hp) as (drive' & Hi' & Hk).
    rewrite Hi in Hi'. injection Hi' as <-.
    assert (Hin : port ∈ [1; 2; 3; 4; 5; 6; 7]%Z).
    { assert (port = 1 \/ port = 2 \/ port = 3 \/ port = 4 \/ port = 5 \/ port = 6
              \/ port = 7)%Z as H by lia.
      rewrite !elem_of_cons. tauto. }
    apply getPhysicalPort_lookup with (k := key port).
    + exact Hk.
    + by apply Hlook.
    + unfold JS.ofZ, JS.truthy, inject_Z. cbn [Qnum]. apply negb_true_iff, Z.eqb_neq. lia.
Qed.

End WizardComplete.

Section StatusTheorems.
Import PortMapper.

Lemma statusFold mapper drives : forall r0,
  let r := foldl (Cli.statusStep mapper) r0 drives in
  Cli.placed r
    = Cli.placed r0
      ++ map (fun d => (Cli.portOf mapper d, d))
             (List.filter (fun d => JS.truthy (Cli.portOf mapper d)) drives) /\
  Cli.unmappedDrives r
    = Cli.unmappedDrives r0
      ++ List.filter (fun d => negb (JS.truthy (Cli.portOf mapper d))) drives /\
  Cli.hasCalibrationMismatch r
    = Cli.hasCalibrationMismatch r0 || existsb (mismatch mapper) drives.
Proof.
  induction drives as [|d drives IH]; intros r0.
  - simpl. by rewrite !app_nil_r, orb_false_r.
  - cbn [foldl]. pose proof (IH (Cli.statusStep mapper r0 d)) as Hs; cbn zeta in Hs.
    destruct Hs as (Hp & Hu & Hf). cbn zeta. rewrite Hp, Hu, Hf. clear.
    cbn [List.filter existsb]. unfold Cli.statusStep, mismatch.
    destruct mapper as [m|]; cbn [Cli.portOf].
    + destruct (JS.truthy (getPhysicalPort m _ _)) eqn:Ht;
        cbn [negb andb orb Cli.placed Cli.unmappedDrives Cli.hasCalibrationMismatch map].
      * by rewrite <- app_assoc.
      * destruct (_ && _);
          cbn [Cli.placed Cli.unmappedDrives Cli.hasCalibrationMismatch orb];
          rewrite <- ?app_assoc, ?orb_true_r; done.
    + cbn [JS.truthy negb Cli.placed Cli.unmappedDrives Cli.hasCalibrationMismatch map orb].
      by rewrite <- app_assoc.
Qed.

Lemma getPhysicalPort_truthy (this : t) location parent :
  JS.truthy (getPhysicalPort this location parent) = true ->
  exists key,
    normalizeLocation location parent = Some key /\
    mappings this !! key = Some (getPhysicalPort this location parent).
Proof.
  unfold getPhysicalPort.
  destruct (normalizeLocation location parent) as [key|] eqn:Hn; [|discriminate].
  rewrite (normalizeLocation_truthy _ _ _ Hn).
  rewrite get_own by (by eapply normalizeLocation_bar).
  destruct (mappings this !! key) as [v|] eqn:Hk; [|discriminate].
  cbn [default from_option]. unfold id, JS.or.
  destruct (JS.truthy v) eqn:Hv; [intros _; by exists key | discriminate].
Qed.

Lemma existsb_elem {A} (f : A -> bool) l :
  existsb f l = true <-> exists x, x ∈ l /\ f x = true.
Proof.
  rewrite existsb_exists. split; intros (x & Hx & Hf); exists x;
    (split; [by apply list_elem_of_In | done]).
Qed.

Lemma statusLoop_facts (mapper : t) (drives : list Cli.drive) :
  let r := Cli.statusLoop (Some mapper) drives in
  length (Cli.placed r) + length (Cli.unmappedDrives r) = length drives /\
  (forall port d,
     (port, d) ∈ Cli.placed r <->
     d ∈ drives /\ port = getPhysicalPort mapper (Cli.location d) (Cli.parent d) /\
     JS.truthy port = true) /\
  (forall port d,
     (port, d) ∈ Cli.placed r ->
     exists key, keyOf d = Some key /\ mappings mapper !! key = Some port) /\
  (forall d,
     d ∈ Cli.unmappedDrives r <->
     d ∈ drives /\ getPhysicalPort mapper (Cli.location d) (Cli.parent d) = JS.Null) /\
  (Cli.hasCalibrationMismatch r = true <->
     0 < getMappingCount mapper /\
     exists d, d ∈ drives /\ isKnownChip mapper (Cli.location d) (Cli.parent d) = false).
Proof.
  pose proof (statusFold (Some mapper) drives
                {| Cli.placed := []; Cli.unmappedDrives := [];
                   Cli.hasCalibrationMismatch := false |}) as Hs.
  cbn zeta in Hs. fold (Cli.statusLoop (Some mapper) drives) in Hs.
  cbn [Cli.placed Cli.unmappedDrives Cli.hasCalibrationMismatch app orb] in Hs.
  destruct Hs as (Hp & Hu & Hf). cbn zeta. rewrite Hp, Hu, Hf. clear Hp Hu Hf.
  cbn [Cli.portOf].
  assert (Hnull : forall d,
    JS.truthy (getPhysicalPort mapper (Cli.location d) (Cli.parent d)) = false <->
    getPhysicalPort mapper (Cli.location d) (Cli.parent d) = JS.Null).
  { intros d. split; [|by intros ->]. unfold getPhysicalPort.
    destruct (falsy _); [done|]. destruct (normalizeLocation _ _); [|done].
    unfold JS.or. by destruct (JS.truthy (JS.get _ _)) eqn:E; [rewrite E|]. }
  split; [|split; [|split; [|split]]].
  - rewrite length_map. induction drives as [|d drives IH]; [done|].
    cbn [List.filter]. destruct (JS.truthy _); cbn [negb length]; lia.
  - intros port d. rewrite list_elem_of_fmap. split.
    + intros (d' & [= -> ->] & Hin%list_elem_of_In%filter_In).
      destruct Hin as [Hin%list_elem_of_In Ht]. done.
    + intros (Hin & -> & Ht). exists d. split; [done|].
      apply list_elem_of_In, filter_In. split; [by apply list_elem_of_In | done].
  - intros port d (d' & [= -> ->] & Hin%list_elem_of_In%filter_In)%list_elem_of_fmap.
    destruct Hin as [_ Ht]. by apply getPhysicalPort_truthy.
  - intros d. rewrite list_elem_of_In, filter_In, <- list_elem_of_In, negb_true_iff.
    by rewrite Hnull.
  - rewrite existsb_elem. unfold mismatch. cbn [Cli.portOf]. split.
    + intros (d & Hin & [[_ Hc%Nat.ltb_lt]%andb_true_iff Hk%negb_true_iff]%andb_true_iff).
      eauto.
    + intros (Hc & d & Hin & Hk). exists d. split; [done|].
      rewrite Hk. apply Nat.ltb_lt in Hc. rewrite Hc, andb_true_r. cbn [negb andb].
      rewrite andb_true_r. apply negb_true_iff, not_true_is_false. intros Ht.
      assert (isKnownChip mapper (Cli.location d) (Cli.parent d) = true); [|congruence].
      apply getPhysicalPort_truthy in Ht as (key & Hn & Hkv).
      apply isKnownChip_keys.
      pose proof Hn as (chip & i & Hch & Hi & ->)%normalizeLocation_shape.
      exists chip, (chip +:+ "|" +:+ i). split; [done|].
      split; [apply elem_of_keys; eauto|].
      apply startsWith_chipPortion; [by eapply extractChipPrefix_chars|].
      rewrite <- string_app_assoc. apply startsWith_app.
Qed.

(** X21.  The loop of [cmdStatus] files every drive once: a drive
    with a port among the placed ones, with the value stored for its key,
    and any other among the unknown ones.  The mismatch is flagged exactly
    when the mapper is not empty and some drive is on a chip that no key
    names. *)
Theorem statusLoop_report (mapper : t) (drives : list Cli.drive) :
  let r := Cli.statusLoop (Some mapper) drives in
  length (Cli.placed r) + length (Cli.unmappedDrives r) = length drives /\
  (forall port d,
     (port, d) ∈ Cli.placed r <->
     d ∈ drives /\ port = getPhysicalPort mapper (Cli.location d) (Cli.parent d) /\
     JS.truthy port = true) /\
  (forall port d,
     (port, d) ∈ Cli.placed r ->
     exists key, keyOf d = Some key /\ mappings mapper !! key = Some port) /\
  (forall d,
     d ∈ Cli.unmappedDrives r <->
     d ∈ drives /\ getPhysicalPort mapper (Cli.location d) (Cli.parent d) = JS.Null) /\
  (Cli.hasCalibrationMismatch r = true <->
     0 < getMappingCount mapper /\
     exists d, d ∈ drives /\ isKnownChip mapper (Cli.location d) (Cli.parent d) = false).
Proof. apply statusLoop_facts. Qed.

(** Without a mapper no drive is placed, and nothing is flagged. *)
Lemma statusLoop_no_mapper (drives : list Cli.drive) :
  Cli.statusLoop None drives
  = {| Cli.placed := []; Cli.unmappedDrives := drives;
       Cli.hasCalibrationMismatch := false |}.
Proof.
  pose proof (statusFold None drives
                {| Cli.placed := []; Cli.unmappedDrives := [];
                   Cli.hasCalibrationMismatch := false |}) as Hs.
  cbn zeta in Hs. fold (Cli.statusLoop None drives) in Hs.
  cbn [Cli.placed Cli.unmappedDrives Cli.hasCalibrationMismatch app orb] in Hs.
  destruct Hs as (Hp & Hu & Hf).
  destruct (Cli.statusLoop None drives) as [p u f]. simpl in *. subst. f_equal.
  - by induction drives.
  - induction drives as [|d drives IH]; [done|]. simpl. by rewrite IH.
  - by induction drives.
Qed.

Variable JSON_parse : string -> option JS.value.

Lemma mapperOf_ports data :
  data = JS.Null \/ validDocument data ->
  map_Forall (fun key v => isIdentityKey key /\ isPortNumber v)
             (mappings (Cli.mapperOf data)).
Proof.
  intros [-> | (ps & -> & _ & [(es & He & Hall) | He])]; unfold Cli.mapperOf;
    try rewrite He; cbn [constructor calibrationMappings mappings];
    try apply map_Forall_empty.
  intros k v Hkv%elem_of_list_to_map_2. rewrite Forall_forall in Hall.
  exact (Hall _ Hkv).
Qed.

(** X22.  With the mapper made from what [load] returned, every
    port at which the loop of [cmdStatus] places a drive is an integer
    from 1 to 7, so that the table of the seven ports has a row for it;
    without a calibration file nothing is placed and nothing is
    flagged. *)
Theorem status_ports_in_table (readError : option string) (d : Store.disk)
        (calibration : JS.value) (drives : list Cli.drive) :
  Store.load JSON_parse readError d = JS.Return calibration ->
  let r := Cli.statusLoop (Some (Cli.mapperOf calibration)) drives in
  (forall port drive,
     (port, drive) ∈ Cli.placed r ->
     isPortNumber port) /\
  (d = None ->
     Cli.placed r = [] /\ Cli.unmappedDrives r = drives /\
     Cli.hasCalibrationMismatch r = false).
Proof.
  intros Hload r.
  assert (Hdoc : calibration = JS.Null \/ validDocument calibration).
  { revert Hload. unfold Store.load. destruct d as [content|]; [|intros [= <-]; by left].
    destruct readError; [discriminate|].
    destruct (JSON_parse content) as [data|]; [|discriminate].
    destruct (Store.validate data) eqn:Hv; [|discriminate].
    intros [= <-]. right. by eapply validate_true. }
  pose proof (statusLoop_facts (Cli.mapperOf calibration) drives) as Hs.
  cbn zeta in Hs. fold r in Hs. destruct Hs as (Hlen & Hpl & Hkey & Hun & Hflag).
  split.
  - intros port drive (key & _ & Hkv)%Hkey.
    by destruct (mapperOf_ports calibration Hdoc key port Hkv) as [_ Hp].
  - intros ->. injection Hload as <-.
    assert (Hempty : forall l p, getPhysicalPort (Cli.mapperOf JS.Null) l p = JS.Null).
    { intros l p. unfold getPhysicalPort. destruct (falsy _); [done|].
      destruct (normalizeLocation l p) as [key|] eqn:Hn; [|done].
      rewrite get_own by (by eapply normalizeLocation_bar). done. }
    assert (Hp : Cli.placed r = []).
    { destruct (Cli.placed r) as [|[port drive] l] eqn:E; [done|].
      assert ((port, drive) ∈ (port, drive) :: l) as Hin by apply list_elem_of_here.
      apply Hpl in Hin as (_ & -> & Ht). by rewrite Hempty in Ht. }
    split; [done|]. split.
    + pose proof (statusFold (Some (Cli.mapperOf JS.Null)) drives
                {| Cli.placed := []; Cli.unmappedDrives := [];
                   Cli.hasCalibrationMismatch := false |}) as Hs.
      cbn zeta in Hs. destruct Hs as (_ & Hu & _). unfold r, Cli.statusLoop.
      rewrite Hu. cbn [Cli.unmappedDrives app Cli.portOf]. clear.
      induction drives as [|x drives IH]; [done|]. cbn [List.filter].
      assert (getPhysicalPort (Cli.mapperOf JS.Null) (Cli.location x) (Cli.parent x)
              = JS.Null) as ->.
      { unfold getPhysicalPort. destruct (falsy _); [done|].
        destruct (normalizeLocation _ _) as [key|] eqn:Hn; [|done].
        rewrite get_own by (by eapply normalizeLocation_bar). done. }
      simpl. by rewrite IH.
    + apply not_true_is_false. intros (Hc & _)%Hflag.
      unfold getMappingCount in Hc. rewrite length_keys in Hc.
      change (mappings (Cli.mapperOf JS.Null)) with (∅ : gmap string JS.value) in Hc.
      rewrite map_size_empty in Hc. lia.
Qed.

End StatusTheorems.

Section MapFacts.
Context {K V : Type} `{EqDecision K}.
Implicit Types (m : list (K * V)) (k : K) (v : V).

Lemma Map_get_set m k v k' :
  JS.Map_get (JS.Map_set m k v) k' = if decide (k = k') then Some v else JS.Map_get m k'.
Proof.
  induction m as [|[k0 v0] m IH]; simpl.
  - destruct (decide (k = k')); done.
  - destruct (decide (k0 = k)) as [-> | Hne]; simpl.
    + destruct (decide (k = k')); done.
    + destruct (decide (k0 = k')) as [-> | Hne'].
      * by rewrite decide_False by done.
      * exact IH.
Qed.

Lemma Map_has_elem m k : JS.Map_has m k = true <-> k ∈ m.*1.
Proof.
  unfold JS.Map_has. induction m as [|[k0 v0] m IH]; simpl.
  - split; [discriminate | by intros ?%elem_of_nil].
  - rewrite elem_of_cons. destruct (decide (k0 = k)) as [-> | Hne].
    + split; auto.
    + rewrite IH. split; [auto | intros [-> | H]; done].
Qed.

Lemma Map_get_elem m k v : JS.Map_get m k = Some v -> (k, v) ∈ m.
Proof.
  induction m as [|[k0 v0] m IH]; simpl; [discriminate|].
  destruct (decide (k0 = k)) as [-> | Hne].
  - intros [= ->]. apply list_elem_of_here.
  - intros H. by apply list_elem_of_further, IH.
Qed.

Lemma Map_elem_get m k v : NoDup m.*1 -> (k, v) ∈ m -> JS.Map_get m k = Some v.
Proof.
  induction m as [|[k0 v0] m IH]; simpl; [by intros _ ?%elem_of_nil|].
  intros [Hk0 Hnd]%NoDup_cons [[= -> ->] | Hin]%elem_of_cons.
  - by rewrite decide_True.
  - destruct (decide (k0 = k)) as [-> | Hne]; [|by apply IH].
    exfalso. apply Hk0. apply list_elem_of_fmap. by exists (k, v).
Qed.

Lemma Map_set_keys m k v :
  (JS.Map_set m k v).*1 = if JS.Map_has m k then m.*1 else m.*1 ++ [k].
Proof.
  unfold JS.Map_has. induction m as [|[k0 v0] m IH]; [done|].
  cbn [JS.Map_set JS.Map_get].
  destruct (decide (k0 = k)) as [-> | Hne]; [done|].
  rewrite !fmap_cons, IH. by destruct (JS.Map_get m k).
Qed.

Lemma Map_set_NoDup m k v : NoDup m.*1 -> NoDup (JS.Map_set m k v).*1.
Proof.
  intros Hnd. rewrite Map_set_keys. destruct (JS.Map_has m k) eqn:Hk; [done|].
  apply NoDup_app. split; [done|]. split; [|apply NoDup_singleton].
  intros x Hx ->%list_elem_of_singleton. apply Map_has_elem in Hx. congruence.
Qed.

End MapFacts.

Section MonitorTheorems.
Import PortMapper.

Variable mapper : option t.

Lemma snapshotFold drives : forall m0 : list (option string * Cli.drive),
  NoDup m0.*1 ->
  let m := foldl (fun m d => JS.Map_set m (Cli.trackingKey mapper d) d) m0 drives in
  NoDup m.*1 /\
  (forall k, k ∈ m.*1 <->
             k ∈ m0.*1 \/ exists d, d ∈ drives /\ Cli.trackingKey mapper d = k) /\
  (forall k d, (k, d) ∈ m ->
     (k, d) ∈ m0 \/ (d ∈ drives /\ Cli.trackingKey mapper d = k)).
Proof.
  induction drives as [|x drives IH]; intros m0 Hnd.
  - simpl. split; [done|]. split; [|auto]. intros k. split; [auto|].
    intros [H | (d & Hd%elem_of_nil & _)]; done.
  - cbn [foldl].
    pose proof (IH _ (Map_set_NoDup m0 (Cli.trackingKey mapper x) x Hnd)) as Hs.
    cbn zeta in Hs. destruct Hs as (Hnd' & Hkeys & Hent). cbn zeta.
    split; [done|]. split.
    + intros k. rewrite Hkeys, Map_set_keys. split.
      * intros [Hk | (d & Hd & Ht)].
        -- destruct (JS.Map_has m0 _); [by left|].
           apply elem_of_app in Hk as [Hk | ->%list_elem_of_singleton]; [by left|].
           right. exists x. split; [apply list_elem_of_here | done].
        -- right. exists d. split; [by apply list_elem_of_further | done].
      * intros [Hk | (d & [-> | Hd]%elem_of_cons & Ht)].
        -- left. destruct (JS.Map_has m0 _); [done|]. apply elem_of_app. by left.
        -- left. subst k. destruct (JS.Map_has m0 _) eqn:Hh.
           ++ by apply Map_has_elem.
           ++ apply elem_of_app. right. by apply list_elem_of_singleton.
        -- right. eauto.
    + intros k d [Hin | [Hd Ht]]%Hent.
      * apply Map_elem_get in Hin; [|by apply Map_set_NoDup].
        rewrite Map_get_set in Hin. destruct (decide _) as [<- | Hne].
        -- injection Hin as <-. right. split; [apply list_elem_of_here | done].
        -- left. by apply Map_get_elem.
      * right. split; [by apply list_elem_of_further | done].
Qed.

Lemma snapshot_spec drives :
  NoDup (Cli.snapshot mapper drives).*1 /\
  (forall k, k ∈ (Cli.snapshot mapper drives).*1 <->
             exists d, d ∈ drives /\ Cli.trackingKey mapper d = k) /\
  (forall k d, (k, d) ∈ Cli.snapshot mapper drives ->
               d ∈ drives /\ Cli.trackingKey mapper d = k).
Proof.
  pose proof (snapshotFold drives [] (NoDup_nil_2)) as Hs. cbn zeta in Hs.
  fold (Cli.snapshot mapper drives) in Hs. destruct Hs as (Hnd & Hkeys & Hent).
  split; [done|]. split.
  - intros k. rewrite Hkeys. split; [|auto]. intros [H%elem_of_nil | H]; done.
  - intros k d [H%elem_of_nil | H]%Hent; done.
Qed.

Lemma filter_nil_iff {A} (f : A -> bool) l :
  List.filter f l = [] <-> forall x, x ∈ l -> f x = false.
Proof.
  induction l as [|a l IH]; simpl.
  - split; [by intros _ x ?%elem_of_nil | done].
  - destruct (f a) eqn:Ha.
    + split; [discriminate|]. intros H. rewrite H in Ha; [done | apply list_elem_of_here].
    + rewrite IH. split.
      * intros H x [-> | Hx]%elem_of_cons; auto.
      * intros H x Hx. by apply H, list_elem_of_further.
Qed.

(** X23.  A poll of [cmdMonitor] prints nothing exactly when the
    drives in sight have the keys that the drives of the poll before had;
    the drives themselves are not compared. *)
Theorem poll_silent (drives1 drives2 : list Cli.drive) :
  (Cli.poll mapper (Cli.snapshot mapper drives1) (Some drives2)).1 = [] <->
  (forall k,
     (exists d, d ∈ drives1 /\ Cli.trackingKey mapper d = k) <->
     (exists d, d ∈ drives2 /\ Cli.trackingKey mapper d = k)).
Proof.
  destruct (snapshot_spec drives1) as (_ & Hk1 & _).
  destruct (snapshot_spec drives2) as (_ & Hk2 & _).
  unfold Cli.poll. cbn [fst]. split.
  - intros [Hi Hr]%app_eq_nil.
    apply fmap_nil_inv in Hi. apply fmap_nil_inv in Hr.
    pose proof (proj1 (filter_nil_iff _ _) Hi) as Hi'.
    pose proof (proj1 (filter_nil_iff _ _) Hr) as Hr'. clear Hi Hr.
    intros k. rewrite <- Hk1, <- Hk2. split.
    + intros ([k' d] & -> & Hin)%list_elem_of_fmap.
      specialize (Hr' _ Hin). unfold Cli.absentFrom in Hr'.
      apply negb_false_iff in Hr'. by apply Map_has_elem in Hr'.
    + intros ([k' d] & -> & Hin)%list_elem_of_fmap.
      specialize (Hi' _ Hin). unfold Cli.absentFrom in Hi'.
      apply negb_false_iff in Hi'. by apply Map_has_elem in Hi'.
  - intros Hsame.
    assert (forall k, k ∈ (Cli.snapshot mapper drives1).*1 <->
                      k ∈ (Cli.snapshot mapper drives2).*1) as Hkeys.
    { intros k. by rewrite Hk1, Hk2. }
    assert (forall m m' : list (option string * Cli.drive),
              (forall k, k ∈ m.*1 -> k ∈ m'.*1) ->
              List.filter (Cli.absentFrom m') m = []) as Hnil.
    { intros m m' Hsub. apply filter_nil_iff. intros [k d] Hin.
      unfold Cli.absentFrom. apply negb_false_iff, Map_has_elem, Hsub.
      apply list_elem_of_fmap. by exists (k, d). }
    rewrite !Hnil; [done | |]; intros k; apply Hkeys.
Qed.

(** X24.  What a poll prints.  A drive is announced only when no
    drive of the poll before had its key, and announced as removed only
    when no drive in sight has it; every new key is announced; the next
    table holds one drive for each key; a scan that throws prints nothing
    and keeps the table. *)
Theorem poll_reports (drives1 drives2 : list Cli.drive) :
  let r := Cli.poll mapper (Cli.snapshot mapper drives1) (Some drives2) in
  r.2 = Cli.snapshot mapper drives2 /\ NoDup r.2.*1 /\
  (forall port d,
     Cli.Inserted port d ∈ r.1 ->
     d ∈ drives2 /\ port = Cli.portOf mapper d /\
     forall d', d' ∈ drives1 -> Cli.trackingKey mapper d' <> Cli.trackingKey mapper d) /\
  (forall port d,
     Cli.Removed port d ∈ r.1 ->
     d ∈ drives1 /\ port = Cli.portOf mapper d /\
     forall d', d' ∈ drives2 -> Cli.trackingKey mapper d' <> Cli.trackingKey mapper d) /\
  (forall d, d ∈ drives2 ->
     (forall d', d' ∈ drives1 -> Cli.trackingKey mapper d' <> Cli.trackingKey mapper d) ->
     exists port d'', Cli.Inserted port d'' ∈ r.1 /\
                      Cli.trackingKey mapper d'' = Cli.trackingKey mapper d) /\
  Cli.poll mapper (Cli.snapshot mapper drives1) None = ([], Cli.snapshot mapper drives1).
Proof.
  destruct (snapshot_spec drives1) as (Hnd1 & Hk1 & He1).
  destruct (snapshot_spec drives2) as (Hnd2 & Hk2 & He2).
  cbn zeta. unfold Cli.poll. cbn [fst snd].
  split; [done|]. split; [done|]. split; [|split; [|split; [|done]]].
  - intros port d [Hin | Hin]%elem_of_app.
    + apply list_elem_of_fmap in Hin as ([k d'] & [= -> ->] & Hin).
      apply list_elem_of_In, filter_In in Hin as [Hin%list_elem_of_In Habs].
      apply He2 in Hin as [Hd Ht]. split; [done|]. split; [done|].
      intros d1 Hd1 E. unfold Cli.absentFrom in Habs. apply negb_true_iff in Habs.
      assert (JS.Map_has (Cli.snapshot mapper drives1) k = true); [|cbn [fst] in *; congruence].
      apply Map_has_elem, Hk1. exists d1. split; [done | congruence].
    + apply list_elem_of_fmap in Hin as (? & [=] & _).
  - intros port d [Hin | Hin]%elem_of_app.
    + apply list_elem_of_fmap in Hin as (? & [=] & _).
    + apply list_elem_of_fmap in Hin as ([k d'] & [= -> ->] & Hin).
      apply list_elem_of_In, filter_In in Hin as [Hin%list_elem_of_In Habs].
      apply He1 in Hin as [Hd Ht]. split; [done|]. split; [done|].
      intros d2 Hd2 E. unfold Cli.absentFrom in Habs. apply negb_true_iff in Habs.
      assert (JS.Map_has (Cli.snapshot mapper drives2) k = true); [|cbn [fst] in *; congruence].
      apply Map_has_elem, Hk2. exists d2. split; [done | congruence].
  - intros d Hd Hnew.
    assert (Cli.trackingKey mapper d ∈ (Cli.snapshot mapper drives2).*1) as Hin.
    { apply Hk2. eauto. }
    apply list_elem_of_fmap in Hin as ([k d''] & Hk & Hin). cbn [fst] in Hk. subst k.
    exists (Cli.portOf mapper d''), d''. split.
    + apply elem_of_app. left. apply list_elem_of_fmap.
      exists (Cli.trackingKey mapper d, d''). split; [done|].
      apply list_elem_of_In, filter_In. split; [by apply list_elem_of_In|].
      unfold Cli.absentFrom. cbn [fst]. apply negb_true_iff, not_true_is_false.
      intros (d1 & Hd1 & E)%Map_has_elem%Hk1. by eapply Hnew.
    + by apply He2 in Hin as [_ Ht].
Qed.

End MonitorTheorems.

Section HubTheorems.
Import PortMapper.

Lemma trackingKey_cases (d : Cli.drive) :
  Cli.trackingKey None d = Cli.serial d /\
  forall mapper,
    Cli.trackingKey (Some mapper) d
    = match keyOf d with
      | Some key => Some key
      | None => Cli.serial d
      end.
Proof.
  unfold Cli.trackingKey, keyOf. split; [by destruct (falsy _)|]. intros _.
  destruct (normalizeLocation _ _) as [key|] eqn:Hn; [|done].
  by rewrite (normalizeLocation_truthy _ _ _ Hn).
Qed.

Lemma groupStep_get chips h p :
  JS.Map_get (Cli.groupStep chips h) p
  = if bool_decide (extractChipPrefix (Cli.instanceId h) = Some p)
    then Some (default [] (JS.Map_get chips p) ++ [h])
    else JS.Map_get chips p.
Proof.
  unfold Cli.groupStep.
  destruct (extractChipPrefix (Cli.instanceId h)) as [q|] eqn:He.
  - destruct (extractChipPrefix_chars _ _ He) as [Hne _].
    rewrite (proj2 (falsy_Some q) Hne), Map_get_set.
    case_bool_decide as Hq.
    + injection Hq as ->. rewrite decide_True by done.
      unfold JS.Map_has. destruct (JS.Map_get chips p) eqn:Hg; [by rewrite Hg|].
      rewrite Map_get_set, decide_True by done. done.
    + rewrite decide_False by congruence.
      destruct (JS.Map_has chips q); [done|].
      rewrite Map_get_set, decide_False by congruence. done.
  - rewrite bool_decide_eq_false_2 by done. done.
Qed.

Lemma groupStep_NoDup chips h : NoDup chips.*1 -> NoDup (Cli.groupStep chips h).*1.
Proof.
  intros Hnd. unfold Cli.groupStep. destruct (falsy _); [done|].
  destruct (extractChipPrefix _) as [q|]; [|done].
  apply Map_set_NoDup. destruct (JS.Map_has chips q); [done | by apply Map_set_NoDup].
Qed.

Lemma groupFold hubs : forall chips p,
  JS.Map_get (foldl Cli.groupStep chips hubs) p
  = match List.filter (fun h => bool_decide (extractChipPrefix (Cli.instanceId h) = Some p))
                      hubs with
    | [] => JS.Map_get chips p
    | l => Some (default [] (JS.Map_get chips p) ++ l)
    end.
Proof.
  induction hubs as [|h hubs IH]; intros chips p; [done|].
  cbn [foldl List.filter]. rewrite IH, groupStep_get.
  destruct (bool_decide _); [|done]. cbn [default from_option]. unfold id.
  destruct (List.filter _ hubs) as [|x l]; [done|]. by rewrite <- app_assoc.
Qed.

Lemma groupFold_NoDup hubs : forall chips,
  NoDup chips.*1 -> NoDup (foldl Cli.groupStep chips hubs).*1.
Proof.
  induction hubs as [|h hubs IH]; intros chips Hnd; [done|].
  apply IH. by apply groupStep_NoDup.
Qed.

(** X25.  [cmdHubs] puts every hub that has a chip prefix into the
    group of that prefix and into no other, in the order of the scan; a
    hub without a prefix is in no group; no group is empty and no prefix
    has two groups. *)
Theorem groupByChip_spec (hubs : list Cli.hub) :
  NoDup (Cli.groupByChip hubs).*1 /\
  (forall prefix group,
     (prefix, group) ∈ Cli.groupByChip hubs <->
     group <> [] /\
     group = List.filter
               (fun h => bool_decide (extractChipPrefix (Cli.instanceId h) = Some prefix))
               hubs) /\
  (forall h, h ∈ hubs ->
     match extractChipPrefix (Cli.instanceId h) with
     | Some prefix => exists group, (prefix, group) ∈ Cli.groupByChip hubs /\ h ∈ group
     | None => forall prefix group, (prefix, group) ∈ Cli.groupByChip hubs -> h ∉ group
     end).
Proof.
  pose proof (groupFold_NoDup hubs [] (NoDup_nil_2)) as Hnd.
  fold (Cli.groupByChip hubs) in Hnd.
  assert (Hget : forall prefix group,
     (prefix, group) ∈ Cli.groupByChip hubs <->
     group <> [] /\
     group = List.filter
               (fun h => bool_decide (extractChipPrefix (Cli.instanceId h) = Some prefix))
               hubs).
  { intros prefix group. split.
    - intros Hin%Map_elem_get; [|done]. unfold Cli.groupByChip in Hin.
      rewrite groupFold in Hin. destruct (List.filter _ hubs) as [|x l]; [done|].
      injection Hin as <-. done.
    - intros [Hne ->]. apply Map_get_elem. unfold Cli.groupByChip. rewrite groupFold.
      destruct (List.filter _ hubs) as [|x l]; done. }
  split; [done|]. split; [exact Hget|].
  intros h Hh. destruct (extractChipPrefix (Cli.instanceId h)) as [prefix|] eqn:He.
  - eexists. split.
    + apply Hget. split; [|reflexivity]. intros Hnil.
      assert (h ∈ @nil Cli.hub) as Hin%elem_of_nil; [|done].
      rewrite <- Hnil. apply list_elem_of_In, filter_In.
      split; [by apply list_elem_of_In | by apply bool_decide_eq_true].
    + apply list_elem_of_In, filter_In.
      split; [by apply list_elem_of_In | by apply bool_decide_eq_true].
  - intros prefix group [_ ->]%Hget [_ Hb]%list_elem_of_In%filter_In.
    apply bool_decide_eq_true in Hb. congruence.
Qed.

End HubTheorems.

Section ScannerTheorems.
Import Scanner.

Variable trim : string -> string.
Variable JSON_parse : string -> option JS.value.

Lemma runScript_S fuel exec n retryOnce :
  runScript trim JSON_parse (S fuel) exec n retryOnce
  = match exec n with
    | Stdout stdout => Some (JS.Return (parseOutput trim JSON_parse stdout), S n)
    | Rejected code killed =>
        if isENOENT code then Some (JS.Throw PowerShellNotFound, S n)
        else if killed && retryOnce then runScript trim JSON_parse fuel exec (S n) false
        else if killed then Some (JS.Throw TimedOut, S n)
        else Some (JS.Throw (Rethrown code killed), S n)
    end.
Proof. reflexivity. Qed.

Lemma runScript_once fuel exec n :
  exists r, runScript trim JSON_parse (S fuel) exec n false = Some (r, S n) /\
            (r = JS.Throw TimedOut <-> timedOut (exec n) = true) /\
            (forall stdout, exec n = Stdout stdout ->
                            r = JS.Return (parseOutput trim JSON_parse stdout)).
Proof.
  rewrite runScript_S. destruct (exec n) as [stdout|code killed]; cbn [timedOut].
  - eexists. split; [reflexivity|]. split; [split; discriminate|]. by intros ? [= <-].
  - destruct (isENOENT code); cbn [negb andb].
    + eexists. split; [reflexivity|]. split; [split; discriminate | discriminate].
    + rewrite andb_false_r. destruct killed.
      * eexists. split; [reflexivity|]. split; [done | discriminate].
      * eexists. split; [reflexivity|]. split; [split; discriminate | discriminate].
Qed.

(** X26.  [runScript] settles after one execution of the command,
    or after two when a retry was asked for and the first execution was
    killed; it reports a timeout only when the last execution was
    killed. *)
Theorem runScript_settles (fuel : nat) (exec : nat -> execution) (n : nat)
        (retryOnce : bool) :
  2 <= fuel ->
  exists r calls,
    runScript trim JSON_parse fuel exec n retryOnce = Some (r, calls) /\
    (calls = if retryOnce && timedOut (exec n) then S (S n) else S n) /\
    (r = JS.Throw TimedOut <->
       timedOut (exec n) = true /\ (retryOnce = true -> timedOut (exec (S n)) = true)) /\
    (forall stdout, exec n = Stdout stdout ->
       r = JS.Return (parseOutput trim JSON_parse stdout)) /\
    (forall r', runScript trim JSON_parse 2 exec n retryOnce = Some r' -> r' = (r, calls)).
Proof.
  intros Hfuel. destruct fuel as [|[|fuel]]; [lia | lia |]. clear Hfuel.
  destruct retryOnce.
  - rewrite !(runScript_S _ exec n).
    destruct (exec n) as [stdout|code killed] eqn:He; cbn [timedOut andb].
    + eexists _, _. split; [reflexivity|]. split; [done|].
      split; [split; [discriminate | by intros [[=] _]]|].
      split; [by intros ? [= <-] | by intros ? [= <-]].
    + destruct (isENOENT code) eqn:Hc; cbn [negb andb].
      * eexists _, _. split; [reflexivity|]. split; [done|].
        split; [split; [discriminate | by intros [[=] _]]|].
        split; [discriminate | by intros ? [= <-]].
      * rewrite andb_true_r. destruct killed.
        -- destruct (runScript_once fuel exec (S n)) as (r & Hr & Hto & _).
           destruct (runScript_once 0 exec (S n)) as (r0 & Hr0 & Hto0 & _).
           rewrite Hr. exists r, (S (S n)). split; [done|]. split; [done|].
           split; [rewrite Hto; tauto|]. split; [discriminate|].
           intros r'. rewrite Hr0. intros [= <-]. f_equal.
           clear -Hr Hr0. rewrite runScript_S in Hr, Hr0.
           destruct (exec (S n)) as [|code' killed']; [congruence|].
           destruct (isENOENT code'); [congruence|].
           rewrite andb_false_r in Hr, Hr0. destruct killed'; congruence.
        -- eexists _, _. split; [reflexivity|]. split; [done|].
           split; [split; [discriminate | by intros [[=] _]]|].
           split; [discriminate | by intros ? [= <-]].
  - destruct (runScript_once (S fuel) exec n) as (r & Hr & Hto & Hout).
    destruct (runScript_once 1 exec n) as (r0 & Hr0 & _).
    exists r, (S n). split; [done|]. split; [done|].
    split; [rewrite Hto; split; [done | tauto]|]. split; [done|].
    intros r'. rewrite Hr0. intros [= <-]. f_equal.
    clear -Hr Hr0. rewrite runScript_S in Hr, Hr0.
    destruct (exec n) as [|code' killed']; [congruence|].
    destruct (isENOENT code'); [congruence|].
    rewrite andb_false_r in Hr, Hr0. destruct killed'; congruence.
Qed.

End ScannerTheorems.

Section DialogueTheorems.

Variable scan : nat -> option (list Cli.drive).
Variable skip : nat -> bool.

Lemma scanPort_S attempts remaining drives :
  Cli.scanPort scan skip attempts (S remaining) drives
  = match scan attempts with
    | None => Cli.Exited
    | Some [] =>
        if skip attempts then Cli.Settled [] (S attempts)
        else Cli.scanPort scan skip (S attempts) remaining []
    | Some [d] => Cli.Settled [d] (S attempts)
    | Some drives => Cli.scanPort scan skip (S attempts) remaining drives
    end.
Proof. reflexivity. Qed.

Lemma scanPort_from remaining : forall attempts drives0,
  match Cli.scanPort scan skip attempts remaining drives0 with
  | Cli.Exited =>
      exists n, attempts <= n < attempts + remaining /\ scan n = None /\
                forall i, attempts <= i < n -> retried scan skip i
  | Cli.Settled drives scans =>
      (remaining = 0 /\ scans = attempts /\ drives = drives0) \/
      exists last,
        scans = S last /\ attempts <= last < attempts + remaining /\
        scan last = Some drives /\
        (forall i, attempts <= i < last -> retried scan skip i) /\
        (length drives = 1 \/ (drives = [] /\ skip last = true) \/
         (S last = attempts + remaining /\ retried scan skip last))
  end.
Proof.
  induction remaining as [|remaining IH]; intros attempts drives0; [left; done|].
  rewrite scanPort_S.
  assert (Hnext : forall drives,
    scan attempts = Some drives -> length drives <> 1 ->
    (drives = [] -> skip attempts = false) ->
    match Cli.scanPort scan skip (S attempts) remaining drives with
    | Cli.Exited =>
        exists n, attempts <= n < attempts + S remaining /\ scan n = None /\
                  forall i, attempts <= i < n -> retried scan skip i
    | Cli.Settled drives' scans =>
        (S remaining = 0 /\ scans = attempts /\ drives' = drives0) \/
        exists last,
          scans = S last /\ attempts <= last < attempts + S remaining /\
          scan last = Some drives' /\
          (forall i, attempts <= i < last -> retried scan skip i) /\
          (length drives' = 1 \/ (drives' = [] /\ skip last = true) \/
           (S last = attempts + S remaining /\ retried scan skip last))
    end).
  { intros drives Hs Hlen Hskip.
    assert (Hre : retried scan skip attempts) by (exists drives; done).
    assert (Hbefore : forall n i, (forall j, S attempts <= j < n -> retried scan skip j) ->
                                  attempts <= i < n -> retried scan skip i).
    { intros n i Hall Hi. destruct (decide (i = attempts)) as [-> | Hne]; [done|].
      apply Hall. lia. }
    specialize (IH (S attempts) drives).
    destruct (Cli.scanPort scan skip (S attempts) remaining drives) as [|drives' scans].
    - destruct IH as (n & Hn & Hnone & Hall). exists n. split; [lia|]. split; [done|].
      intros i Hi. by eapply Hbefore.
    - right. destruct IH as [(-> & -> & ->) | (last & -> & Hl & Hsl & Hall & Hend)].
      + exists attempts. split; [done|]. split; [lia|]. split; [done|].
        split; [intros i Hi; lia|]. right. right. split; [lia | done].
      + exists last. split; [done|]. split; [lia|]. split; [done|].
        split; [intros i Hi; by eapply Hbefore|].
        destruct Hend as [H | [H | [H1 H2]]]; [by left | by right; left|].
        right. right. split; [lia | done]. }
  destruct (scan attempts) as [[|d [|d' drives]]|] eqn:Hs.
  - destruct (skip attempts) eqn:Hk.
    + right. exists attempts. split; [done|]. split; [lia|]. split; [done|].
      split; [intros i Hi; lia|]. right. left. done.
    + apply Hnext; [done | simpl; lia | done].
  - right. exists attempts. split; [done|]. split; [lia|]. split; [done|].
    split; [intros i Hi; lia|]. by left.
  - apply Hnext; [done | simpl; lia | discriminate].
  - exists attempts. split; [lia|]. split; [done|]. intros i Hi. lia.
Qed.

(** X27.  The scanning dialogue of a port makes at most three scans.
    It goes on with the drive of the first scan that finds exactly one,
    provided every scan before it found none or several and was not
    followed by 'skip'; in every other case it goes on with no drive, or
    leaves the program when a scan throws. *)
Theorem scanPort_spec :
  match Cli.scanPort scan skip 0 3 [] with
  | Cli.Exited =>
      exists n, n < 3 /\ scan n = None /\ forall i, i < n -> retried scan skip i
  | Cli.Settled drives scans =>
      exists last,
        scans = S last /\ last < 3 /\ scan last = Some drives /\
        (forall i, i < last -> retried scan skip i) /\
        (length drives = 1 \/ (drives = [] /\ skip last = true) \/
         (last = 2 /\ retried scan skip last))
  end /\
  (forall d,
     Cli.isolatedDrive (Cli.scanPort scan skip 0 3 []) = Some d <->
     exists n, n < 3 /\ scan n = Some [d] /\ forall i, i < n -> retried scan skip i).
Proof.
  pose proof (scanPort_from 3 0 []) as H.
  assert (Hspec : match Cli.scanPort scan skip 0 3 [] with
    | Cli.Exited =>
        exists n, n < 3 /\ scan n = None /\ forall i, i < n -> retried scan skip i
    | Cli.Settled drives scans =>
        exists last,
          scans = S last /\ last < 3 /\ scan last = Some drives /\
          (forall i, i < last -> retried scan skip i) /\
          (length drives = 1 \/ (drives = [] /\ skip last = true) \/
           (last = 2 /\ retried scan skip last))
    end).
  { destruct (Cli.scanPort scan skip 0 3 []) as [|drives scans].
    - destruct H as (n & Hn & Hnone & Hall). exists n. split; [lia|]. split; [done|].
      intros i Hi. apply Hall. lia.
    - destruct H as [([=] & _) | (last & -> & Hl & Hs & Hall & Hend)].
      exists last. split; [done|]. split; [lia|]. split; [done|].
      split; [intros i Hi; apply Hall; lia|].
      destruct Hend as [? | [? | [? ?]]]; [by left | by right; left|].
      right. right. split; [lia | done]. }
  split; [exact Hspec|]. intros d. split.
  - destruct (Cli.scanPort scan skip 0 3 []) as [|[|d' [|d'' drives]] scans];
      try discriminate.
    intros [= ->]. destruct Hspec as (last & _ & Hl & Hs & Hall & _). eauto.
  - intros (n & Hn & Hs & Hall).
    destruct (Cli.scanPort scan skip 0 3 []) as [|drives scans].
    + destruct Hspec as (m & Hm & Hnone & Hallm).
      destruct (Nat.lt_trichotomy m n) as [Hlt | [-> | Hgt]].
      * destruct (Hall m Hlt) as (ds & Hds & _). congruence.
      * congruence.
      * destruct (Hallm n Hgt) as (ds & Hds & Hlen & _).
        rewrite Hs in Hds. injection Hds as <-. done.
    + destruct Hspec as (last & -> & Hl & Hsl & Halll & Hend).
      destruct (Nat.lt_trichotomy last n) as [Hlt | [-> | Hgt]].
      * destruct (Hall last Hlt) as (ds & Hds & Hlen & Hsk).
        rewrite Hsl in Hds. injection Hds as <-.
        destruct Hend as [H1 | [[-> Hk] | [H2 _]]].
        -- done.
        -- rewrite Hsk in Hk by done. discriminate.
        -- lia.
      * rewrite Hs in Hsl. by injection Hsl as <-.
      * destruct (Halll n Hgt) as (ds & Hds & Hlen & _).
        rewrite Hs in Hds. injection Hds as <-. done.
Qed.

End DialogueTheorems.

Section Instances.
Import PortMapper.

(** The two nodes of one port: the same key from two reports of it. *)
Lemma key_determines_parts_witness :
  extractChipPrefix (Some "USB\VID_2109&PID_0822\9&238498F1&0&3")
    = extractChipPrefix (Some "usb\vid_2109&pid_2822\9&238498f1&0&3") /\
  extractPortIndex (Some "Port_#0002.Hub_#0008") = extractPortIndex (Some "port_#2").
Proof.
  apply (key_determines_parts
           (Some "Port_#0002.Hub_#0008") (Some "port_#2")
           (Some "USB\VID_2109&PID_0822\9&238498F1&0&3")
           (Some "usb\vid_2109&pid_2822\9&238498f1&0&3") "9&238498F1|2").
  - vm_compute. reflexivity.
  - vm_compute. reflexivity.
Defined.

Lemma normalizeLocation_ignores_case_witness :
  normalizeLocation (Some "Port_#0002.Hub_#0008") (Some "USB\VID_2109&PID_0822\9&238498f1&0&3")
  = normalizeLocation (Some "PORT_#0002.HUB_#0008") (Some "USB\VID_2109&PID_0822\9&238498F1&0&3").
Proof.
  apply normalizeLocation_ignores_case.
  - vm_compute. reflexivity.
  - vm_compute. reflexivity.
Defined.

Lemma addMapping_then_lookup_witness :
  let location := Some "Port_#0002.Hub_#0008" in
  let parent := Some "USB\VID_2109&PID_0822\9&238498F1&0&3" in
  let this' := (addMapping {| mappings := ∅ |} location parent (JS.ofZ 5)).2 in
  getPhysicalPort this' location parent = JS.ofZ 5 /\
  hasMapping this' location parent = true.
Proof.
  intros location parent this'.
  destruct (addMapping_then_lookup {| mappings := ∅ |} location parent (JS.ofZ 5)
              "9&238498F1|2") as (H1 & _ & H3 & _).
  - vm_compute. reflexivity.
  - exact (conj H1 H3).
Defined.

Lemma key_valid_iff_index_digits_witness :
  RegExp.test Store.keyPattern "9&238498F1|2" = true <-> allDigits "2" = true.
Proof.
  apply (key_valid_iff_index_digits (Some "Port_#0002.Hub_#0008")
           (Some "USB\VID_2109&PID_0822\9&238498F1&0&3")).
  - vm_compute. reflexivity.
  - vm_compute. reflexivity.
Defined.

Lemma long_port_index_never_valid_witness :
  RegExp.test Store.keyPattern "9&238498F1|1e+21" = false.
Proof.
  apply (long_port_index_never_valid EmptyString "Port_#" "1000000000000000000000"
           EmptyString (Some "USB\VID_2109&PID_0822\9&238498F1&0&3")).
  - reflexivity.
  - discriminate.
  - reflexivity.
  - reflexivity.
  - intros. simpl. lia.
  - vm_compute. discriminate.
  - vm_compute. reflexivity.
Defined.


(** A round trip through a file that holds the document itself. *)
Lemma save_then_load_witness :
  let document := Store.toSave "2024-01-01T00:00:00.000Z" (JS.Object []) in
  let JSON_parse := fun _ : string => Some document in
  let JSON_stringify := fun _ : JS.value => "{}" in
  Store.load JSON_parse None
    (Store.save JSON_stringify "2024-01-01T00:00:00.000Z" (JS.Object []) None None).2
  = JS.Return document.
Proof.
  intros document JSON_parse JSON_stringify.
  apply (save_then_load JSON_parse JSON_stringify).
  - reflexivity.
  - vm_compute. reflexivity.
Defined.

Lemma mapDrive_outcomes_witness :
  let d := {| Cli.name := None; Cli.serial := None;
              Cli.location := Some "Port_#0002.Hub_#0008";
              Cli.parent := Some "USB\VID_2109&PID_0822\9&238498F1&0&3" |} in
  consistent (Cli.mapDrive Cli.newCalibration 1 d EmptyString).1.
Proof.
  intros d.
  destruct (mapDrive_outcomes Cli.newCalibration 1 d EmptyString) as (H & _).
  - unfold consistent. simpl. split; [lia|]. split; [lia | reflexivity].
  - lia.
  - exact H.
Defined.

Lemma calibrate_document_current_witness :
  let d := {| Cli.name := None; Cli.serial := None;
              Cli.location := Some "Port_#0002.Hub_#0008";
              Cli.parent := Some "USB\VID_2109&PID_0822\9&238498F1&0&3" |} in
  let w := Cli.calibratePorts (fun _ => Some d) (fun _ => EmptyString) [1; 2]%Z
                              Cli.newCalibration in
  Cli.object w (Cli.calibrationMappings w) = Cli.object w (Cli.mapperMappings w).
Proof.
  intros d w.
  destruct (calibrate_document_current (fun _ => Some d) (fun _ => EmptyString) [1; 2]%Z)
    as (H & _).
  - repeat constructor; lia.
  - exact H.
Defined.

(** Seven ports of one chip. *)
Lemma calibrate_complete_witness :
  let isolated := fun port : Z =>
    Some {| Cli.name := None; Cli.serial := None;
            Cli.location := Some ("Port_#000" +:+ Double.decimal (Z.to_N port));
            Cli.parent := Some "USB\VID_2109&PID_0822\9&238498F1&0&3" |} in
  let w := Cli.calibrate isolated (fun _ => "n") in
  isCalibrated {| mappings := Cli.object w (Cli.mapperMappings w) |} = true.
Proof.
  intros isolated w.
  assert (forall port : Z, (1 <= port <= 7)%Z ->
            port = 1 \/ port = 2 \/ port = 3 \/ port = 4 \/ port = 5 \/ port = 6
            \/ port = 7)%Z as Hcases by lia.
  destruct (calibrate_complete isolated (fun _ => "n")
              (fun port => "9&238498F1|" +:+ Double.decimal (Z.to_N port)))
    as (H & _).
  - intros port Hp. eexists. split; [reflexivity|].
    destruct (Hcases port Hp) as [-> | [-> | [-> | [-> | [-> | [-> | ->]]]]]];
      vm_compute; reflexivity.
  - intros p q Hp Hq E.
    destruct (Hcases p Hp) as [-> | [-> | [-> | [-> | [-> | [-> | ->]]]]]];
      destruct (Hcases q Hq) as [-> | [-> | [-> | [-> | [-> | [-> | ->]]]]]];
      try reflexivity; vm_compute in E; discriminate.
  - exact H.
Defined.

Lemma status_ports_in_table_witness :
  let document :=
    JS.Object [("version", JS.Str "1.0");
               ("mappings", JS.Object [("9&238498F1|2", JS.ofZ 5)])] in
  let d := {| Cli.name := None; Cli.serial := None;
              Cli.location := Some "Port_#0002.Hub_#0008";
              Cli.parent := Some "USB\VID_2109&PID_0822\9&238498F1&0&3" |} in
  Cli.placed (Cli.statusLoop (Some (Cli.mapperOf document)) [d]) = [(JS.ofZ 5, d)] /\
  isPortNumber (JS.ofZ 5).
Proof.
  intros document d.
  assert (Cli.placed (Cli.statusLoop (Some (Cli.mapperOf document)) [d]) = [(JS.ofZ 5, d)])
    as Hplaced by (vm_compute; reflexivity).
  split; [exact Hplaced|].
  destruct (status_ports_in_table (fun _ => Some document) None (Some "{}") document [d])
    as (H & _).
  - vm_compute. reflexivity.
  - apply (H (JS.ofZ 5) d). rewrite Hplaced. apply list_elem_of_here.
Defined.

Lemma runScript_settles_witness :
  let exec := fun _ : nat => Scanner.Rejected JS.Undefined true in
  exists r calls,
    Scanner.runScript (fun s => s) (fun _ => None) 2 exec 0 true = Some (r, calls) /\
    calls = 2.
Proof.
  intros exec.
  destruct (runScript_settles (fun s => s) (fun _ => None) 2 exec 0 true)
    as (r & calls & Hr & Hc & _); [lia|].
  exists r, calls. split; [exact Hr | exact Hc].
Defined.

End Instances.
